(** * fileTree: the secure file-access layer and the multipart decoder

    A shallow embedding of [server/helpers.js] and [server/fileService.js],
    of the upload endpoint of [server/fileController.js], the rate limiter
    of [server/router.js], the reading side of [server/logger.js] and the
    static files of [server/server.js], with their properties stated over
    it.

    Conventions.
    - A JavaScript string is the list of its UTF-16 code units ([list N]);
      a [Buffer] is the list of its bytes ([list N], every element below 256).
      [js "..."] turns a literal into code units.
    - The Node.js built-ins the code calls ([path.*], [String.prototype.*],
      [Buffer.prototype.*], [fs.*]) are not part of the repository; they are
      modelled here after their documented POSIX behaviour, each under the
      name the code uses.
    - Loop counters that use [-1] as "not found" are integers ([Z]), as in
      the code; positions that are never negative are naturals. *)

From stdpp Require Import gmap strings list pretty sorting.
From Stdlib Require Import NArith ZArith Ascii.

Set Warnings "-register-all,-clear-no-such-hyp".

Abbreviation jsstring := (list N).
Abbreviation buffer := (list N).

Definition js (s : string) : jsstring :=
  map Ascii.N_of_ascii (String.list_ascii_of_string s).

(** ** Character codes *)

Definition CHAR_FORWARD_SLASH : N := 47.
Definition CHAR_BACKWARD_SLASH : N := 92.
Definition CHAR_DOT : N := 46.
Definition CHAR_COLON : N := 58.
Definition CHAR_QUOTE : N := 34.
Definition CHAR_UNDERSCORE : N := 95.
Definition CHAR_CR : N := 13.
Definition CHAR_LF : N := 10.
Definition CHAR_DASH : N := 45.

(** ** String and Buffer primitives *)

Definition str_eqb (a b : jsstring) : bool := bool_decide (a = b).

(** [String.prototype.startsWith] (and the byte-wise test of
    [Buffer.prototype.indexOf] at one position). *)
Fixpoint startsWith (s pre : list N) : bool :=
  match pre, s with
  | [], _ => true
  | p :: pre', c :: s' => N.eqb p c && startsWith s' pre'
  | _ :: _, [] => false
  end.

(** [slice(start, end)] for [0 <= start] and [0 <= end]; an [end] before
    [start] gives the empty result, an [end] past the length is clamped. *)
Definition slice (s : list N) (start stop : nat) : list N :=
  take (stop - start) (drop start s).

Fixpoint find_from (hay needle : list N) (i : nat) : option nat :=
  if startsWith hay needle then Some i
  else match hay with
       | [] => None
       | _ :: hay' => find_from hay' needle (S i)
       end.

(** [indexOf(needle, position)]: the first index at or after [position]
    where [needle] occurs, [None] for the code's [-1]. *)
Definition indexOf (hay needle : list N) (position : nat) : option nat :=
  find_from (drop position hay) needle position.

(** [String.prototype.split] on a one-character separator. *)
Fixpoint split_on (sep : N) (s : jsstring) : list jsstring :=
  match s with
  | [] => [[]]
  | c :: s' =>
      if N.eqb c sep then [] :: split_on sep s'
      else match split_on sep s' with
           | seg :: segs => (c :: seg) :: segs
           | [] => [[c]]
           end
  end.

(** [Array.prototype.join]. *)
Fixpoint join_with (sep : jsstring) (segs : list jsstring) : jsstring :=
  match segs with
  | [] => []
  | [seg] => seg
  | seg :: segs' => seg ++ sep ++ join_with sep segs'
  end.

(** [String.prototype.split] on a separator of several characters;
    [skip] counts the characters of a separator still to pass over. *)
Fixpoint split_str_go (sep s : jsstring) (skip : nat) (cur : jsstring)
  : list jsstring :=
  match s with
  | [] => [reverse cur]
  | c :: s' =>
      match skip with
      | S k => split_str_go sep s' k cur
      | O =>
          if startsWith s sep
          then reverse cur :: split_str_go sep s' (length sep - 1) []
          else split_str_go sep s' 0 (c :: cur)
      end
  end.

Definition split_str (sep s : jsstring) : list jsstring :=
  split_str_go sep s 0 [].

(** White space and line terminators removed by [String.prototype.trim]. *)
Definition is_js_space (c : N) : bool :=
  ((9 <=? c) && (c <=? 13) || (c =? 32) || (c =? 160) || (c =? 5760)
   || ((8192 <=? c) && (c <=? 8202)) || (c =? 8232) || (c =? 8233)
   || (c =? 8239) || (c =? 8287) || (c =? 12288) || (c =? 65279))%N.

Fixpoint trim_start (s : jsstring) : jsstring :=
  match s with
  | c :: s' => if is_js_space c then trim_start s' else s
  | [] => []
  end.

Definition trim (s : jsstring) : jsstring :=
  reverse (trim_start (reverse (trim_start s))).

(** Lower-casing of the letters A-Z.  [toLowerCase] agrees with it on
    ASCII text; the regular expressions with flag [i] used by the code
    have ASCII patterns, for which case folding is exactly this map. *)
Definition ascii_lower (c : N) : N :=
  if ((65 <=? c) && (c <=? 90))%N then (c + 32)%N else c.

Definition toLowerCase (s : jsstring) : jsstring := map ascii_lower s.

(** A backwards [for (let i = n - 1; i >= 0; --i)] loop whose body may
    [break]: [inl] leaves the loop, [inr] goes on to the next index. *)
Fixpoint for_down {S : Type} (body : Z → S → S + S) (n : nat) (st : S) : S :=
  match n with
  | O => st
  | S k =>
      match body (Z.of_nat k) st with
      | inl st' => st'
      | inr st' => for_down body k st'
      end
  end.

(** [charCodeAt(i)] inside the string. *)
Definition charCodeAt (s : jsstring) (i : Z) : N := nth (Z.to_nat i) s 0%N.

Definition zslice (s : jsstring) (start stop : Z) : jsstring :=
  slice s (Z.to_nat start) (Z.to_nat stop).

(** ** Node's [path] module, POSIX flavour *)

Module path.

Definition is_dot (seg : jsstring) : bool := str_eqb seg [CHAR_DOT].
Definition is_dotdot (seg : jsstring) : bool :=
  str_eqb seg [CHAR_DOT; CHAR_DOT].

(** One segment of [normalizeString]; [stack] holds the segments kept so
    far, the last one first.  Empty segments and [.] are dropped; [..]
    removes the last kept segment unless there is none or it is [..]
    itself, in which case it is kept when the path is relative. *)
Definition norm_step (allowAboveRoot : bool) (stack : list jsstring)
    (seg : jsstring) : list jsstring :=
  if str_eqb seg [] || is_dot seg then stack
  else if is_dotdot seg then
    match stack with
    | top :: rest =>
        if is_dotdot top
        then (if allowAboveRoot then seg :: stack else stack)
        else rest
    | [] => if allowAboveRoot then [seg] else []
    end
  else seg :: stack.

Definition normalizeString (p : jsstring) (allowAboveRoot : bool) : jsstring :=
  join_with [CHAR_FORWARD_SLASH]
    (reverse (fold_left (norm_step allowAboveRoot)
                (split_on CHAR_FORWARD_SLASH p) [])).

Definition isAbsolute (p : jsstring) : bool :=
  match p with c :: _ => N.eqb c CHAR_FORWARD_SLASH | [] => false end.

Definition trailingSeparator (p : jsstring) : bool :=
  match last p with Some c => N.eqb c CHAR_FORWARD_SLASH | None => false end.

Definition normalize (p : jsstring) : jsstring :=
  match p with
  | [] => js "."
  | _ =>
      let r := normalizeString p (negb (isAbsolute p)) in
      match r with
      | [] =>
          if isAbsolute p then js "/"
          else if trailingSeparator p then js "./" else js "."
      | _ =>
          let r' := if trailingSeparator p then r ++ js "/" else r in
          if isAbsolute p then CHAR_FORWARD_SLASH :: r' else r'
      end
  end.

Definition join (args : list jsstring) : jsstring :=
  match filter (λ a, a ≠ []) args with
  | [] => js "."
  | parts => normalize (join_with [CHAR_FORWARD_SLASH] parts)
  end.

(** [dirname]: the loop runs over the indices [length - 1 .. 1]; the
    state is [(end, matchedSlash)]. *)
Definition dirname_body (p : jsstring) (i : Z) (st : Z * bool)
  : (Z * bool) + (Z * bool) :=
  let '(end_, matchedSlash) := st in
  if (i <? 1)%Z then inl st
  else if N.eqb (charCodeAt p i) CHAR_FORWARD_SLASH then
    (if negb matchedSlash then inl (i, matchedSlash) else inr st)
  else inr (end_, false).

Definition dirname (p : jsstring) : jsstring :=
  match p with
  | [] => js "."
  | _ =>
      let hasRoot := isAbsolute p in
      let '(end_, _) := for_down (dirname_body p) (length p) ((-1)%Z, true) in
      if (end_ =? -1)%Z then (if hasRoot then js "/" else js ".")
      else if hasRoot && (end_ =? 1)%Z then js "//"
      else zslice p 0 end_
  end.

(** [basename(path)] without a suffix: state [(start, end, matchedSlash)]. *)
Definition basename_body (p : jsstring) (i : Z) (st : Z * Z * bool)
  : (Z * Z * bool) + (Z * Z * bool) :=
  let '(start, end_, matchedSlash) := st in
  if N.eqb (charCodeAt p i) CHAR_FORWARD_SLASH then
    (if negb matchedSlash then inl ((i + 1)%Z, end_, matchedSlash)
     else inr st)
  else if (end_ =? -1)%Z then inr (start, (i + 1)%Z, false)
  else inr st.

Definition basename1 (p : jsstring) : jsstring :=
  let '(start, end_, _) :=
    for_down (basename_body p) (length p) (0%Z, (-1)%Z, true) in
  if (end_ =? -1)%Z then [] else zslice p start end_.

(** [basename(path, suffix)] with a non-empty suffix no longer than the
    path and different from it. *)
Record bstate := BState {
  b_start : Z; b_end : Z; b_matchedSlash : bool;
  b_extIdx : Z; b_firstNonSlashEnd : Z }.

Definition basename_suffix_body (p suffix : jsstring) (i : Z) (st : bstate)
  : bstate + bstate :=
  let code := charCodeAt p i in
  if N.eqb code CHAR_FORWARD_SLASH then
    (if negb (b_matchedSlash st)
     then inl (BState (i + 1) (b_end st) (b_matchedSlash st)
                 (b_extIdx st) (b_firstNonSlashEnd st))
     else inr st)
  else
    let st1 :=
      if (b_firstNonSlashEnd st =? -1)%Z
      then BState (b_start st) (b_end st) false (b_extIdx st) (i + 1)
      else st in
    if (0 <=? b_extIdx st1)%Z then
      if N.eqb code (charCodeAt suffix (b_extIdx st1)) then
        let extIdx' := (b_extIdx st1 - 1)%Z in
        if (extIdx' =? -1)%Z
        then inr (BState (b_start st1) i (b_matchedSlash st1) extIdx'
                    (b_firstNonSlashEnd st1))
        else inr (BState (b_start st1) (b_end st1) (b_matchedSlash st1)
                    extIdx' (b_firstNonSlashEnd st1))
      else inr (BState (b_start st1) (b_firstNonSlashEnd st1)
                  (b_matchedSlash st1) (-1) (b_firstNonSlashEnd st1))
    else inr st1.

Definition basename (p suffix : jsstring) : jsstring :=
  if bool_decide (suffix ≠ []) && bool_decide (length suffix ≤ length p)
  then
    if str_eqb suffix p then []
    else
      let st := for_down (basename_suffix_body p suffix) (length p)
                  (BState 0 (-1) true (Z.of_nat (length suffix) - 1) (-1)) in
      let end_ :=
        if (b_start st =? b_end st)%Z then b_firstNonSlashEnd st
        else if (b_end st =? -1)%Z then Z.of_nat (length p)
        else b_end st in
      zslice p (b_start st) end_
  else basename1 p.

(** [extname]. *)
Record estate := EState {
  e_startDot : Z; e_startPart : Z; e_end : Z;
  e_matchedSlash : bool; e_preDotState : Z }.

Definition extname_body (p : jsstring) (i : Z) (st : estate)
  : estate + estate :=
  let code := charCodeAt p i in
  if N.eqb code CHAR_FORWARD_SLASH then
    (if negb (e_matchedSlash st)
     then inl (EState (e_startDot st) (i + 1) (e_end st)
                 (e_matchedSlash st) (e_preDotState st))
     else inr st)
  else
    let st1 :=
      if (e_end st =? -1)%Z
      then EState (e_startDot st) (e_startPart st) (i + 1) false
             (e_preDotState st)
      else st in
    if N.eqb code CHAR_DOT then
      if (e_startDot st1 =? -1)%Z
      then inr (EState i (e_startPart st1) (e_end st1) (e_matchedSlash st1)
                  (e_preDotState st1))
      else if negb (e_preDotState st1 =? 1)%Z
      then inr (EState (e_startDot st1) (e_startPart st1) (e_end st1)
                  (e_matchedSlash st1) 1)
      else inr st1
    else if negb (e_startDot st1 =? -1)%Z
    then inr (EState (e_startDot st1) (e_startPart st1) (e_end st1)
                (e_matchedSlash st1) (-1))
    else inr st1.

Definition extname (p : jsstring) : jsstring :=
  let st := for_down (extname_body p) (length p)
              (EState (-1) 0 (-1) true 0) in
  if (e_startDot st =? -1)%Z || (e_end st =? -1)%Z
     || (e_preDotState st =? 0)%Z
     || ((e_preDotState st =? 1)%Z
         && (e_startDot st =? e_end st - 1)%Z
         && (e_startDot st =? e_startPart st + 1)%Z)
  then []
  else zslice p (e_startDot st) (e_end st).

End path.

(** ** helpers.js *)

Definition is_sep (c : N) : bool :=
  N.eqb c CHAR_FORWARD_SLASH || N.eqb c CHAR_BACKWARD_SLASH.

(** [replace(/^(\.\.[\/\\])+/, '')] *)
Fixpoint strip_leading_dotdots (s : jsstring) : jsstring :=
  match s with
  | a :: b :: c :: t =>
      if N.eqb a CHAR_DOT && N.eqb b CHAR_DOT && is_sep c
      then strip_leading_dotdots t else s
  | _ => s
  end.

(** [replace(/[\/\\]\.\.[\/\\]/g, '/')]: matches are found left to right
    and do not overlap. *)
Fixpoint collapse_dotdots (s : jsstring) : jsstring :=
  match s with
  | [] => []
  | a :: t =>
      match t with
      | b :: c :: d :: t' =>
          if is_sep a && N.eqb b CHAR_DOT && N.eqb c CHAR_DOT && is_sep d
          then CHAR_FORWARD_SLASH :: collapse_dotdots t'
          else a :: collapse_dotdots t
      | _ => a :: collapse_dotdots t
      end
  end.

(** [replace(/^[\/\\]+/, '')] *)
Fixpoint strip_leading_seps (s : jsstring) : jsstring :=
  match s with
  | c :: t => if is_sep c then strip_leading_seps t else s
  | [] => []
  end.

Definition sanitizePath (userPath : jsstring) : jsstring :=
  match userPath with
  | [] => []
  | _ =>
      let sanitized := path.normalize userPath in
      let sanitized := strip_leading_dotdots sanitized in
      let sanitized := collapse_dotdots sanitized in
      strip_leading_seps sanitized
  end.

(** The class of [invalidChars]: the control characters 0x00-0x1f and
    the seven characters less-than, greater-than, colon, double quote,
    vertical bar, question mark and asterisk. *)
Definition invalidChar (c : N) : bool :=
  ((c <? 32) || (c =? 60) || (c =? 62) || (c =? 58) || (c =? 34)
   || (c =? 124) || (c =? 63) || (c =? 42))%N.

(** [/^(con|prn|aux|nul|com[1-9]|lpt[1-9])$/i] *)
Definition reservedNames (s : jsstring) : bool :=
  let l := toLowerCase s in
  bool_decide (l ∈ [js "con"; js "prn"; js "aux"; js "nul"])
  || match l with
     | [a; b; c; d] =>
         (str_eqb [a; b; c] (js "com") || str_eqb [a; b; c] (js "lpt"))
         && (49 <=? d)%N && (d <=? 57)%N
     | _ => false
     end.

(** [/^\.+$/] *)
Definition onlyDots (s : jsstring) : bool :=
  bool_decide (s ≠ []) && forallb (N.eqb CHAR_DOT) s.

Definition isValidFileName (filename : jsstring) : bool :=
  match filename with
  | [] => false
  | _ =>
      if bool_decide (length filename = 0) || bool_decide (255 < length filename)
      then false
      else if existsb invalidChar filename then false
      else
        let nameWithoutExt := path.basename filename (path.extname filename) in
        if reservedNames nameWithoutExt then false
        else if onlyDots filename then false
        else true
  end.

(** *** JavaScript objects used as maps

    [obj[key] = value] on an object created by [{}] stores an own property,
    except for the key [__proto__], which reaches the prototype setter and
    stores nothing when the value is a string. *)
Definition obj_set (key value : jsstring) (o : gmap jsstring jsstring)
  : gmap jsstring jsstring :=
  if str_eqb key (js "__proto__") then o else <[key := value]> o.

(** [parseHeaders] *)
Definition parseHeaders_line (headers : gmap jsstring jsstring)
    (line : jsstring) : gmap jsstring jsstring :=
  match indexOf line [CHAR_COLON] 0 with
  | None => headers
  | Some colonIndex =>
      let key := toLowerCase (trim (slice line 0 colonIndex)) in
      let value := trim (drop (colonIndex + 1) line) in
      obj_set key value headers
  end.

Definition parseHeaders (headersText : jsstring) : gmap jsstring jsstring :=
  fold_left parseHeaders_line
    (split_str [CHAR_CR; CHAR_LF] headersText) ∅.

(** The regular expressions [name=Q([^Q]+)Q] and [filename=Q([^Q]+)Q],
    where Q is the double quote: the first position where the key, an
    equals sign and a double quote are followed by one or more characters
    other than a double quote and then a double quote; the result is the
    captured text. *)
Fixpoint until_quote (s : jsstring) : jsstring :=
  match s with
  | c :: s' => if N.eqb c CHAR_QUOTE then [] else c :: until_quote s'
  | [] => []
  end.

Definition quoted_value (s : jsstring) : option jsstring :=
  let v := until_quote s in
  match v, drop (length v) s with
  | _ :: _, _ :: _ => Some v
  | _, _ => None
  end.

Fixpoint match_attr (key s : jsstring) : option jsstring :=
  let here :=
    if startsWith s (key ++ [61%N; CHAR_QUOTE])
    then quoted_value (drop (length key + 2) s) else None in
  match here with
  | Some v => Some v
  | None => match s with
            | [] => None
            | _ :: s' => match_attr key s'
            end
  end.

Module UploadedPart.
Record t := mk {
  fieldName : jsstring;
  filename : jsstring;
  contentType : jsstring;
  content : buffer;
  size : nat }.
End UploadedPart.

Record Multipart := mkMultipart {
  fields : gmap jsstring jsstring;
  files : list UploadedPart.t }.

Definition CRLF : buffer := [CHAR_CR; CHAR_LF].

Section multipart.

(** The runtime's UTF-8 codec: [Buffer.from(string)] and
    [buffer.toString('utf8')]. *)
Variable utf8_encode : jsstring → buffer.
Variable utf8_decode : buffer → jsstring.

(** [Buffer.from('--' + boundary)] *)
Definition boundaryBuffer (boundary : jsstring) : buffer :=
  [CHAR_DASH; CHAR_DASH] ++ utf8_encode boundary.

(** The part between two delimiters: [None] stands for the three
    [continue] statements, which leave [result] as it is. *)
Definition parsePart (partBuffer : buffer) (result : Multipart)
  : option Multipart :=
  match indexOf partBuffer (CRLF ++ CRLF) 0 with
  | None => None
  | Some headerEndIndex =>
      let headersBuffer := slice partBuffer 0 headerEndIndex in
      let contentBuffer :=
        slice partBuffer (headerEndIndex + 4) (length partBuffer - 2) in
      let headersText := utf8_decode headersBuffer in
      let headers := parseHeaders headersText in
      match headers !! js "content-disposition" with
      | None | Some [] => None
      | Some disposition =>
          match match_attr (js "name") disposition with
          | None => None
          | Some fieldName =>
              match match_attr (js "filename") disposition with
              | Some filename =>
                  let contentType :=
                    match headers !! js "content-type" with
                    | None | Some [] => js "application/octet-stream"
                    | Some ct => ct
                    end in
                  Some (mkMultipart (fields result)
                          (files result ++
                             [UploadedPart.mk fieldName filename contentType
                                contentBuffer (length contentBuffer)]))
              | None =>
                  Some (mkMultipart
                          (obj_set fieldName (utf8_decode contentBuffer)
                             (fields result))
                          (files result))
              end
          end
      end
  end.

(** The [while (position < buffer.length)] loop; [fuel] bounds the number
    of iterations and [None] means it ran out. *)
Fixpoint parseMultipart_loop (fuel : nat) (buf delim : buffer)
    (position : nat) (result : Multipart) : option Multipart :=
  match fuel with
  | O => None
  | S fuel' =>
      if negb (position <? length buf) then Some result
      else
        match indexOf buf delim position with
        | None => Some result
        | Some boundaryIndex =>
            let position := boundaryIndex + length delim in
            match indexOf buf CRLF position with
            | None => Some result
            | Some newlineIndex =>
                let position := newlineIndex + 2 in
                match indexOf buf delim position with
                | None => Some result
                | Some nextBoundaryIndex =>
                    let partBuffer := slice buf position nextBoundaryIndex in
                    match parsePart partBuffer result with
                    | None =>
                        parseMultipart_loop fuel' buf delim position result
                    | Some result' =>
                        parseMultipart_loop fuel' buf delim
                          nextBoundaryIndex result'
                    end
                end
            end
        end
  end.

Definition parseMultipart_fuel (fuel : nat) (buf : buffer)
    (boundary : jsstring) : option Multipart :=
  parseMultipart_loop fuel buf (boundaryBuffer boundary) 0
    (mkMultipart ∅ []).

(** Every iteration moves [position] forward, so one more iteration than
    the buffer has bytes is always enough (theorem
    [parseMultipart_terminates]). *)
Definition parseMultipart (buf : buffer) (boundary : jsstring)
  : option Multipart :=
  parseMultipart_fuel (S (length buf)) buf boundary.

End multipart.

(** [getMimeType] *)
Definition mimeTypes : list (string * string) :=
  [ (".txt", "text/plain"); (".html", "text/html"); (".css", "text/css");
    (".js", "application/javascript"); (".json", "application/json");
    (".xml", "application/xml"); (".csv", "text/csv");
    (".jpg", "image/jpeg"); (".jpeg", "image/jpeg"); (".png", "image/png");
    (".gif", "image/gif"); (".bmp", "image/bmp"); (".webp", "image/webp");
    (".svg", "image/svg+xml"); (".ico", "image/x-icon");
    (".pdf", "application/pdf"); (".doc", "application/msword");
    (".docx",
     "application/vnd.openxmlformats-officedocument.wordprocessingml.document");
    (".xls", "application/vnd.ms-excel");
    (".xlsx",
     "application/vnd.openxmlformats-officedocument.spreadsheetml.sheet");
    (".ppt", "application/vnd.ms-powerpoint");
    (".pptx",
     "application/vnd.openxmlformats-officedocument.presentationml.presentation");
    (".zip", "application/zip"); (".rar", "application/x-rar-compressed");
    (".7z", "application/x-7z-compressed"); (".tar", "application/x-tar");
    (".gz", "application/gzip");
    (".mp3", "audio/mpeg"); (".wav", "audio/wav"); (".ogg", "audio/ogg");
    (".mp4", "video/mp4"); (".avi", "video/x-msvideo");
    (".mov", "video/quicktime"); (".wmv", "video/x-ms-wmv");
    (".ttf", "font/ttf"); (".woff", "font/woff"); (".woff2", "font/woff2") ].

Definition getMimeType (filename : jsstring) : jsstring :=
  let ext := toLowerCase (path.extname filename) in
  match list_find (λ kv, js kv.1 = ext) mimeTypes with
  | Some (_, (_, mime)) => js mime
  | None => js "application/octet-stream"
  end.

Definition CHAR_SEMICOLON : N := 59.
Definition CHAR_APOSTROPHE : N := 39.
Definition CHAR_AMPERSAND : N := 38.
Definition CHAR_LESS_THAN : N := 60.
Definition CHAR_GREATER_THAN : N := 62.

(** [isImage] *)
Definition imageExtensions : list string :=
  [".jpg"; ".jpeg"; ".png"; ".gif"; ".bmp"; ".webp"; ".svg"].

Definition isImage (filename : jsstring) : bool :=
  let ext := toLowerCase (path.extname filename) in
  bool_decide (ext ∈ map js imageExtensions).

(** [escapeHtml]: every character of the class is replaced by its entry
    in [map]. *)
Definition escapeHtml_class (c : N) : bool :=
  ((c =? 38) || (c =? 60) || (c =? 62) || (c =? 34) || (c =? 39))%N.

Definition escapeHtml_map : list (N * string) :=
  [ (CHAR_AMPERSAND, "&amp;"); (CHAR_LESS_THAN, "&lt;");
    (CHAR_GREATER_THAN, "&gt;"); (CHAR_QUOTE, "&quot;");
    (CHAR_APOSTROPHE, "&#039;") ].

Definition escapeHtml_char (c : N) : jsstring :=
  if escapeHtml_class c then
    match list_find (λ kv, kv.1 = c) escapeHtml_map with
    | Some (_, (_, entity)) => js entity
    | None => js "undefined"
    end
  else [c].

Definition escapeHtml (text : jsstring) : jsstring :=
  concat (map escapeHtml_char text).

(** [String.prototype.endsWith] *)
Definition endsWith (s suffix : jsstring) : bool :=
  startsWith (reverse s) (reverse suffix).

(** The regular expression [boundary=([^;]+)]: the first position where
    the text [boundary=] is followed by one or more characters other than
    a semicolon; the capture is the longest run of such characters. *)
Fixpoint until_semicolon (s : jsstring) : jsstring :=
  match s with
  | c :: s' => if N.eqb c CHAR_SEMICOLON then [] else c :: until_semicolon s'
  | [] => []
  end.

Fixpoint match_boundary (s : jsstring) : option jsstring :=
  let here :=
    if startsWith s (js "boundary=")
    then match until_semicolon (drop 9 s) with
         | [] => None
         | v => Some v
         end
    else None in
  match here with
  | Some v => Some v
  | None => match s with
            | [] => None
            | _ :: s' => match_boundary s'
            end
  end.

(** [extractBoundary]; [None] is the code's [null]. *)
Definition extractBoundary (contentType : jsstring) : option jsstring :=
  match match_boundary contentType with
  | None => None
  | Some m =>
      let boundary := trim m in
      if startsWith boundary [CHAR_QUOTE] && endsWith boundary [CHAR_QUOTE]
      then Some (slice boundary 1 (length boundary - 1))
      else Some boundary
  end.

(** ** The host file system

    A directory is the list of its entries in the order [readdir] reports
    them.  [Dangling] is an entry [readdir] reports and [stat] fails on (a
    symbolic link whose target is missing); it is what the [catch] of the
    listing loop is for.  Paths are split at [/]; the service only passes
    paths produced by [path.join] and [path.normalize] from an absolute
    root, which hold no empty, [.] or [..] segment.

    A name is stored as its UTF-8 bytes and can have [NAME_MAX] of them at
    most: no operation gives a directory a longer name to hold, and
    looking up a longer name that is not there fails with [ENAMETOOLONG],
    where a name that could be there fails with [ENOENT].  The limit on
    the length of a whole path ([PATH_MAX]) is not modelled: every path is
    taken to be shorter. *)

Inductive node :=
| File (content : buffer) (mtime : Z)
| Dir (entries : list (jsstring * node)) (dsize : nat) (mtime : Z)
| Dangling.

Inductive errno :=
| ENOENT | ENOTDIR | EISDIR | EEXIST | EINVAL | ENOTEMPTY | EBUSY
| ENAMETOOLONG.

Inductive kind := file | directory.

#[global] Instance kind_eq_dec : EqDecision kind.
Proof. solve_decision. Defined.

Record Stats := mkStats { st_kind : kind; st_size : nat; st_mtime : Z }.

Definition isFile (s : Stats) : bool :=
  match st_kind s with file => true | directory => false end.
Definition isDirectory (s : Stats) : bool :=
  match st_kind s with directory => true | file => false end.

Fixpoint alookup (k : jsstring) (es : list (jsstring * node)) : option node :=
  match es with
  | [] => None
  | (k', v) :: es' => if str_eqb k' k then Some v else alookup k es'
  end.

Definition aremove (k : jsstring) (es : list (jsstring * node))
  : list (jsstring * node) :=
  filter (λ e, e.1 ≠ k) es.

(** Replace the entry in place when the name is taken, add it at the end
    otherwise. *)
Fixpoint aput (k : jsstring) (v : node) (es : list (jsstring * node))
  : list (jsstring * node) :=
  match es with
  | [] => [(k, v)]
  | (k', v') :: es' =>
      if str_eqb k' k then (k, v) :: es' else (k', v') :: aput k v es'
  end.

Definition aset (k : jsstring) (o : option node) (es : list (jsstring * node))
  : list (jsstring * node) :=
  match o with Some v => aput k v es | None => aremove k es end.

Definition fs_segments (p : jsstring) : list jsstring :=
  filter (λ seg, seg ≠ []) (split_on CHAR_FORWARD_SLASH p).

(** The number of bytes of the UTF-8 encoding of a string: one to three
    for a code unit, four for a surrogate pair. *)
Definition high_surrogate (c : N) : bool :=
  (0xD800 <=? c)%N && (c <? 0xDC00)%N.
Definition low_surrogate (c : N) : bool :=
  (0xDC00 <=? c)%N && (c <? 0xE000)%N.

Fixpoint utf8_length (s : jsstring) : nat :=
  match s with
  | [] => 0
  | c :: s' =>
      if (c <? 0x80)%N then S (utf8_length s')
      else if (c <? 0x800)%N then 2 + utf8_length s'
      else
        match s' with
        | d :: s'' =>
            if high_surrogate c && low_surrogate d then 4 + utf8_length s''
            else 3 + utf8_length s'
        | [] => 3
        end
  end.

Definition NAME_MAX : nat := 255.

Definition name_too_long (seg : jsstring) : bool :=
  bool_decide (NAME_MAX < utf8_length seg).

(** What the look-up of a name that the directory does not hold fails
    with. *)
Definition absent (seg : jsstring) : errno :=
  if name_too_long seg then ENAMETOOLONG else ENOENT.

Fixpoint walk (n : node) (segs : list jsstring) : errno + node :=
  match segs with
  | [] => inr n
  | seg :: segs' =>
      match n with
      | Dir es _ _ =>
          match alookup seg es with
          | Some c => walk c segs'
          | None => inl (absent seg)
          end
      | File _ _ => inl ENOTDIR
      | Dangling => inl ENOENT
      end
  end.

(** A change [f] of the entry under the name [seg]: a name that is too
    long for an entry is refused before [f] sees anything. *)
Definition named (seg : jsstring) (f : option node → errno + option node)
    (o : option node) : errno + option node :=
  match o with
  | None => if name_too_long seg then inl ENAMETOOLONG else f None
  | Some _ => f o
  end.

(** Change the entry named by [segs] in its parent directory: [f] sees the
    present entry and answers with the new one ([None]: no entry). *)
Fixpoint update (segs : list jsstring) (f : option node → errno + option node)
    (n : node) : errno + node :=
  match segs with
  | [] => inl EBUSY
  | seg :: segs' =>
      match n with
      | Dir es sz t =>
          match segs' with
          | [] =>
              match named seg f (alookup seg es) with
              | inr o => inr (Dir (aset seg o es) sz t)
              | inl e => inl e
              end
          | _ :: _ =>
              match alookup seg es with
              | Some c =>
                  match update segs' f c with
                  | inr c' => inr (Dir (aput seg c' es) sz t)
                  | inl e => inl e
                  end
              | None => inl (absent seg)
              end
          end
      | File _ _ => inl ENOTDIR
      | Dangling => inl ENOENT
      end
  end.

(** The entry a path names, as [lstat] sees it; a trailing separator asks
    for a directory. *)
Definition fs_lookup (fs : node) (p : jsstring) : errno + node :=
  match walk fs (fs_segments p) with
  | inr (File c t) =>
      if path.trailingSeparator p then inl ENOTDIR else inr (File c t)
  | r => r
  end.

Definition fs_stat (fs : node) (p : jsstring) : errno + Stats :=
  match fs_lookup fs p with
  | inr (File c t) => inr (mkStats file (length c) t)
  | inr (Dir _ sz t) => inr (mkStats directory sz t)
  | inr Dangling => inl ENOENT
  | inl e => inl e
  end.

(** [fs.access(p)] with the default mode and [fs.existsSync(p)]. *)
Definition fs_existsSync (fs : node) (p : jsstring) : bool :=
  match fs_stat fs p with inr _ => true | inl _ => false end.

Definition fs_readdir (fs : node) (p : jsstring) : errno + list jsstring :=
  match fs_lookup fs p with
  | inr (Dir es _ _) => inr (es.*1)
  | inr (File _ _) => inl ENOTDIR
  | inr Dangling => inl ENOENT
  | inl e => inl e
  end.

Definition fs_readFile (fs : node) (p : jsstring) : errno + buffer :=
  match fs_lookup fs p with
  | inr (File c _) => inr c
  | inr (Dir _ _ _) => inl EISDIR
  | inr Dangling => inl ENOENT
  | inl e => inl e
  end.

(** [fs.writeFile(p, data)]; [now] is the time on the clock of the file
    system, which it stamps on the file.  A new file under a name that is
    too long is refused by [update]. *)
Definition fs_writeFile (fs : node) (p : jsstring) (data : buffer) (now : Z)
  : errno + node :=
  if path.trailingSeparator p then inl EISDIR
  else update (fs_segments p)
         (λ o, match o with
               | None | Some (File _ _) => inr (Some (File data now))
               | Some (Dir _ _ _) => inl EISDIR
               | Some Dangling => inl ENOENT
               end) fs.

(** [fs.mkdir(p)] at time [now]. *)
Definition fs_mkdir (fs : node) (p : jsstring) (now : Z) : errno + node :=
  update (fs_segments p)
    (λ o, match o with
          | None => inr (Some (Dir [] 4096 now))
          | Some _ => inl EEXIST
          end) fs.

Definition fs_unlink (fs : node) (p : jsstring) : errno + node :=
  if path.trailingSeparator p then inl ENOTDIR
  else update (fs_segments p)
         (λ o, match o with
               | None => inl ENOENT
               | Some (Dir _ _ _) => inl EISDIR
               | Some _ => inr None
               end) fs.

(** [fs.rm(p, { recursive: true, force: true })] *)
Definition fs_rm (fs : node) (p : jsstring) : errno + node :=
  match update (fs_segments p) (λ _, inr None) fs with
  | inl ENOENT => inr fs
  | r => r
  end.

(** [fs.rename(oldPath, newPath)] *)
Definition rename_onto (src : node) (target : option node)
  : errno + option node :=
  match target, src with
  | None, _ => inr (Some src)
  | Some (Dir [] _ _), Dir _ _ _ => inr (Some src)
  | Some (Dir (_ :: _) _ _), Dir _ _ _ => inl ENOTEMPTY
  | Some (Dir _ _ _), _ => inl EISDIR
  | Some _, Dir _ _ _ => inl ENOTDIR
  | Some _, _ => inr (Some src)
  end.

Definition fs_rename (fs : node) (oldPath newPath : jsstring) : errno + node :=
  let old := fs_segments oldPath in
  let new := fs_segments newPath in
  match fs_lookup fs oldPath with
  | inl e => inl e
  | inr src =>
      if bool_decide (old = new) then inr fs
      else if bool_decide (old `prefix_of` new) then
        match src with Dir _ _ _ => inl EINVAL | _ => inl ENOTDIR end
      else if path.trailingSeparator newPath
              && match src with Dir _ _ _ => false | _ => true end
      then inl ENOTDIR
      else
        match update new (rename_onto src) fs with
        | inl e => inl e
        | inr fs' => update old (λ _, inr None) fs'
        end
  end.

(** ** fileService.js *)

(** The errors the service throws, by what they report; [IOError] is an
    exception of [fs] that the service lets through. *)
Inductive error :=
| AccessDenied | NotFound | InvalidName | Conflict | IOError (e : errno).

Definition io {A} (r : errno + A) : error + A :=
  match r with inl e => inl (IOError e) | inr a => inr a end.

(** [let? x := e in k]: run [e]; an error thrown there leaves the
    function. *)
Notation "'let?' x := e1 'in' e2" :=
  (match e1 with inl err => inl err | inr x => e2 end)
  (at level 10, x name, e1 at level 100, e2 at level 200).

Module Entry.
Record t := mk {
  name : jsstring;
  path : jsstring;
  type : kind;
  size : nat;
  modified : Z;
  extension : option jsstring }.
End Entry.

(** What [listFiles] returns: the entry itself and, for a directory, its
    children (which carry no children of their own). *)
Record Listing := mkListing {
  entry : Entry.t;
  children : option (list Entry.t) }.

Record Renamed := mkRenamed {
  rn_message : jsstring; oldPath : jsstring; newPath : jsstring;
  newName : jsstring }.

Record Deleted := mkDeleted {
  del_message : jsstring; del_path : jsstring; del_type : kind }.

Record Download := mkDownload {
  dl_content : buffer; fileName : jsstring; mimeType : jsstring }.

Record Uploaded := mkUploaded {
  up_message : jsstring; up_filename : jsstring; up_path : jsstring;
  up_size : nat }.

Record Created := mkCreated {
  cr_message : jsstring; cr_path : jsstring; cr_name : jsstring }.

(** [Array.prototype.sort(compareFn)]: a stable sort. For a consistent
    comparator its result is the one stable sorted arrangement, computed
    here by insertion from the right. *)
Section sort.
Context {A : Type} (compareFn : A → A → Z).

Fixpoint sort_insert (x : A) (l : list A) : list A :=
  match l with
  | [] => [x]
  | y :: l' =>
      if (0 <? compareFn x y)%Z then y :: sort_insert x l' else x :: l
  end.

Definition Array_sort (l : list A) : list A := foldr sort_insert [] l.
End sort.

Section service.

(** The directory of the module, an absolute path. *)
Variable __dirname : jsstring.
(** [String.prototype.localeCompare] of the host. *)
Variable localeCompare : jsstring → jsstring → Z.

Definition ROOT_DIR : jsstring := path.join [__dirname; js "files"].

Definition resolvePath (relativePath : jsstring) : error + jsstring :=
  let sanitized := sanitizePath relativePath in
  let absolute := path.join [ROOT_DIR; sanitized] in
  let normalized := path.normalize absolute in
  if negb (startsWith normalized ROOT_DIR) then inl AccessDenied
  else inr normalized.

(** The comparator handed to [children.sort]. *)
Definition compareEntries (a b : Entry.t) : Z :=
  if bool_decide (Entry.type a = Entry.type b)
  then localeCompare (Entry.name a) (Entry.name b)
  else match Entry.type a with directory => (-1)%Z | file => 1%Z end.

(** The body of the listing loop for one name: the child pushed, or
    [None] where [stat] throws and the loop goes on. *)
Definition childEntry (fs : node) (relativePath absolutePath : jsstring)
    (entry : jsstring) : option Entry.t :=
  let entryRelPath := path.join [relativePath; entry] in
  let entryAbsPath := path.join [absolutePath; entry] in
  match fs_stat fs entryAbsPath with
  | inr entryStats =>
      if isDirectory entryStats
      then Some (Entry.mk entry entryRelPath directory 0
                   (st_mtime entryStats) None)
      else Some (Entry.mk entry entryRelPath file (st_size entryStats)
                   (st_mtime entryStats) (Some (path.extname entry)))
  | inl _ => None
  end.

Definition listFiles (fs : node) (relativePath : jsstring)
  : error + Listing :=
  let? absolutePath := resolvePath relativePath in
  if negb (fs_existsSync fs absolutePath) then inl NotFound
  else
    let? stats := io (fs_stat fs absolutePath) in
    let name :=
      match path.basename absolutePath [] with
      | [] => js "files"
      | b => b
      end in
    let relPath :=
      match relativePath with [] => js "/" | _ => relativePath end in
    if isFile stats
    then inr (mkListing
                (Entry.mk name relPath file (st_size stats)
                   (st_mtime stats) (Some (path.extname name)))
                None)
    else
      let? entries := io (fs_readdir fs absolutePath) in
      let children :=
        omap (childEntry fs relativePath absolutePath) entries in
      let children := Array_sort compareEntries children in
      inr (mkListing
             (Entry.mk name relPath directory (st_size stats)
                (st_mtime stats) None)
             (Some children)).

Definition renameFile (fs : node) (oldRelativePath newName : jsstring)
  : error + (node * Renamed) :=
  let? oldAbsolutePath := resolvePath oldRelativePath in
  if negb (fs_existsSync fs oldAbsolutePath) then inl NotFound
  else if negb (isValidFileName newName) then inl InvalidName
  else
    let directory := path.dirname oldAbsolutePath in
    let newAbsolutePath := path.join [directory; newName] in
    if fs_existsSync fs newAbsolutePath then inl Conflict
    else
      let? fs' := io (fs_rename fs oldAbsolutePath newAbsolutePath) in
      let oldDir := path.dirname oldRelativePath in
      let newRelativePath := path.join [oldDir; newName] in
      inr (fs', mkRenamed (js "Renombrado exitosamente") oldRelativePath
                  newRelativePath newName).

Definition deleteFile (fs : node) (relativePath : jsstring)
  : error + (node * Deleted) :=
  let? absolutePath := resolvePath relativePath in
  if negb (fs_existsSync fs absolutePath) then inl NotFound
  else
    let? stats := io (fs_stat fs absolutePath) in
    let? fs' := io (if isDirectory stats then fs_rm fs absolutePath
              else fs_unlink fs absolutePath) in
    inr (fs', mkDeleted (js "Eliminado exitosamente") relativePath
                (if isDirectory stats then directory else file)).

Definition downloadFile (fs : node) (relativePath : jsstring)
  : error + Download :=
  let? absolutePath := resolvePath relativePath in
  match fs_stat fs absolutePath with
  | inl _ => inl NotFound
  | inr stats =>
      if negb (isFile stats) then inl NotFound
      else
        let? content := io (fs_readFile fs absolutePath) in
        let fileName := path.basename absolutePath [] in
        let mimeType := getMimeType fileName in
        inr (mkDownload content fileName mimeType)
  end.

(** [now] is what [Date.now()] returns, which the code asks for only when
    the name is taken; [mtime] is the time the file system stamps on the
    file it writes, read from its own clock. *)
Definition uploadFile (fs : node) (now : N) (mtime : Z)
    (file : UploadedPart.t) (targetRelativePath : jsstring)
    : error + (node * Uploaded) :=
  if negb (isValidFileName (UploadedPart.filename file)) then inl InvalidName
  else
    let? targetDir := resolvePath targetRelativePath in
    match fs_stat fs targetDir with
    | inl _ => inl NotFound
    | inr stats =>
        if negb (isDirectory stats) then inl NotFound
        else
          let filePath := path.join [targetDir; UploadedPart.filename file] in
          if fs_existsSync fs filePath then
            let ext := path.extname (UploadedPart.filename file) in
            let nameWithoutExt :=
              path.basename (UploadedPart.filename file) ext in
            let timestamp := now in
            let newFilename :=
              nameWithoutExt ++ [CHAR_UNDERSCORE] ++ js (pretty timestamp)
                ++ ext in
            let newFilePath := path.join [targetDir; newFilename] in
            let? fs' := io (fs_writeFile fs newFilePath
                        (UploadedPart.content file) mtime) in
            inr (fs', mkUploaded
                        (js "Archivo subido (renombrado para evitar duplicados)")
                        newFilename
                        (path.join [targetRelativePath; newFilename])
                        (length (UploadedPart.content file)))
          else
            let? fs' := io (fs_writeFile fs filePath
                        (UploadedPart.content file) mtime) in
            inr (fs', mkUploaded (js "Archivo subido exitosamente")
                        (UploadedPart.filename file)
                        (path.join [targetRelativePath;
                                    UploadedPart.filename file])
                        (length (UploadedPart.content file)))
    end.

(** [now]: the time the file system stamps on the new directory. *)
Definition createFolder (fs : node) (now : N)
    (relativePath folderName : jsstring) : error + (node * Created) :=
  let? parentDir := resolvePath relativePath in
  let newFolderPath := path.join [parentDir; folderName] in
  if negb (isValidFileName folderName) then inl InvalidName
  else if fs_existsSync fs newFolderPath then inl Conflict
  else
    let? fs' := io (fs_mkdir fs newFolderPath (Z.of_N now)) in
    inr (fs', mkCreated (js "Carpeta creada exitosamente")
                (path.join [relativePath; folderName]) folderName).

End service.

(** ** A model of [localeCompare] for English text

    The comparison of the root (and English) collation on ASCII names:
    strings are compared by the primary weights of their characters,
    where a letter weighs the same in both cases and the order is
    punctuation, digits, letters; equal primary weights are then told
    apart by case, lower case first.  Control characters carry no weight.
    Characters outside ASCII are placed after the letters by code unit,
    which is a simplification. *)

Definition collation_symbols : jsstring :=
  js "_-,;:!?.'" ++ [CHAR_QUOTE] ++ js "()[]{}@*/" ++ [CHAR_BACKWARD_SLASH]
  ++ js "&#%`^+<=>|~$0123456789".

Fixpoint index_in (c : N) (l : list N) (i : N) : option N :=
  match l with
  | [] => None
  | x :: l' => if N.eqb x c then Some i else index_in c l' (N.succ i)
  end.

Definition primary_weight (c : N) : option N :=
  let l := ascii_lower c in
  if ((97 <=? l) && (l <=? 122))%N then Some (200 + (l - 97))%N
  else if (128 <=? c)%N then Some (1000 + c)%N
  else if ((9 <=? c) && (c <=? 13))%N then Some (c - 8)%N
  else if (c =? 32)%N then Some 6%N
  else index_in c collation_symbols 10.

Definition tertiary_weight (c : N) : option N :=
  match primary_weight c with
  | None => None
  | Some _ => Some (if ((65 <=? c) && (c <=? 90))%N then 1%N else 0%N)
  end.

Fixpoint lex_compare (a b : list N) : comparison :=
  match a, b with
  | [], [] => Eq
  | [], _ :: _ => Lt
  | _ :: _, [] => Gt
  | x :: a', y :: b' =>
      match N.compare x y with
      | Eq => lex_compare a' b'
      | c => c
      end
  end.

Definition collate (a b : jsstring) : comparison :=
  match lex_compare (omap primary_weight a) (omap primary_weight b) with
  | Eq => lex_compare (omap tertiary_weight a) (omap tertiary_weight b)
  | c => c
  end.

Definition localeCompare_en (a b : jsstring) : Z :=
  match collate a b with Lt => (-1)%Z | Eq => 0%Z | Gt => 1%Z end.

(** Code-unit (ordinal) order, for comparison with the above. *)
Definition ordinal_le (a b : jsstring) : bool :=
  match lex_compare a b with Gt => false | _ => true end.

(** ** Vocabulary of the properties *)

(** The reserved device names as the specification lists them. *)
Definition device_names : list jsstring :=
  map js ["con"; "prn"; "aux"; "nul";
          "com1"; "com2"; "com3"; "com4"; "com5";
          "com6"; "com7"; "com8"; "com9";
          "lpt1"; "lpt2"; "lpt3"; "lpt4"; "lpt5";
          "lpt6"; "lpt7"; "lpt8"; "lpt9"].

(** The characters the specification lists as rejected. *)
Definition forbidden_char (c : N) : Prop :=
  (c < 32)%N ∨ c ∈ [60; 62; 58; 34; 124; 63; 42]%N.

(** A location is at or below [root] when it is [root] itself or lies
    under [root] followed by a separator. *)
Definition within (root p : jsstring) : bool :=
  str_eqb p root || startsWith p (root ++ [CHAR_FORWARD_SLASH]).

(** A relative path that leaves the root: a segment of backslashes and
    dots, which [path.normalize] keeps as an ordinary name, then a sibling
    of the root whose name starts like the root's. *)
Definition escaping_path : jsstring :=
  [CHAR_BACKWARD_SLASH] ++ js ".." ++ [CHAR_BACKWARD_SLASH]
  ++ js "../files_backup".

Definition plain_file (s : string) : node := File (js s) 0.

(** A host where a directory [files_backup] lies next to the root, as
    [createFolder] leaves it when asked for [../files_backup] in the
    root. *)
Definition host_with_sibling : node :=
  Dir [(js "srv",
        Dir [(js "app",
              Dir [(js "files", Dir [(js "a.txt", plain_file "a")] 4096 0);
                   (js "files_backup",
                    Dir [(js "secret", plain_file "s")] 4096 0)]
                4096 0)]
          4096 0)]
    4096 0.

(** [needle] occurs in [hay] at index [i]. *)
Definition occurs_at (hay needle : list N) (i : nat) : Prop :=
  take (length needle) (drop i hay) = needle.

(** A text field [path] with value [docs] behind its delimiter line; the
    boundary token is [XYZ]. *)
Definition quoted (s : string) : buffer := [CHAR_QUOTE] ++ js s ++ [CHAR_QUOTE].

Definition example_field_part : buffer :=
  js "--XYZ" ++ CRLF
  ++ js "Content-Disposition: form-data; name=" ++ quoted "path" ++ CRLF
  ++ CRLF ++ js "docs" ++ CRLF.

(** The order of a listing: a directory comes before a file, and two
    entries of the same kind are in the order [le] of their names. *)
Definition entry_before (le : jsstring → jsstring → Prop) (a b : Entry.t)
  : Prop :=
  match Entry.type a, Entry.type b with
  | directory, file => True
  | file, directory => False
  | _, _ => le (Entry.name a) (Entry.name b)
  end.

(** A host whose root directory holds the given entries. *)
Definition host_with_root (es : list (jsstring * node)) : node :=
  Dir [(js "srv",
        Dir [(js "app", Dir [(js "files", Dir es 4096 0)] 4096 0)] 4096 0)]
    4096 0.

(** The directory of the listing example: [b.txt], the subdirectory [A]
    and [a.txt], reported by [readdir] in that order. *)
Definition example_listing_host : node :=
  host_with_root
    [(js "b.txt", plain_file "b"); (js "A", Dir [] 4096 0);
     (js "a.txt", plain_file "a")].

(** Two files whose names differ in case. *)
Definition mixed_case_host : node :=
  host_with_root [(js "B.txt", plain_file "B"); (js "a.txt", plain_file "a")].

(** The name of a directory entry: not empty, without separator, and
    neither [.] nor [..]. *)
Definition plain_segment (seg : jsstring) : Prop :=
  seg ≠ [] ∧ (CHAR_FORWARD_SLASH ∉ seg) ∧ seg ≠ js "." ∧ seg ≠ js "..".

(** The absolute path made of the given segments. *)
Definition abs_path (segs : list jsstring) (trailing : bool) : jsstring :=
  CHAR_FORWARD_SLASH
  :: (join_with [CHAR_FORWARD_SLASH] segs
      ++ (if trailing then [CHAR_FORWARD_SLASH] else [])).

(** [stat] succeeds on files and directories and on nothing else. *)
Definition statable (o : option node) : bool :=
  match o with Some (File _ _) | Some (Dir _ _ _) => true | _ => false end.

(** The name [uploadFile] stores under when the name of the upload is
    taken. *)
Definition rewritten_name (filename : jsstring) (now : N) : jsstring :=
  path.basename filename (path.extname filename)
  ++ [CHAR_UNDERSCORE] ++ js (pretty now) ++ path.extname filename.






Definition upload_of (name : string) : UploadedPart.t :=
  UploadedPart.mk (js "files") (js name) (js "text/plain") (js "new") 3.




(** A segment that is a plain name without backslash. *)
Definition ordinary_segment (seg : jsstring) : Prop :=
  plain_segment seg ∧ CHAR_BACKWARD_SLASH ∉ seg.

(** The segments of the root directory. *)
Definition root_segments (dir : jsstring) : list jsstring :=
  fs_segments (ROOT_DIR dir).

(** The body of a [multipart/form-data] request: every part behind a
    delimiter line, then the closing delimiter. *)
Definition framed (delim : buffer) (parts : list buffer) : buffer :=
  foldr (λ p rest, delim ++ CRLF ++ p ++ rest) (delim ++ js "--" ++ CRLF) parts.

(** What the decoding loop does with one part; the [continue] statements
    leave the result as it is. *)
Definition decode_part (utf8_decode : buffer → jsstring) (r : Multipart)
    (p : buffer) : Multipart :=
  default r (parsePart utf8_decode p r).

(** The header value and the bytes of a part as a browser writes them: a
    file with its field name, file name and content type, and a text
    field. *)
Definition CHAR_EQUALS : N := 61.

Definition disposition_field (name : jsstring) : jsstring :=
  js "form-data; name=" ++ [CHAR_QUOTE] ++ name ++ [CHAR_QUOTE].

Definition disposition_file (name filename : jsstring) : jsstring :=
  disposition_field name
  ++ js "; filename=" ++ [CHAR_QUOTE] ++ filename ++ [CHAR_QUOTE].

Definition file_part (name filename contentType : jsstring) (content : buffer)
  : buffer :=
  js "Content-Disposition: " ++ disposition_file name filename ++ CRLF
  ++ js "Content-Type: " ++ contentType ++ CRLF
  ++ CRLF ++ content ++ CRLF.

Definition field_part (name : jsstring) (value : buffer) : buffer :=
  js "Content-Disposition: " ++ disposition_field name ++ CRLF
  ++ CRLF ++ value ++ CRLF.


(** Text a header can carry as it is: characters below 128 without line
    break; between double quotes, also without double quote. *)
Definition header_text (s : jsstring) : Prop :=
  Forall (λ c, (c < 128)%N ∧ c ≠ CHAR_CR ∧ c ≠ CHAR_LF) s.

Definition quotable (s : jsstring) : Prop :=
  s ≠ [] ∧ header_text s ∧ CHAR_QUOTE ∉ s.

(** The part a browser writes for an uploaded file. *)
Definition file_part_of (u : UploadedPart.t) : buffer :=
  file_part (UploadedPart.fieldName u) (UploadedPart.filename u)
    (UploadedPart.contentType u) (UploadedPart.content u).

(** An upload whose header values can be written as they are, and whose
    recorded size is the size of its content. *)
Definition well_formed_upload (u : UploadedPart.t) : Prop :=
  quotable (UploadedPart.fieldName u)
  ∧ (CHAR_EQUALS ∉ UploadedPart.fieldName u)
  ∧ quotable (UploadedPart.filename u)
  ∧ UploadedPart.contentType u ≠ []
  ∧ header_text (UploadedPart.contentType u)
  ∧ trim (UploadedPart.contentType u) = UploadedPart.contentType u
  ∧ UploadedPart.size u = length (UploadedPart.content u).

(** The delimiter does not start inside the part. *)
Definition delimiter_free (delim p : buffer) : Prop :=
  ∀ i, i < length p → ¬ occurs_at (p ++ delim) delim i.







(** ** router.js: the rate limiter

    [rateLimitMap] is a module-level [Map] from the remote address to a
    record [{ count, resetTime }]; nothing outside the module reaches it.
    The key is whatever [req.socket.remoteAddress] holds (a string, or
    [undefined]); a [Map] compares such keys by value, so the model is
    parametric in a key type with decidable equality.  [Date.now()] is an
    integer number of milliseconds of absolute value below 8.64e15, so
    [now + RATE_LIMIT_WINDOW] is exact in a double and is modelled in [Z].
    [record.count++] is exact below 2^53, where adding 1 to a double gives
    2^53 back. *)
Module router.

Record record := mkRecord { count : N; resetTime : Z }.

Definition RATE_LIMIT_WINDOW : Z := 60000.
Definition MAX_REQUESTS : N := 100.

(** [count++] on a JavaScript number. *)
Definition incr (count : N) : N :=
  if (count <? 2 ^ 53)%N then (count + 1)%N else count.

Section rate_limit.
Context {K : Type} `{Countable K}.

(** [checkRateLimit(ip)] at the instant [now = Date.now()]: the map after
    the call and the returned boolean. *)
Definition checkRateLimit (now : Z) (ip : K) (rateLimitMap : gmap K record)
    : gmap K record * bool :=
  match rateLimitMap !! ip with
  | None =>
      (<[ip := mkRecord 1 (now + RATE_LIMIT_WINDOW)]> rateLimitMap, true)
  | Some record =>
      if (resetTime record <? now)%Z then
        (<[ip := mkRecord 1 (now + RATE_LIMIT_WINDOW)]> rateLimitMap, true)
      else
        let count := incr (count record) in
        (<[ip := mkRecord count (resetTime record)]> rateLimitMap,
         negb (MAX_REQUESTS <? count)%N)
  end.

(** What the call does to the record of [ip], the only entry it reads or
    writes: the record it stores and the answer. *)
Definition decide_record (now : Z) (o : option record) : record * bool :=
  match o with
  | None => (mkRecord 1 (now + RATE_LIMIT_WINDOW), true)
  | Some record =>
      if (resetTime record <? now)%Z
      then (mkRecord 1 (now + RATE_LIMIT_WINDOW), true)
      else (mkRecord (incr (count record)) (resetTime record),
            negb (MAX_REQUESTS <? incr (count record))%N)
  end.

(** The body of the [setInterval] callback at the instant [now]: every
    entry with [now > record.resetTime] is deleted. *)
Definition cleanup (now : Z) (rateLimitMap : gmap K record) : gmap K record :=
  filter (λ entry, ¬ (resetTime entry.2 < now)%Z) rateLimitMap.

(** [getRateLimitStats().totalIPs]. *)
Definition totalIPs (rateLimitMap : gmap K record) : nat := size rateLimitMap.

(** What happens to the map over time: a request from an address (the
    router calls [checkRateLimit] once, first thing, for every request) or a
    run of the cleanup callback; each carries the value of [Date.now()] it
    sees.  JavaScript runs them one after the other. *)
Inductive event :=
  | Request (now : Z) (ip : K)
  | Cleanup (now : Z).

Definition time (e : event) : Z :=
  match e with Request now _ => now | Cleanup now => now end.

(** The requests of [ip] in a sequence of events starting from the map
    [rateLimitMap]: the instant of each one and the answer of
    [checkRateLimit], in order. *)
Fixpoint answers (ip : K) (es : list event) (rateLimitMap : gmap K record)
    : list (Z * bool) :=
  match es with
  | [] => []
  | Cleanup now :: es => answers ip es (cleanup now rateLimitMap)
  | Request now ip' :: es =>
      let r := checkRateLimit now ip' rateLimitMap in
      (if decide (ip' = ip) then [(now, r.2)] else []) ++ answers ip es r.1
  end.

(** The number of requests among [l] that were let through at an instant
    satisfying [P]. *)
Definition allowed (P : Z → Prop) `{!∀ t, Decision (P t)} (l : list (Z * bool))
    : nat :=
  length (filter (λ a, a.2 = true ∧ P a.1) l).

(** The events that are requests of [ip]. *)
Definition own (ip : K) (e : event) : Prop :=
  match e with Request _ ip' => ip' = ip | Cleanup _ => False end.

#[global] Instance own_dec ip e : Decision (own ip e).
Proof. destruct e; simpl; apply _. Defined.

(** The same answers, computed from the record of [ip] alone. *)
Fixpoint own_answers (ip : K) (es : list event) (o : option record)
    : list (Z * bool) :=
  match es with
  | [] => []
  | Cleanup now :: es =>
      own_answers ip es
        (match o with
         | Some r => if decide (resetTime r < now)%Z then None else Some r
         | None => None
         end)
  | Request now ip' :: es =>
      if decide (ip' = ip)
      then (now, (decide_record now o).2)
             :: own_answers ip es (Some (decide_record now o).1)
      else own_answers ip es o
  end.

(** [ip] has no record, or one whose window is over at every instant from
    [T] on. *)
Definition idle_record (T : Z) (o : option record) : Prop :=
  match o with
  | None => True
  | Some record => (resetTime record < T)%Z
  end.

Definition idle (ip : K) (T : Z) (rateLimitMap : gmap K record) : Prop :=
  idle_record T (rateLimitMap !! ip).

End rate_limit.

End router.

(** ** fileController.js: the upload endpoint

    [uploadFile(req, res)] once the request has been received: the value of
    the [content-type] header ([None] when it is missing) and the chunks
    of the body, in the order of the [data] events.  The answer is what
    [sendSuccess] or [sendError] is called with, next to the file system
    the request leaves; as for [parseMultipart], [None] would be a request
    that gets no answer.  The lengths of the chunks add up, so the size
    test of the [data] handler fails at some chunk exactly when the whole
    body is longer than [MAX_SIZE]; the request is then paused and its
    [end] event never comes.  The calls of the logger write to the log
    only and are left out. *)
Module controller.

(** The text of an error answer: a literal of the controller, or the
    message of the error the service threw. *)
Inductive message :=
  | Text (s : string)
  | ErrorMessage (e : error).

Inductive reply :=
  | sendSuccess (files : list Uploaded)
  | sendError (msg : message) (statusCode : N).

Definition MAX_SIZE : N := 100 * 1024 * 1024.

(** [s.includes(sub)] *)
Definition includes (s sub : jsstring) : bool :=
  match indexOf s sub 0 with Some _ => true | None => false end.

Section upload.

Variable utf8_encode : jsstring → buffer.
Variable utf8_decode : buffer → jsstring.
Variable __dirname : jsstring.

(** The loop [for (const file of parsed.files)]: the files are handed to
    the service one after the other, each call awaited before the next;
    the first error leaves the loop, and what was written before stays.
    [clock i] is the value of [Date.now()] during the call for the file of
    index [i] and [stamp i] the time the file system stamps on that file;
    nothing else touches the file system meanwhile. *)
Fixpoint upload_all (clock : nat → N) (stamp : nat → Z) (i : nat) (fs : node)
    (uploads : list UploadedPart.t) (targetPath : jsstring)
    : node * (error + list Uploaded) :=
  match uploads with
  | [] => (fs, inr [])
  | upload :: uploads =>
      match uploadFile __dirname fs (clock i) (stamp i) upload targetPath with
      | inl e => (fs, inl e)
      | inr (fs', result) =>
          let r := upload_all clock stamp (S i) fs' uploads targetPath in
          (r.1, match r.2 with
                | inl e => inl e
                | inr results => inr (result :: results)
                end)
      end
  end.

Definition uploadFile (clock : nat → N) (stamp : nat → Z) (fs : node)
    (contentType : option jsstring) (chunks : list buffer)
    : option (node * reply) :=
  match contentType with
  | None =>
      Some (fs, sendError (Text "Content-Type debe ser multipart/form-data") 400)
  | Some contentType =>
      if negb (includes contentType (js "multipart/form-data")) then
        Some (fs, sendError (Text "Content-Type debe ser multipart/form-data")
                    400)
      else
        match extractBoundary contentType with
        | None | Some [] =>
            Some (fs, sendError (Text "Boundary no encontrado en Content-Type")
                        400)
        | Some boundary =>
            let buffer := concat chunks in
            if (MAX_SIZE <? N.of_nat (length buffer))%N then
              Some (fs, sendError
                          (Text "Archivo demasiado grande. Máximo 100MB") 413)
            else
              parsed ← parseMultipart utf8_encode utf8_decode buffer boundary;
              match files parsed with
              | [] =>
                  Some (fs, sendError
                              (Text "No se encontraron archivos en la petición")
                              400)
              | _ =>
                  let targetPath := default [] (fields parsed !! js "path") in
                  let r :=
                    upload_all clock stamp 0 fs (files parsed) targetPath in
                  Some (r.1, match r.2 with
                             | inl e => sendError (ErrorMessage e) 500
                             | inr results => sendSuccess results
                             end)
              end
        end
  end.

End upload.

End controller.

(** A boundary as browsers write it in the content type: bare, without
    semicolon or surrounding white space. *)
Definition boundary_token (b : jsstring) : Prop :=
  b ≠ [] ∧ (CHAR_SEMICOLON ∉ b) ∧ trim b = b ∧ head b ≠ Some CHAR_QUOTE.

(** The request a browser sends for the files [uploads] and the target
    directory [target]: its content type and its body. *)
Definition upload_content_type (boundary : jsstring) : jsstring :=
  js "multipart/form-data; boundary=" ++ boundary.

Definition upload_body (utf8_encode : jsstring → buffer) (boundary : jsstring)
    (uploads : list UploadedPart.t) (target : jsstring) : buffer :=
  framed (boundaryBuffer utf8_encode boundary)
    (map file_part_of uploads ++ [field_part (js "path") target]).

(** The file name of an upload holds no separator. *)
Definition flat_name (u : UploadedPart.t) : Prop :=
  (CHAR_FORWARD_SLASH ∉ UploadedPart.filename u)
  ∧ (CHAR_BACKWARD_SLASH ∉ UploadedPart.filename u).

(** The directory of segments [xs] below the root holds the file [name]
    with content [c]. *)
Definition stored (dir : jsstring) (xs : list jsstring) (fs : node)
    (name : jsstring) (c : buffer) : Prop :=
  ∃ es sz t tm,
    walk fs (root_segments dir ++ xs) = inr (Dir es sz t)
    ∧ alookup name es = Some (File c tm).

(** ** logger.js

    The log file is read as one string; [log] appends one line to it for
    every event. *)
Module logger.

Definition CHAR_ZERO : N := 48.
Definition CHAR_SPACE : N := 32.
Definition CHAR_OPEN : N := 91.
Definition CHAR_CLOSE : N := 93.

(** The fields of a valid [Date] in local time, as its getters return
    them. *)
Record Date := mkDate {
  getFullYear : Z; getMonth : N; getDate : N; getHours : N;
  getMinutes : N; getSeconds : N; getMilliseconds : N }.

(** [String(n).padStart(targetLength, '0')] *)
Definition padStart (targetLength : nat) (s : jsstring) : jsstring :=
  replicate (targetLength - length s) CHAR_ZERO ++ s.

Definition formatDate (date : Date) : jsstring :=
  let year := js (pretty (getFullYear date)) in
  let month := padStart 2 (js (pretty (getMonth date + 1)%N)) in
  let day := padStart 2 (js (pretty (getDate date))) in
  let hours := padStart 2 (js (pretty (getHours date))) in
  let minutes := padStart 2 (js (pretty (getMinutes date))) in
  let seconds := padStart 2 (js (pretty (getSeconds date))) in
  let ms := padStart 3 (js (pretty (getMilliseconds date))) in
  year ++ [CHAR_DASH] ++ month ++ [CHAR_DASH] ++ day ++ [CHAR_SPACE]
  ++ hours ++ [CHAR_COLON] ++ minutes ++ [CHAR_COLON] ++ seconds
  ++ [CHAR_DOT] ++ ms.

(** [logMessage] in [log], at the time [timestamp]; the file gets this
    text and a line feed appended. *)
Definition logMessage (timestamp : Date) (eventType message ip : jsstring)
    : jsstring :=
  [CHAR_OPEN] ++ formatDate timestamp ++ [CHAR_CLOSE; CHAR_SPACE; CHAR_OPEN]
  ++ eventType ++ [CHAR_CLOSE; CHAR_SPACE; CHAR_OPEN] ++ ip
  ++ [CHAR_CLOSE; CHAR_SPACE] ++ message.

(** The text [readLog] answers with when there is no log file. *)
Definition EMPTY_LOG : jsstring :=
  js "Log vac" ++ [237%N] ++ js "o - no hay registros a" ++ [250%N] ++ js "n".

(** [array.slice(start)] for an integer [start]. *)
Definition slice_from {A} (start : Z) (l : list A) : list A :=
  if (start <? 0)%Z then drop (length l - Z.to_nat (- start)) l
  else drop (Z.to_nat start) l.

(** [readLog(lines)] on what [fs.readFile] gives: the content of the file
    or an error.  An error other than [ENOENT] rejects the promise. *)
Definition readLog (lines : Z) (file : errno + jsstring) : errno + jsstring :=
  match file with
  | inl ENOENT => inr EMPTY_LOG
  | inl err => inl err
  | inr data =>
      let allLines :=
        filter (λ line, trim line ≠ []) (split_on CHAR_LF data) in
      let lastLines := slice_from (- lines) allLines in
      inr (join_with [CHAR_LF] lastLines)
  end.

(** The longest prefix of characters in a class. *)
Fixpoint take_while (p : N → bool) (s : jsstring) : jsstring :=
  match s with
  | c :: s' => if p c then c :: take_while p s' else []
  | [] => []
  end.

(** The class [[A-Z_]] and the class [\d]. *)
Definition is_type_char (c : N) : bool :=
  ((65 <=? c) && (c <=? 90) || (c =? CHAR_UNDERSCORE))%N.

Definition is_digit (c : N) : bool := ((48 <=? c) && (c <=? 57))%N.

(** A match of [/\[([A-Z_]+)\]/] at the start of [s]: the matched text.
    The closing bracket is not in the class, so the longest run is the
    only one that can match. *)
Definition type_token (s : jsstring) : option jsstring :=
  match s with
  | c :: s' =>
      if (c =? CHAR_OPEN)%N then
        let run := take_while is_type_char s' in
        match run, drop (length run) s' with
        | _ :: _, c' :: _ =>
            if (c' =? CHAR_CLOSE)%N
            then Some ([CHAR_OPEN] ++ run ++ [CHAR_CLOSE])
            else None
        | _, _ => None
        end
      else None
  | [] => None
  end.

(** [line.match(/\[([A-Z_]+)\]/g)]: with the flag [g], the texts of all
    matches from left to right, each search starting where the last match
    ended; no match at all is the code's [null], here the empty list.
    [skip] counts the characters of the last match still to pass over. *)
Fixpoint match_types (s : jsstring) (skip : nat) : list jsstring :=
  match s with
  | [] => []
  | _ :: s' =>
      match skip with
      | S k => match_types s' k
      | O =>
          match type_token s with
          | Some m => m :: match_types s' (length m - 1)
          | None => match_types s' 0
          end
      end
  end.

(** [\d+] followed by the character [stop]: the digits and what follows
    [stop]. *)
Definition digits_then (stop : N) (s : jsstring) : option (jsstring * jsstring) :=
  let run := take_while is_digit s in
  match run, drop (length run) s with
  | _ :: _, c :: rest => if (c =? stop)%N then Some (run, rest) else None
  | _, _ => None
  end.

(** A match of [/\[(\d+\.\d+\.\d+\.\d+)\]/] at the start of [s]: its
    group 1. *)
Definition ip_token (s : jsstring) : option jsstring :=
  match s with
  | c :: s0 =>
      if (c =? CHAR_OPEN)%N then
        '(a, s1) ← digits_then CHAR_DOT s0;
        '(b, s2) ← digits_then CHAR_DOT s1;
        '(c, s3) ← digits_then CHAR_DOT s2;
        '(d, _) ← digits_then CHAR_CLOSE s3;
        Some (a ++ [CHAR_DOT] ++ b ++ [CHAR_DOT] ++ c ++ [CHAR_DOT] ++ d)
      else None
  | [] => None
  end.

(** [line.match(/\[(\d+\.\d+\.\d+\.\d+)\]/)]: group 1 of the first match. *)
Fixpoint match_ip (s : jsstring) : option jsstring :=
  match ip_token s with
  | Some ip => Some ip
  | None => match s with [] => None | _ :: s' => match_ip s' end
  end.

Record LogStats := mkLogStats {
  totalEvents : nat;
  byType : gmap jsstring nat;
  byIP : gmap jsstring nat }.

(** [obj[key] = (obj[key] || 0) + 1] *)
Definition count_up (key : jsstring) (o : gmap jsstring nat) : gmap jsstring nat :=
  <[key := S (default 0 (o !! key))]> o.

(** The body of [lines.forEach]. *)
Definition count_line (stats : LogStats) (line : jsstring) : LogStats :=
  let typeMatch := match_types line 0 in
  let stats :=
    match typeMatch !! 1 with
    | Some m =>
        let type :=
          filter (λ c, c ≠ CHAR_OPEN ∧ c ≠ CHAR_CLOSE) m in
        mkLogStats (totalEvents stats) (count_up type (byType stats))
          (byIP stats)
    | None => stats
    end in
  match match_ip line with
  | Some ip =>
      mkLogStats (totalEvents stats) (byType stats) (count_up ip (byIP stats))
  | None => stats
  end.

(** [getLogStats()]: an error of [readLog] is answered with
    [{ error }]. *)
Definition getLogStats (file : errno + jsstring) : errno + LogStats :=
  match readLog 10000 file with
  | inl e => inl e
  | inr content =>
      let lines := split_on CHAR_LF content in
      inr (foldl count_line (mkLogStats (length lines) ∅ ∅) lines)
  end.

End logger.

(** The file [log] leaves after writing the lines [entries]. *)
Definition log_file (entries : list jsstring) : jsstring :=
  concat (map (λ line, line ++ [CHAR_LF]) entries).

(** A line as it stands in the file: without line feed, and not
    blank. *)
Definition log_entry (line : jsstring) : Prop :=
  (CHAR_LF ∉ line) ∧ trim line ≠ [].

(** An event as [log] is called with it, and the line it writes. *)
Record LogEvent := mkLogEvent {
  ev_time : logger.Date;
  ev_type : jsstring;
  ev_message : jsstring;
  ev_ip : jsstring }.

Definition event_line (e : LogEvent) : jsstring :=
  logger.logMessage (ev_time e) (ev_type e) (ev_message e) (ev_ip e).

(** A number in decimal digits, and an IPv4 address in dotted notation. *)
Definition digits (s : jsstring) : Prop :=
  s ≠ [] ∧ Forall (λ c, logger.is_digit c = true) s.

Definition ipv4 (s : jsstring) : Prop :=
  ∃ a b c d,
    digits a ∧ digits b ∧ digits c ∧ digits d
    ∧ s = a ++ [CHAR_DOT] ++ b ++ [CHAR_DOT] ++ c ++ [CHAR_DOT] ++ d.

(** An event of a client with an IPv4 address whose type holds no bracket,
    dot or line feed and whose message holds no bracket or line feed. *)
Definition plain_event (e : LogEvent) : Prop :=
  (logger.CHAR_OPEN ∉ ev_type e) ∧ (CHAR_DOT ∉ ev_type e)
  ∧ (CHAR_LF ∉ ev_type e)
  ∧ ipv4 (ev_ip e)
  ∧ (logger.CHAR_OPEN ∉ ev_message e) ∧ (CHAR_LF ∉ ev_message e).

(** ** server.js: static files

    [serveStaticFile(req, res)] for the [pathname] that [url.parse] gives
    for the request: the status, the content type and the body of the
    answer.  The entry of the logger on an error is left out. *)
Module server.

Definition MIME_TYPES : list (string * string) :=
  [ (".html", "text/html"); (".css", "text/css");
    (".js", "application/javascript"); (".json", "application/json");
    (".png", "image/png"); (".jpg", "image/jpeg"); (".jpeg", "image/jpeg");
    (".gif", "image/gif"); (".svg", "image/svg+xml");
    (".ico", "image/x-icon") ].

Record response := mkResponse {
  statusCode : N;
  contentType : jsstring;
  body : buffer }.

Section static.

Variable __dirname : jsstring.

Definition PUBLIC_DIR : jsstring := path.join [__dirname; js "../public"].

(** From [path.extname(filePath)] on: the content type by the extension
    as it is written, and the callback of [fs.readFile]. *)
Definition sendFile (fs : node) (filePath : jsstring) : response :=
  let ext := path.extname filePath in
  let contentType :=
    match list_find (λ kv, js kv.1 = ext) MIME_TYPES with
    | Some (_, (_, mime)) => js mime
    | None => js "application/octet-stream"
    end in
  match fs_readFile fs filePath with
  | inl ENOENT =>
      mkResponse 404 (js "text/html")
        (js "<h1>404 - Archivo no encontrado</h1>")
  | inl _ =>
      mkResponse 500 (js "text/plain") (js "500 - Error interno del servidor")
  | inr data => mkResponse 200 contentType data
  end.

Definition forbidden : response :=
  mkResponse 403 (js "text/plain") (js "403 Forbidden").

Definition serveStaticFile (fs : node) (pathname : jsstring) : response :=
  let pathname :=
    if str_eqb pathname (js "/") then js "/index.html" else pathname in
  let filePath := path.join [PUBLIC_DIR; pathname] in
  let normalizedPath := path.normalize filePath in
  if negb (startsWith normalizedPath PUBLIC_DIR) then forbidden
  else sendFile fs filePath.

End static.

End server.

(** A host where the server runs in [/srv/app/server], next to the
    directory [public] and to a directory [public-old]. *)
Definition host_with_public : node :=
  Dir [(js "srv",
        Dir [(js "app",
              Dir [(js "server", Dir [] 4096 0);
                   (js "public",
                    Dir [(js "index.html", plain_file "<html>")] 4096 0);
                   (js "public-old",
                    Dir [(js "secret.txt", plain_file "s")] 4096 0)]
                4096 0)]
          4096 0)]
    4096 0.

(** * Properties *)

(** ** Searching in strings and buffers *)

Lemma startsWith_spec s pre : startsWith s pre = true ↔ take (length pre) s = pre.
Proof.
  revert s. induction pre as [|p pre IH]; intros s; simpl.
  - by destruct s.
  - destruct s as [|c s]; simpl; [done|].
    rewrite andb_true_iff, N.eqb_eq, IH. split.
    + by intros [-> ->].
    + by intros [= -> ->].
Qed.

Lemma find_from_unfold hay needle i :
  find_from hay needle i =
  if startsWith hay needle then Some i
  else match hay with [] => None | _ :: hay' => find_from hay' needle (S i) end.
Proof. by destruct hay. Qed.

Lemma find_from_Some hay needle i r :
  find_from hay needle i = Some r ↔
  i ≤ r ∧ occurs_at hay needle (r - i)
  ∧ ∀ j, j < r - i → ¬ occurs_at hay needle j.
Proof.
  unfold occurs_at. revert i. induction hay as [|c hay IH]; intros i; rewrite find_from_unfold.
  - destruct (startsWith [] needle) eqn:Hs.
    + apply startsWith_spec in Hs. split.
      * intros [= <-]. rewrite Nat.sub_diag. split; [done|]. split; [done|]. lia.
      * intros (Hle & Hocc & Hmin). f_equal.
        destruct (decide (r - i = 0)) as [|Hne]; [lia|].
        exfalso. apply (Hmin 0); [lia|done].
    + split; [done|]. intros (Hle & Hocc & Hmin).
      rewrite drop_nil in Hocc. apply startsWith_spec in Hocc. congruence.
  - destruct (startsWith (c :: hay) needle) eqn:Hs.
    + apply startsWith_spec in Hs. split.
      * intros [= <-]. rewrite Nat.sub_diag. split; [done|]. split; [done|]. lia.
      * intros (Hle & Hocc & Hmin). f_equal.
        destruct (decide (r - i = 0)) as [|Hne]; [lia|].
        exfalso. apply (Hmin 0); [lia|done].
    + rewrite IH. split.
      * intros (Hle & Hocc & Hmin). split; [lia|].
        replace (r - i) with (S (r - S i)) by lia. split; [done|].
        intros [|j] Hj; simpl.
        -- intros Hocc'%startsWith_spec. congruence.
        -- apply Hmin. lia.
      * intros (Hle & Hocc & Hmin).
        destruct (decide (r = i)) as [->|Hne].
        { rewrite Nat.sub_diag, drop_0 in Hocc. apply startsWith_spec in Hocc. congruence. }
        split; [lia|].
        replace (r - i) with (S (r - S i)) in Hocc, Hmin by lia. split; [done|].
        intros j Hj. apply (Hmin (S j)). lia.
Qed.

Lemma find_from_None hay needle i :
  find_from hay needle i = None ↔ ∀ j, ¬ occurs_at hay needle j.
Proof.
  unfold occurs_at. revert i. induction hay as [|c hay IH]; intros i; rewrite find_from_unfold.
  - destruct (startsWith [] needle) eqn:Hs.
    + apply startsWith_spec in Hs. split; [done|]. intros H. by destruct (H 0).
    + split; [|done]. intros _ j. rewrite drop_nil.
      intros Hocc%startsWith_spec. congruence.
  - destruct (startsWith (c :: hay) needle) eqn:Hs.
    + apply startsWith_spec in Hs. split; [done|]. intros H. by destruct (H 0).
    + rewrite IH. split.
      * intros H [|j]; simpl; [|apply H].
        intros Hocc%startsWith_spec. congruence.
      * intros H j. apply (H (S j)).
Qed.

Lemma indexOf_Some hay needle pos r :
  indexOf hay needle pos = Some r ↔
  pos ≤ r ∧ occurs_at hay needle r
  ∧ ∀ j, pos ≤ j < r → ¬ occurs_at hay needle j.
Proof.
  unfold indexOf. rewrite find_from_Some. unfold occurs_at. split.
  - intros (Hle & Hocc & Hmin). split; [done|].
    rewrite drop_drop in Hocc. replace (pos + (r - pos)) with r in Hocc by lia.
    split; [done|]. intros j Hj Hocc'. apply (Hmin (j - pos)); [lia|].
    rewrite drop_drop. by replace (pos + (j - pos)) with j by lia.
  - intros (Hle & Hocc & Hmin). split; [done|].
    rewrite drop_drop. replace (pos + (r - pos)) with r by lia.
    split; [done|]. intros j Hj. rewrite drop_drop. apply Hmin. lia.
Qed.

Lemma indexOf_None hay needle pos :
  indexOf hay needle pos = None ↔ ∀ j, pos ≤ j → ¬ occurs_at hay needle j.
Proof.
  unfold indexOf. rewrite find_from_None. unfold occurs_at. split.
  - intros H j Hj. specialize (H (j - pos)). rewrite drop_drop in H.
    by replace (pos + (j - pos)) with j in H by lia.
  - intros H j. rewrite drop_drop. apply H. lia.
Qed.

Lemma occurs_at_length hay needle i :
  needle ≠ [] → occurs_at hay needle i → i + length needle ≤ length hay.
Proof.
  unfold occurs_at. intros Hne Hocc.
  apply (f_equal length) in Hocc. rewrite length_take, length_drop in Hocc.
  assert (0 < length needle) by (destruct needle; [done|simpl; lia]). lia.
Qed.

Lemma occurs_at_app x y needle i :
  i + length needle ≤ length x →
  occurs_at (x ++ y) needle i ↔ occurs_at x needle i.
Proof.
  intros Hlen. unfold occurs_at.
  rewrite drop_app_le by lia. rewrite take_app_le; [done|].
  rewrite length_drop. lia.
Qed.

Lemma indexOf_ext h1 h2 needle pos :
  (∀ i, pos ≤ i → occurs_at h1 needle i ↔ occurs_at h2 needle i) →
  indexOf h1 needle pos = indexOf h2 needle pos.
Proof.
  intros Hext.
  destruct (indexOf h1 needle pos) as [r1|] eqn:H1;
    destruct (indexOf h2 needle pos) as [r2|] eqn:H2; [| | |done].
  - apply indexOf_Some in H1 as (Hle1 & Hocc1 & Hmin1).
    apply indexOf_Some in H2 as (Hle2 & Hocc2 & Hmin2).
    f_equal. destruct (decide (r1 < r2)).
    { destruct (Hmin2 r1); [lia|]. by apply Hext. }
    destruct (decide (r2 < r1)); [|lia].
    destruct (Hmin1 r2); [lia|]. by apply Hext.
  - apply indexOf_Some in H1 as (Hle1 & Hocc1 & Hmin1).
    rewrite indexOf_None in H2. destruct (H2 r1); [done|]. by apply Hext.
  - apply indexOf_Some in H2 as (Hle2 & Hocc2 & Hmin2).
    rewrite indexOf_None in H1. destruct (H1 r2); [done|]. by apply Hext.
Qed.

Lemma slice_app x y start stop :
  stop ≤ length x → slice (x ++ y) start stop = slice x start stop.
Proof.
  intros Hstop. unfold slice.
  destruct (decide (start ≤ length x)).
  - rewrite drop_app_le by done. rewrite take_app_le; [done|].
    rewrite length_drop. lia.
  - by replace (stop - start) with 0 by lia.
Qed.

Lemma indexOf_ge hay needle pos r : indexOf hay needle pos = Some r → pos ≤ r.
Proof. by intros (? & _)%indexOf_Some. Qed.

(** ** Backward loops *)

Lemma for_down_inv {S} (body : Z → S → S + S) (I : nat → S → Prop)
    (Q : S → Prop) n st :
  I n st →
  (∀ k st, I (Datatypes.S k) st →
     match body (Z.of_nat k) st with inl st' => Q st' | inr st' => I k st' end) →
  (∀ st, I 0 st → Q st) →
  Q (for_down body n st).
Proof.
  intros Hinit Hstep Hend. revert st Hinit.
  induction n as [|k IH]; intros st Hinit; simpl; [by apply Hend|].
  specialize (Hstep k st Hinit). destruct (body _ st); [done|by apply IH].
Qed.

Lemma charCodeAt_elem s k : k < length s → charCodeAt s (Z.of_nat k) ∈ s.
Proof.
  intros Hk. unfold charCodeAt. rewrite Nat2Z.id.
  apply list_elem_of_In, nth_In. done.
Qed.

Lemma charCodeAt_no_slash s k :
  CHAR_FORWARD_SLASH ∉ s → k < length s →
  N.eqb (charCodeAt s (Z.of_nat k)) CHAR_FORWARD_SLASH = false.
Proof.
  intros Hslash Hk. apply N.eqb_neq. intros Heq. apply Hslash.
  rewrite <-Heq. by apply charCodeAt_elem.
Qed.

(** ** A base name followed by an extension *)

Lemma charCodeAt_app_l s t k :
  k < length s → charCodeAt (s ++ t) (Z.of_nat k) = charCodeAt s (Z.of_nat k).
Proof. intros Hk. unfold charCodeAt. rewrite !Nat2Z.id. by apply app_nth1. Qed.

Lemma charCodeAt_app_r s t k :
  length s ≤ k →
  charCodeAt (s ++ t) (Z.of_nat k) = charCodeAt t (Z.of_nat (k - length s)).
Proof. intros Hk. unfold charCodeAt. rewrite !Nat2Z.id. by apply app_nth2. Qed.

Section extension.
Variables (b x : jsstring).
Hypothesis b_nonempty : b ≠ [].
Hypothesis b_no_slash : CHAR_FORWARD_SLASH ∉ b.
Hypothesis x_nonempty : x ≠ [].
Hypothesis x_no_dot : CHAR_DOT ∉ x.
Hypothesis x_no_slash : CHAR_FORWARD_SLASH ∉ x.

Let p := b ++ CHAR_DOT :: x.
Let n := length p.

Lemma extension_lengths :
  0 < length b ∧ 0 < length x ∧ n = length b + 1 + length x.
Proof using b_nonempty x_nonempty.
  unfold n, p. rewrite length_app. simpl.
  pose proof (proj1 (length_zero_iff_nil b)).
  pose proof (proj1 (length_zero_iff_nil x)).
  repeat split; try lia.
  - destruct (length b); [tauto|lia].
  - destruct (length x); [tauto|lia].
Qed.

Lemma extension_char k :
  k < n →
  if decide (k < length b) then
    charCodeAt p (Z.of_nat k) = charCodeAt b (Z.of_nat k)
    ∧ N.eqb (charCodeAt p (Z.of_nat k)) CHAR_FORWARD_SLASH = false
  else if decide (k = length b) then
    charCodeAt p (Z.of_nat k) = CHAR_DOT
  else
    charCodeAt p (Z.of_nat k)
    = charCodeAt (CHAR_DOT :: x) (Z.of_nat (k - length b))
    ∧ N.eqb (charCodeAt p (Z.of_nat k)) CHAR_FORWARD_SLASH = false
    ∧ N.eqb (charCodeAt p (Z.of_nat k)) CHAR_DOT = false.
Proof using b_no_slash x_no_dot x_no_slash b_nonempty x_nonempty.
  intros Hk. destruct extension_lengths as (Hb & Hx & Hn).
  destruct (decide (k < length b)) as [Hlt|Hge].
  - unfold p. rewrite charCodeAt_app_l by done. split; [done|].
    by apply charCodeAt_no_slash.
  - unfold p. rewrite charCodeAt_app_r by lia.
    destruct (decide (k = length b)) as [->|Hne].
    + by rewrite Nat.sub_diag.
    + split; [done|].
      assert (Hin : charCodeAt (CHAR_DOT :: x) (Z.of_nat (k - length b)) ∈ x).
      { unfold charCodeAt. rewrite Nat2Z.id.
        replace (k - length b) with (S (k - length b - 1)) by lia. simpl.
        apply list_elem_of_In, nth_In. lia. }
      split; apply N.eqb_neq; intros Heq; rewrite Heq in Hin; done.
Qed.

Lemma extname_extension : path.extname p = CHAR_DOT :: x.
Proof using b_no_slash x_no_dot x_no_slash b_nonempty x_nonempty.
  destruct extension_lengths as (Hb & Hx & Hn).
  assert (Hneq : ∀ z : nat, (Z.of_nat z =? -1)%Z = false)
    by (intros z; apply Z.eqb_neq; lia).
  unfold path.extname. fold n.
  pattern (for_down (path.extname_body p) n (path.EState (-1) 0 (-1) true 0)).
  apply for_down_inv with
    (I := λ m st,
       m ≤ n ∧ path.e_startPart st = 0%Z
       ∧ (m = n → st = path.EState (-1) 0 (-1) true 0)
       ∧ (length b < m < n → st = path.EState (-1) 0 (Z.of_nat n) false 0)
       ∧ (m ≤ length b →
          path.e_startDot st = Z.of_nat (length b)
          ∧ path.e_end st = Z.of_nat n
          ∧ (m = length b → path.e_preDotState st = 0%Z)
          ∧ (m < length b → path.e_preDotState st = 1%Z
                            ∨ path.e_preDotState st = (-1)%Z))).
  - repeat split; try done; lia.
  - intros k st (Hk & Hstart & Hinit & Hext & Hbase).
    pose proof (extension_char k ltac:(lia)) as Hchar.
    unfold path.extname_body.
    destruct (decide (k < length b)) as [Hkb|Hkb].
    + destruct Hchar as (_ & ->).
      destruct (Hbase ltac:(lia)) as (Hdot & Hend & Hpre0 & Hpre).
      rewrite Hend, Hneq, Hdot, Hneq.
      destruct (N.eqb _ CHAR_DOT); [destruct (negb _) eqn:Hnegb|]; simpl;
        repeat split; try done; try lia; intros _;
        first [ by left | by right
              | apply negb_false_iff, Z.eqb_eq in Hnegb; by left ].
    + destruct (decide (k = length b)) as [->|Hne].
      * rewrite Hchar. simpl.
        assert (st = path.EState (-1) 0 (Z.of_nat n) false 0) as ->
          by (apply Hext; lia).
        simpl. rewrite Hneq. simpl. repeat split; try done; lia.
      * destruct Hchar as (_ & -> & ->).
        destruct (decide (S k = n)) as [Hkn|Hkn].
        -- rewrite (Hinit Hkn). simpl. repeat split; try done; try lia;
             intros _; f_equal; lia.
        -- rewrite (Hext ltac:(lia)). simpl. rewrite Hneq. simpl.
           repeat split; try done; lia.
  - intros st (_ & Hstart & _ & _ & Hbase).
    destruct (Hbase ltac:(lia)) as (Hdot & Hend & _ & Hpre).
    specialize (Hpre Hb).
    rewrite Hdot, Hend, Hstart, !Hneq.
    replace (Z.of_nat (length b) =? Z.of_nat n - 1)%Z with false
      by (symmetry; apply Z.eqb_neq; lia).
    replace (path.e_preDotState st =? 0)%Z with false
      by (symmetry; apply Z.eqb_neq; lia).
    rewrite andb_false_r. simpl.
    unfold zslice, slice. rewrite !Nat2Z.id. unfold p.
    rewrite drop_app_length.
    apply firstn_all2. simpl. lia.
Qed.

Lemma basename_extension : path.basename p (CHAR_DOT :: x) = b.
Proof using b_no_slash x_no_dot x_no_slash b_nonempty x_nonempty.
  destruct extension_lengths as (Hb & Hx & Hn).
  assert (Hneq : ∀ z : nat, (Z.of_nat z =? -1)%Z = false)
    by (intros z; apply Z.eqb_neq; lia).
  unfold path.basename. fold n.
  rewrite bool_decide_eq_true_2 by done.
  rewrite bool_decide_eq_true_2 by (simpl; lia).
  unfold str_eqb. rewrite bool_decide_eq_false_2.
  2: { intros Heq. apply (f_equal length) in Heq. fold n in Heq.
       simpl in Heq. lia. }
  cbn [andb].
  set (s := CHAR_DOT :: x).
  assert (Hs : length s = 1 + length x) by done.
  pattern (for_down (path.basename_suffix_body p s) n
             (path.BState 0 (-1) true (Z.of_nat (length s) - 1) (-1))).
  apply for_down_inv with
    (I := λ m st,
       m ≤ n ∧ path.b_start st = 0%Z
       ∧ (m = n →
          st = path.BState 0 (-1) true (Z.of_nat (length s) - 1) (-1))
       ∧ (length b < m < n →
          st = path.BState 0 (-1) false
                 (Z.of_nat (length s) - 1 - Z.of_nat (n - m)) (Z.of_nat n))
       ∧ (m ≤ length b →
          st = path.BState 0 (Z.of_nat (length b)) false (-1) (Z.of_nat n))).
  - repeat split; try done; lia.
  - intros k st (Hk & Hstart & Hinit & Hext & Hbase).
    pose proof (extension_char k ltac:(lia)) as Hchar.
    unfold path.basename_suffix_body.
    destruct (decide (k < length b)) as [Hkb|Hkb].
    + destruct Hchar as (_ & ->). rewrite (Hbase ltac:(lia)). simpl.
      rewrite Hneq. simpl. repeat split; try done; lia.
    + assert (Hcode : charCodeAt p (Z.of_nat k)
                      = charCodeAt s (Z.of_nat (k - length b))
                      ∧ N.eqb (charCodeAt p (Z.of_nat k)) CHAR_FORWARD_SLASH
                        = false).
      { destruct (decide (k = length b)) as [->|Hne].
        - rewrite Hchar, Nat.sub_diag. done.
        - by destruct Hchar as (-> & -> & _). }
      destruct Hcode as (Hcode & ->).
      assert (Hst1 :
        (if (path.b_firstNonSlashEnd st =? -1)%Z
         then path.BState (path.b_start st) (path.b_end st) false
                (path.b_extIdx st) (Z.of_nat k + 1)
         else st)
        = path.BState 0 (-1) false (Z.of_nat (k - length b)) (Z.of_nat n)).
      { destruct (decide (S k = n)) as [Hkn|Hkn].
        - rewrite (Hinit Hkn). simpl. f_equal; lia.
        - rewrite (Hext ltac:(lia)). simpl. rewrite Hneq. f_equal. lia. }
      rewrite Hst1. simpl.
      destruct (Z.leb_spec 0 (Z.of_nat (k - length b))) as [_|]; [|lia].
      rewrite Hcode, N.eqb_refl.
      destruct (Z.eqb_spec (Z.of_nat (k - length b) - 1) (-1)) as [Hz|Hz];
        simpl; repeat split; try done; try lia; intros _; f_equal; lia.
  - intros st (_ & _ & _ & _ & Hbase). rewrite (Hbase ltac:(lia)).
    cbn [path.b_start path.b_end path.b_firstNonSlashEnd].
    replace (0 =? Z.of_nat (length b))%Z with false
      by (symmetry; apply Z.eqb_neq; lia).
    rewrite Hneq. unfold zslice, slice. rewrite Nat2Z.id.
    change (Z.to_nat 0) with 0. rewrite Nat.sub_0_r, drop_0. unfold p.
    by rewrite take_app_length.
Qed.
End extension.

(** ** NameValidator *)

Lemma invalidChar_spec c : invalidChar c = true ↔ forbidden_char c.
Proof.
  unfold invalidChar, forbidden_char.
  rewrite !orb_true_iff, N.ltb_lt, !N.eqb_eq.
  rewrite !elem_of_cons, elem_of_nil. tauto.
Qed.

(** The regular expression of [reservedNames] accepts exactly the names
    of the list, whatever their case. *)
Lemma reservedNames_spec s :
  reservedNames s = true ↔ toLowerCase s ∈ device_names.
Proof.
  unfold reservedNames. generalize (toLowerCase s) as l. intros l.
  rewrite orb_true_iff, bool_decide_eq_true. split.
  - intros [H | H].
    + unfold device_names. simpl. set_solver.
    + destruct l as [|a [|b [|c [|d [|? ?]]]]]; try discriminate.
      rewrite !andb_true_iff, orb_true_iff in H. destruct H as [[H H1] H2].
      unfold str_eqb in H. rewrite !bool_decide_eq_true in H.
      apply N.leb_le in H1, H2.
      assert (Hd : d ∈ [49; 50; 51; 52; 53; 54; 55; 56; 57]%N).
      { assert (d = 49 ∨ d = 50 ∨ d = 51 ∨ d = 52 ∨ d = 53 ∨ d = 54
                ∨ d = 55 ∨ d = 56 ∨ d = 57)%N by lia.
        set_solver. }
      assert (Hp : [a; b; c] = js "com" ∨ [a; b; c] = js "lpt") by exact H.
      clear H H1 H2.
      destruct Hp as [Hp | Hp]; vm_compute in Hp; simplify_eq;
        repeat (apply elem_of_cons in Hd as [-> | Hd];
                [ vm_compute; set_solver | ]);
        by apply elem_of_nil in Hd.
  - unfold device_names. simpl. intros H.
    repeat (apply elem_of_cons in H as [-> | H];
            [ first [ by left; set_solver | by right; vm_compute ] | ]).
    by apply elem_of_nil in H.
Qed.

Lemma isValidFileName_too_long name :
  255 < length name → isValidFileName name = false.
Proof.
  intros Hlen. unfold isValidFileName. destruct name as [|c name]; [done|].
  rewrite (bool_decide_eq_true_2 (255 < _)) by done.
  by rewrite orb_true_r.
Qed.

Lemma isValidFileName_invalid_char name c :
  c ∈ name → forbidden_char c → isValidFileName name = false.
Proof.
  intros Hin Hc. unfold isValidFileName. destruct name as [|c0 name]; [done|].
  destruct (_ || _); [done|].
  assert (existsb invalidChar (c0 :: name) = true) as ->; [|done].
  apply existsb_exists. exists c. split.
  - by apply list_elem_of_In.
  - by apply invalidChar_spec.
Qed.

Lemma isValidFileName_reserved name :
  toLowerCase (path.basename name (path.extname name)) ∈ device_names →
  isValidFileName name = false.
Proof.
  intros Hres%reservedNames_spec. unfold isValidFileName.
  destruct name as [|c0 name]; [done|].
  destruct (_ || _); [done|]. destruct (existsb _ _); [done|].
  by rewrite Hres.
Qed.

Lemma isValidFileName_only_dots name :
  name ≠ [] → Forall (λ c, c = CHAR_DOT) name → isValidFileName name = false.
Proof.
  intros Hne Hdots. unfold isValidFileName.
  destruct name as [|c0 name]; [done|].
  destruct (_ || _); [done|]. destruct (existsb _ _); [done|].
  destruct (reservedNames _); [done|].
  assert (onlyDots (c0 :: name) = true) as ->; [|done].
  unfold onlyDots. rewrite bool_decide_eq_true_2 by done.
  rewrite andb_true_l. apply forallb_forall. intros c Hc%list_elem_of_In.
  rewrite Forall_forall in Hdots. rewrite (Hdots c Hc). apply N.eqb_refl.
Qed.

(** A reserved device name followed by an extension is rejected. *)
Lemma isValidFileName_device_extension b x :
  toLowerCase b ∈ device_names →
  x ≠ [] → CHAR_DOT ∉ x → CHAR_FORWARD_SLASH ∉ x →
  isValidFileName (b ++ CHAR_DOT :: x) = false.
Proof.
  intros Hdev Hx Hdot Hslash. apply isValidFileName_reserved.
  assert (Hb : b ≠ [] ∧ CHAR_FORWARD_SLASH ∉ b).
  { split.
    - intros ->. vm_compute in Hdev. set_solver.
    - intros Hin. assert (CHAR_FORWARD_SLASH ∈ toLowerCase b).
      { apply list_elem_of_fmap. by exists CHAR_FORWARD_SLASH. }
      unfold device_names in Hdev. simpl in Hdev.
      repeat (apply elem_of_cons in Hdev as [Hdev|Hdev];
              [rewrite Hdev in H; vm_compute in H; set_solver|]).
      by apply elem_of_nil in Hdev. }
  destruct Hb as [Hne Hbslash].
  by rewrite extname_extension, basename_extension.
Qed.

(** C6. [isValidFileName] rejects the empty name, every name of more than
    255 characters, every name holding a control character or one of the
    seven listed characters, every name whose base name without extension
    is a reserved device name in any case (in particular a reserved name
    followed by a dot and an extension), and every name made of dots
    only; it rejects the six sample names and accepts [report_final.pdf]. *)
Theorem isValidFileName_rejects :
  isValidFileName [] = false
  ∧ (∀ name, 255 < length name → isValidFileName name = false)
  ∧ (∀ name c, c ∈ name → forbidden_char c → isValidFileName name = false)
  ∧ (∀ name,
       toLowerCase (path.basename name (path.extname name)) ∈ device_names →
       isValidFileName name = false)
  ∧ (∀ base ext,
       toLowerCase base ∈ device_names →
       ext ≠ [] → CHAR_DOT ∉ ext → CHAR_FORWARD_SLASH ∉ ext →
       isValidFileName (base ++ CHAR_DOT :: ext) = false)
  ∧ (∀ name, name ≠ [] → Forall (λ c, c = CHAR_DOT) name →
       isValidFileName name = false)
  ∧ isValidFileName (js "CON") = false
  ∧ isValidFileName (js "con.txt") = false
  ∧ isValidFileName (replicate 300 97%N) = false
  ∧ isValidFileName (js "a<b.txt") = false
  ∧ isValidFileName (js "...") = false
  ∧ isValidFileName (js "report_final.pdf") = true.
Proof.
  split; [done|].
  split; [exact isValidFileName_too_long|].
  split; [exact isValidFileName_invalid_char|].
  split; [exact isValidFileName_reserved|].
  split; [exact isValidFileName_device_extension|].
  split; [exact isValidFileName_only_dots|].
  repeat split; by vm_compute.
Qed.

Lemma isValidFileName_rejects_witness :
  isValidFileName (replicate 256 97%N) = false
  ∧ isValidFileName (js "a|b") = false
  ∧ isValidFileName (js "LPT3.log") = false
  ∧ isValidFileName (js "Nul" ++ CHAR_DOT :: js "tar") = false
  ∧ isValidFileName (js "..") = false.
Proof.
  destruct isValidFileName_rejects
    as (_ & Hlen & Hchar & Hres & Hext & Hdots & _).
  split; [apply Hlen; vm_compute; lia|].
  split; [apply (Hchar _ 124%N); [vm_compute; set_solver|right; set_solver]|].
  split; [apply Hres; vm_compute; set_solver|].
  split; [apply Hext; [vm_compute; set_solver|discriminate|..];
          vm_compute; set_solver|].
  apply Hdots; [done|]. by repeat constructor.
Defined.

(** C8. Names holding a path separator pass [isValidFileName]: the
    separators are not among the rejected characters, and such a name
    joined to a directory names a location in another directory. *)
Theorem isValidFileName_accepts_separators :
  isValidFileName (js "a/b") = true
  ∧ isValidFileName (js "../evil") = true
  ∧ isValidFileName (js "a" ++ [CHAR_BACKWARD_SLASH] ++ js "b") = true
  ∧ invalidChar CHAR_FORWARD_SLASH = false
  ∧ invalidChar CHAR_BACKWARD_SLASH = false
  ∧ path.join [js "/srv/app/files/docs"; js "a/b"]
    = js "/srv/app/files/docs/a/b"
  ∧ path.join [js "/srv/app/files/docs"; js "../evil"]
    = js "/srv/app/files/evil".
Proof. repeat split; by vm_compute. Qed.

(** ** PathResolver *)

(** What the check of [resolvePath] does ensure: a returned path starts
    with the characters of the root directory. *)
Lemma resolvePath_prefix dir relativePath p :
  resolvePath dir relativePath = inr p → startsWith p (ROOT_DIR dir) = true.
Proof.
  unfold resolvePath. destruct (startsWith _ _) eqn:Hpre; simpl; [|done].
  by intros [= <-].
Qed.

Lemma resolvePath_empty :
  resolvePath (js "/srv/app") (js "") = inr (js "/srv/app/files")
  ∧ resolvePath (js "/srv/app") (js "/") = inr (js "/srv/app/files").
Proof. split; by vm_compute. Qed.

(** C2. With the module in [/srv/app] the root is [/srv/app/files];
    [sanitizePath] turns the path above into [../files_backup], and
    [resolvePath] returns [/srv/app/files_backup], which passes the prefix
    test and is not at or below the root. *)
Theorem resolvePath_escapes_root :
  ROOT_DIR (js "/srv/app") = js "/srv/app/files"
  ∧ sanitizePath escaping_path = js "../files_backup"
  ∧ resolvePath (js "/srv/app") escaping_path
    = inr (js "/srv/app/files_backup")
  ∧ within (js "/srv/app/files") (js "/srv/app/files_backup") = false.
Proof. repeat split; by vm_compute. Qed.

(** ** FileTreeService: paths in results *)

(** C1. [createFolder] in the root with the valid name [../files_backup]
    makes a directory next to the root.  On a host with that directory
    [listFiles] succeeds on the escaping path; the path of the entry it
    returns and the path of the child it lists resolve to
    [/srv/app/files_backup] and to a file in it, outside the root; and
    [deleteFile] on the same path removes the sibling directory. *)
Theorem listFiles_result_path_escapes_root :
  (∃ fs0 c,
     createFolder (js "/srv/app") (host_with_root []) 0 (js "")
       (js "../files_backup")
     = inr (fs0, c)
     ∧ fs_existsSync fs0 (js "/srv/app/files_backup") = true)
  ∧ ∃ l child fs' d,
      listFiles (js "/srv/app") localeCompare_en host_with_sibling
        escaping_path
      = inr l
      ∧ children l = Some [child]
      ∧ resolvePath (js "/srv/app") (Entry.path (entry l))
        = inr (js "/srv/app/files_backup")
      ∧ resolvePath (js "/srv/app") (Entry.path child)
        = inr (js "/srv/app/files_backup/secret")
      ∧ within (js "/srv/app/files") (js "/srv/app/files_backup") = false
      ∧ within (js "/srv/app/files") (js "/srv/app/files_backup/secret")
        = false
      ∧ deleteFile (js "/srv/app") host_with_sibling escaping_path
        = inr (fs', d)
      ∧ fs_existsSync fs' (js "/srv/app/files_backup") = false
      ∧ resolvePath (js "/srv/app") (del_path d)
        = inr (js "/srv/app/files_backup").
Proof.
  split.
  - eexists _, _. split; by vm_compute.
  - eexists _, _, _, _. split; [by vm_compute|].
    split; [reflexivity|].
    split; [by vm_compute|]. split; [by vm_compute|].
    split; [by vm_compute|]. split; [by vm_compute|].
    split; [by vm_compute|]. split; by vm_compute.
Qed.

(** ** MultipartDecoder *)


Section multipart_facts.
Variable utf8_encode : jsstring → buffer.
Variable utf8_decode : buffer → jsstring.
Abbreviation loop := (parseMultipart_loop utf8_decode).

Lemma parseMultipart_loop_unfold fuel buf delim position result :
  loop (S fuel) buf delim position result =
  if negb (position <? length buf) then Some result
  else
    match indexOf buf delim position with
    | None => Some result
    | Some boundaryIndex =>
        match indexOf buf CRLF (boundaryIndex + length delim) with
        | None => Some result
        | Some newlineIndex =>
            match indexOf buf delim (newlineIndex + 2) with
            | None => Some result
            | Some nextBoundaryIndex =>
                match parsePart utf8_decode
                        (slice buf (newlineIndex + 2) nextBoundaryIndex)
                        result with
                | None => loop fuel buf delim (newlineIndex + 2) result
                | Some result' =>
                    loop fuel buf delim nextBoundaryIndex result'
                end
            end
        end
    end.
Proof. reflexivity. Qed.

Lemma parseMultipart_loop_total fuel buf delim position result :
  length buf - position < fuel →
  is_Some (loop fuel buf delim position result).
Proof.
  revert position result.
  induction fuel as [|fuel IH]; intros position result Hfuel; [lia|].
  rewrite parseMultipart_loop_unfold.
  destruct (position <? length buf) eqn:Hpos; simpl; [|done].
  apply Nat.ltb_lt in Hpos.
  destruct (indexOf buf delim position) as [bi|] eqn:Hbi; [|done].
  destruct (indexOf buf CRLF _) as [nl|] eqn:Hnl; [|done].
  destruct (indexOf buf delim (nl + 2)) as [nb|] eqn:Hnb; [|done].
  apply indexOf_ge in Hbi, Hnl, Hnb.
  destruct (parsePart _ _ _); apply IH; lia.
Qed.

Lemma parseMultipart_loop_fuel f1 f2 buf delim position result :
length buf - position < f1 → length buf - position < f2 →
loop f1 buf delim position result = loop f2 buf delim position result.
Proof.
revert f2 position result.
induction f1 as [|f1 IH]; intros [|f2] position result Hf1 Hf2; try lia.
rewrite !parseMultipart_loop_unfold.
destruct (position <? length buf) eqn:Hpos; simpl; [|done].
apply Nat.ltb_lt in Hpos.
destruct (indexOf buf delim position) as [bi|] eqn:Hbi; [|done].
destruct (indexOf buf CRLF _) as [nl|] eqn:Hnl; [|done].
destruct (indexOf buf delim (nl + 2)) as [nb|] eqn:Hnb; [|done].
apply indexOf_ge in Hbi, Hnl, Hnb.
destruct (parsePart _ _ _); apply IH; lia.
Qed.

Section truncation.
Variables (a delim tail : buffer).
Hypothesis delim_nonempty : delim ≠ [].
Hypothesis last_occurrence :
  ∀ i, length a < i → ¬ occurs_at (a ++ delim ++ tail) delim i.

Lemma occurs_truncated i :
  occurs_at ((a ++ delim) ++ tail) delim i ↔ occurs_at (a ++ delim) delim i.
Proof using delim_nonempty last_occurrence.
  destruct (decide (i ≤ length a)) as [Hi|Hi].
  - apply occurs_at_app. rewrite length_app. lia.
  - split.
    + intros Hocc. destruct (last_occurrence i); [lia|]. by rewrite app_assoc.
    + intros Hocc%occurs_at_length; [|done]. rewrite length_app in Hocc. lia.
Qed.

Lemma indexOf_delim_truncated pos :
  indexOf ((a ++ delim) ++ tail) delim pos = indexOf (a ++ delim) delim pos.
Proof using delim_nonempty last_occurrence.
  apply indexOf_ext. intros i _. apply occurs_truncated.
Qed.

Lemma indexOf_delim_past pos :
  length a < pos → indexOf (a ++ delim) delim pos = None.
Proof using delim_nonempty.
  intros Hpos. apply indexOf_None. intros j Hj Hocc%occurs_at_length; [|done].
  rewrite length_app in Hocc. lia.
Qed.

Lemma loop_truncated f1 f2 position result :
  length ((a ++ delim) ++ tail) - position < f1 →
  length (a ++ delim) - position < f2 →
  loop f1 ((a ++ delim) ++ tail) delim position result
  = loop f2 (a ++ delim) delim position result.
Proof using delim_nonempty last_occurrence.
  assert (Hd : 0 < length delim) by (destruct delim; [done|simpl; lia]).
  revert f2 position result.
  induction f1 as [|f1 IH]; intros [|f2] position result Hf1 Hf2; try lia.
  rewrite !parseMultipart_loop_unfold, !indexOf_delim_truncated.
  destruct (position <? length (a ++ delim)) eqn:Hpos; simpl.
  - apply Nat.ltb_lt in Hpos.
    assert ((position <? length ((a ++ delim) ++ tail)) = true) as ->.
    { apply Nat.ltb_lt. rewrite length_app. lia. }
    simpl.
    destruct (indexOf (a ++ delim) delim position) as [bi|] eqn:Hbi; [|done].
    destruct (indexOf (a ++ delim) CRLF (bi + length delim)) as [nl|] eqn:Hnl.
    + assert (indexOf ((a ++ delim) ++ tail) CRLF (bi + length delim) = Some nl)
        as ->.
      { apply indexOf_Some in Hnl as (Hle & Hocc & Hmin).
        assert (Hlen : nl + length CRLF ≤ length (a ++ delim))
          by (by apply occurs_at_length).
        apply indexOf_Some. split; [done|]. split.
        - by apply occurs_at_app.
        - intros j Hj Hocc'. apply (Hmin j Hj).
          apply occurs_at_app in Hocc'; [done|]. simpl in *. lia. }
      rewrite indexOf_delim_truncated.
      destruct (indexOf (a ++ delim) delim (nl + 2)) as [nb|] eqn:Hnb; [|done].
      assert (nb ≤ length (a ++ delim)).
      { apply indexOf_Some in Hnb as (_ & Hocc%occurs_at_length & _); [lia|done]. }
      rewrite slice_app by done.
      apply indexOf_ge in Hbi, Hnl, Hnb.
      destruct (parsePart _ _ _); apply IH; rewrite ?length_app in *; lia.
    + destruct (indexOf ((a ++ delim) ++ tail) CRLF (bi + length delim))
        as [nl|] eqn:Hnl'; [|done].
      rewrite indexOf_delim_truncated.
      rewrite indexOf_delim_past; [done|].
      destruct (decide (length a < nl + 2)) as [|Hle]; [done|].
      exfalso.
      apply indexOf_Some in Hnl' as (Hle' & Hocc & Hmin).
      rewrite indexOf_None in Hnl. apply (Hnl nl Hle').
      apply occurs_at_app in Hocc; [done|].
      rewrite length_app. simpl. lia.
  - apply Nat.ltb_ge in Hpos.
    rewrite indexOf_delim_past.
    + by destruct (_ <? _).
    + rewrite length_app in Hpos. lia.
Qed.
End truncation.
End multipart_facts.

(** C10. [parseMultipart] ends on every buffer and boundary with a result
    (the iterations allowed are never used up), and when the delimiter
    occurs nowhere in the buffer the result has no field and no file. *)
Theorem parseMultipart_terminates
    (utf8_encode : jsstring → buffer) (utf8_decode : buffer → jsstring)
    (buf : buffer) (boundary : jsstring) :
  (∃ result, parseMultipart utf8_encode utf8_decode buf boundary = Some result)
  ∧ ((∀ i, ¬ occurs_at buf (boundaryBuffer utf8_encode boundary) i) →
     parseMultipart utf8_encode utf8_decode buf boundary
     = Some (mkMultipart ∅ [])).
Proof.
  unfold parseMultipart, parseMultipart_fuel. split.
  - apply parseMultipart_loop_total. lia.
  - intros Hnone. rewrite parseMultipart_loop_unfold.
    destruct (negb _); [done|].
    assert (indexOf buf (boundaryBuffer utf8_encode boundary) 0 = None) as ->;
      [|done].
    apply indexOf_None. intros j _. apply Hnone.
Qed.

Lemma parseMultipart_terminates_witness :
  parseMultipart id id (js "no delimiter here") (js "XYZ")
  = Some (mkMultipart ∅ []).
Proof.
  apply (parseMultipart_terminates id id (js "no delimiter here") (js "XYZ")).
  intros i. apply (proj1 (indexOf_None _ _ 0)); [by vm_compute|lia].
Defined.

(** C9. When no delimiter occurs after the one at the end of [a], what
    follows that delimiter never reaches the result: decoding gives what
    it gives for the buffer cut right after that delimiter, and nothing at
    all when that delimiter is the only one. *)
Theorem parseMultipart_drops_last_part
    (utf8_encode : jsstring → buffer) (utf8_decode : buffer → jsstring)
    (a tail : buffer) (boundary : jsstring) :
  let delim := boundaryBuffer utf8_encode boundary in
  (∀ i, length a < i → ¬ occurs_at (a ++ delim ++ tail) delim i) →
  parseMultipart utf8_encode utf8_decode (a ++ delim ++ tail) boundary
  = parseMultipart utf8_encode utf8_decode (a ++ delim) boundary
  ∧ ((∀ i, i < length a → ¬ occurs_at (a ++ delim ++ tail) delim i) →
     parseMultipart utf8_encode utf8_decode (a ++ delim ++ tail) boundary
     = Some (mkMultipart ∅ [])).
Proof.
  intros delim Hlast.
  assert (Hne : delim ≠ []) by done.
  assert (Heq : parseMultipart utf8_encode utf8_decode (a ++ delim ++ tail)
                  boundary
                = parseMultipart utf8_encode utf8_decode (a ++ delim) boundary).
  { unfold parseMultipart, parseMultipart_fuel. fold delim.
    rewrite (app_assoc a delim tail).
    apply loop_truncated; [done|done|lia|lia]. }
  split; [done|]. intros Hfirst. rewrite Heq.
  unfold parseMultipart, parseMultipart_fuel. fold delim.
  rewrite parseMultipart_loop_unfold.
  destruct (negb _); [done|].
  assert (indexOf (a ++ delim) delim 0 = Some (length a)) as ->.
  { apply indexOf_Some. split; [lia|]. split.
    - unfold occurs_at. rewrite drop_app_length. by rewrite firstn_all.
    - intros j [_ Hj] Hocc. apply (Hfirst j Hj).
      rewrite app_assoc. apply occurs_at_app; [|done].
      rewrite length_app. lia. }
  assert (indexOf (a ++ delim) CRLF (length a + length delim) = None) as ->;
    [|done].
  apply indexOf_None. intros j Hj Hocc%occurs_at_length; [|done].
  rewrite length_app in Hocc. change (length CRLF) with 2 in Hocc. lia.
Qed.

Lemma parseMultipart_drops_last_part_witness :
  parseMultipart id id
    (example_field_part ++ boundaryBuffer id (js "XYZ")
     ++ CRLF ++ js "Content-Disposition: form-data; name=" ++ quoted "lost"
     ++ CRLF ++ CRLF ++ js "value" ++ CRLF)
    (js "XYZ")
  = parseMultipart id id (example_field_part ++ boundaryBuffer id (js "XYZ"))
      (js "XYZ").
Proof.
  apply (parseMultipart_drops_last_part id id example_field_part).
  intros i Hi.
  apply (proj1 (indexOf_None _ _ (S (length example_field_part))));
    [by vm_compute|lia].
Defined.



(** ** Sorting *)

Section sort_facts.
Context {A : Type} (compareFn : A → A → Z).

Lemma sort_insert_perm x l : sort_insert compareFn x l ≡ₚ x :: l.
Proof.
  induction l as [|y l IH]; simpl; [done|].
  destruct (0 <? compareFn x y)%Z; [|done].
  rewrite IH. apply Permutation_swap.
Qed.

Lemma Array_sort_perm l : Array_sort compareFn l ≡ₚ l.
Proof.
  induction l as [|x l IH]; simpl; [done|].
  by rewrite sort_insert_perm, IH.
Qed.

Hypothesis compare_flip : ∀ a b, (0 < compareFn a b)%Z → (compareFn b a ≤ 0)%Z.
Hypothesis compare_trans :
  ∀ a b c, (compareFn a b ≤ 0)%Z → (compareFn b c ≤ 0)%Z →
           (compareFn a c ≤ 0)%Z.

Lemma sort_insert_sorted x l :
  StronglySorted (λ a b, (compareFn a b ≤ 0)%Z) l →
  StronglySorted (λ a b, (compareFn a b ≤ 0)%Z) (sort_insert compareFn x l).
Proof using compare_flip compare_trans.
  induction 1 as [|y l Hl IH Hy]; simpl; [by repeat constructor|].
  destruct (0 <? compareFn x y)%Z eqn:Hxy.
  - apply Z.ltb_lt in Hxy. constructor; [done|].
    rewrite sort_insert_perm. constructor; [by apply compare_flip|done].
  - apply Z.ltb_ge in Hxy. constructor; [by constructor|].
    constructor; [done|].
    eapply Forall_impl; [exact Hy|]. intros z Hz. by eapply compare_trans.
Qed.

Lemma Array_sort_sorted l :
  StronglySorted (λ a b, (compareFn a b ≤ 0)%Z) (Array_sort compareFn l).
Proof using compare_flip compare_trans.
  induction l as [|x l IH]; simpl; [constructor|].
  by apply sort_insert_sorted.
Qed.
End sort_facts.

Lemma StronglySorted_impl {A} (R1 R2 : A → A → Prop) l :
  (∀ a b, R1 a b → R2 a b) → StronglySorted R1 l → StronglySorted R2 l.
Proof.
  intros Himpl. induction 1 as [|x l Hl IH Hx]; constructor; [done|].
  eapply Forall_impl; [exact Hx|]. intros y. apply Himpl.
Qed.

(** The comparator of the listing orders entries by [entry_before]. *)
Lemma compareEntries_before cmp a b :
  (compareEntries cmp a b ≤ 0)%Z ↔ entry_before (λ x y, (cmp x y ≤ 0)%Z) a b.
Proof.
  unfold compareEntries, entry_before.
  destruct (Entry.type a), (Entry.type b); simpl; try done; lia.
Qed.

Lemma compareEntries_flip cmp a b :
  (∀ x y, (0 < cmp x y)%Z → (cmp y x ≤ 0)%Z) →
  (0 < compareEntries cmp a b)%Z → (compareEntries cmp b a ≤ 0)%Z.
Proof.
  intros Hflip. unfold compareEntries.
  destruct (Entry.type a), (Entry.type b); simpl; try lia; apply Hflip.
Qed.

Lemma compareEntries_trans cmp a b c :
  (∀ x y z, (cmp x y ≤ 0)%Z → (cmp y z ≤ 0)%Z → (cmp x z ≤ 0)%Z) →
  (compareEntries cmp a b ≤ 0)%Z → (compareEntries cmp b c ≤ 0)%Z →
  (compareEntries cmp a c ≤ 0)%Z.
Proof.
  intros Htrans. unfold compareEntries.
  destruct (Entry.type a), (Entry.type b), (Entry.type c); simpl;
    try lia; apply Htrans.
Qed.

(** The English collation is a consistent comparator. *)
Lemma lex_compare_flip a b : lex_compare b a = CompOpp (lex_compare a b).
Proof.
  revert b. induction a as [|x a IH]; intros [|y b]; simpl; try done.
  rewrite (N.compare_antisym x y). destruct (x ?= y)%N; simpl; [apply IH|done..].
Qed.

Lemma lex_compare_eq a b : lex_compare a b = Eq → a = b.
Proof.
  revert b. induction a as [|x a IH]; intros [|y b]; simpl; try done.
  destruct (x ?= y)%N eqn:Hxy; try done.
  apply N.compare_eq in Hxy as ->. by intros ->%IH.
Qed.

Lemma lex_compare_refl a : lex_compare a a = Eq.
Proof. induction a as [|x a IH]; simpl; [done|]. by rewrite N.compare_refl. Qed.

Lemma lex_compare_lt_trans a b c :
  lex_compare a b = Lt → lex_compare b c = Lt → lex_compare a c = Lt.
Proof.
  revert b c. induction a as [|x a IH]; intros [|y b] [|z c]; simpl; try done.
  destruct (N.compare_spec x y) as [->|Hxy|Hxy]; try done.
  - destruct (N.compare_spec y z) as [->|Hyz|Hyz]; try done. apply IH.
  - destruct (N.compare_spec y z) as [->|Hyz|Hyz]; try done.
    + intros _ _. by apply N.compare_lt_iff in Hxy as ->.
    + intros _ _. assert (x < z)%N as ->%N.compare_lt_iff by lia. done.
Qed.

Lemma lex_compare_le_trans a b c :
  lex_compare a b ≠ Gt → lex_compare b c ≠ Gt → lex_compare a c ≠ Gt.
Proof.
  destruct (lex_compare a b) eqn:Hab; [| |done];
    destruct (lex_compare b c) eqn:Hbc; try done; intros _ _.
  - apply lex_compare_eq in Hab as ->. by rewrite Hbc.
  - apply lex_compare_eq in Hab as ->. by rewrite Hbc.
  - apply lex_compare_eq in Hbc as <-. by rewrite Hab.
  - by rewrite (lex_compare_lt_trans a b c).
Qed.

Lemma collate_flip a b : collate b a = CompOpp (collate a b).
Proof.
  unfold collate. rewrite (lex_compare_flip (omap primary_weight a)).
  destruct (lex_compare (omap primary_weight a) _); simpl; try done.
  apply lex_compare_flip.
Qed.

Lemma collate_le_trans a b c :
  collate a b ≠ Gt → collate b c ≠ Gt → collate a c ≠ Gt.
Proof.
  unfold collate.
  destruct (lex_compare (omap primary_weight a) (omap primary_weight b))
    eqn:Hab; [| |done];
    destruct (lex_compare (omap primary_weight b) (omap primary_weight c))
      eqn:Hbc; try done.
  - apply lex_compare_eq in Hab, Hbc. rewrite Hab, Hbc, lex_compare_refl.
    apply lex_compare_le_trans.
  - apply lex_compare_eq in Hab. rewrite Hab, Hbc. done.
  - apply lex_compare_eq in Hbc. rewrite <-Hbc, Hab. done.
  - rewrite (lex_compare_lt_trans _ _ _ Hab Hbc). done.
Qed.

Lemma localeCompare_en_flip a b :
  (0 < localeCompare_en a b)%Z → (localeCompare_en b a ≤ 0)%Z.
Proof.
  unfold localeCompare_en. rewrite (collate_flip a b).
  destruct (collate a b); simpl; lia.
Qed.

Lemma localeCompare_en_trans a b c :
  (localeCompare_en a b ≤ 0)%Z → (localeCompare_en b c ≤ 0)%Z →
  (localeCompare_en a c ≤ 0)%Z.
Proof.
  unfold localeCompare_en. intros Hab Hbc.
  pose proof (collate_le_trans a b c) as H.
  destruct (collate a b), (collate b c), (collate a c); try lia;
    by destruct H.
Qed.

(** ** FileTreeService: the order of a listing *)

Lemma listFiles_children dir cmp fs rel l cs :
  listFiles dir cmp fs rel = inr l → children l = Some cs →
  ∃ absolutePath entries,
    resolvePath dir rel = inr absolutePath
    ∧ fs_readdir fs absolutePath = inr entries
    ∧ cs = Array_sort (compareEntries cmp)
             (omap (childEntry fs rel absolutePath) entries).
Proof.
  unfold listFiles. intros Hl Hcs.
  destruct (resolvePath dir rel) as [|absolutePath]; [discriminate Hl|].
  destruct (fs_existsSync _ _); simpl in Hl; [|discriminate Hl].
  destruct (fs_stat _ _) as [|stats]; simpl in Hl; [discriminate Hl|].
  destruct (isFile stats).
  { injection Hl as <-. discriminate Hcs. }
  destruct (fs_readdir _ _) as [|entries] eqn:Hrd; simpl in Hl;
    [discriminate Hl|].
  injection Hl as <-. simpl in Hcs. injection Hcs as <-.
  by exists absolutePath, entries.
Qed.

(** C3 (amended). The children of a listed directory are ordered with the
    directories first and, within the directories and within the files,
    by the comparison [localeCompare] of the host, whenever that
    comparison is consistent; for the example directory holding [b.txt],
    the subdirectory [A] and [a.txt] the order is [A], [a.txt], [b.txt]. *)
Theorem listFiles_children_sorted :
  (∀ dir (cmp : jsstring → jsstring → Z) fs rel l cs,
     (∀ a b, (0 < cmp a b)%Z → (cmp b a ≤ 0)%Z) →
     (∀ a b c, (cmp a b ≤ 0)%Z → (cmp b c ≤ 0)%Z → (cmp a c ≤ 0)%Z) →
     listFiles dir cmp fs rel = inr l → children l = Some cs →
     StronglySorted (entry_before (λ a b, (cmp a b ≤ 0)%Z)) cs)
  ∧ (∃ l cs,
       listFiles (js "/srv/app") localeCompare_en example_listing_host (js "")
       = inr l
       ∧ children l = Some cs
       ∧ Entry.name <$> cs = [js "A"; js "a.txt"; js "b.txt"]).
Proof.
  split.
  - intros dir cmp fs rel l cs Hflip Htrans Hl Hcs.
    destruct (listFiles_children _ _ _ _ _ _ Hl Hcs)
      as (absolutePath & entries & _ & _ & ->).
    eapply StronglySorted_impl; [|apply Array_sort_sorted].
    + intros a b Hab. by apply compareEntries_before.
    + intros a b. by apply compareEntries_flip.
    + intros a b c. by apply compareEntries_trans.
  - eexists _, _. split; [by vm_compute|]. split; [reflexivity|]. by vm_compute.
Qed.

Lemma listFiles_children_sorted_witness :
  ∃ l cs,
    listFiles (js "/srv/app") localeCompare_en mixed_case_host (js "") = inr l
    ∧ children l = Some cs
    ∧ StronglySorted (entry_before (λ a b, (localeCompare_en a b ≤ 0)%Z)) cs.
Proof.
  eexists _, _. split; [by vm_compute|]. split; [reflexivity|].
  eapply (proj1 listFiles_children_sorted (js "/srv/app") localeCompare_en
            mixed_case_host (js "")).
  - exact localeCompare_en_flip.
  - exact localeCompare_en_trans.
  - by vm_compute.
  - reflexivity.
Defined.

(** C3 as stated fails: [localeCompare] puts [a.txt] before [B.txt], which
    the comparison of code units has the other way round. *)
Lemma listFiles_not_ordinal :
  ∃ l cs,
    listFiles (js "/srv/app") localeCompare_en mixed_case_host (js "") = inr l
    ∧ children l = Some cs
    ∧ Entry.name <$> cs = [js "a.txt"; js "B.txt"]
    ∧ ¬ StronglySorted (entry_before (λ a b, ordinal_le a b = true)) cs.
Proof.
  eexists _, _. split; [by vm_compute|]. split; [reflexivity|].
  split; [by vm_compute|].
  intros Hsorted. apply StronglySorted_inv in Hsorted as [_ Hhead].
  apply Forall_cons in Hhead as [Hhead _]. by vm_compute in Hhead.
Qed.

(** ** Paths as lists of segments *)

Lemma split_on_cons c s : ∃ seg segs, split_on c s = seg :: segs.
Proof.
  induction s as [|x s (seg & segs & IH)]; simpl; [by eexists _, _|].
  destruct (N.eqb x c); [by eexists _, _|]. rewrite IH. by eexists _, _.
Qed.

Lemma split_on_app c p q :
  split_on c (p ++ c :: q) = split_on c p ++ split_on c q.
Proof.
  induction p as [|x p IH]; simpl.
  - by rewrite N.eqb_refl.
  - destruct (N.eqb x c); [by rewrite IH|].
    rewrite IH. by destruct (split_on_cons c p) as (seg & segs & ->).
Qed.

Lemma split_on_notin c s : c ∉ s → split_on c s = [s].
Proof.
  induction s as [|x s IH]; simpl; [done|].
  intros Hnotin. apply not_elem_of_cons in Hnotin as [Hne Hnotin].
  destruct (N.eqb_spec x c) as [->|_]; [done|]. by rewrite IH.
Qed.

Lemma split_on_elem c s seg : seg ∈ split_on c s → c ∉ seg.
Proof.
  revert seg. induction s as [|x s IH]; simpl; intros seg.
  - intros ->%list_elem_of_singleton. apply not_elem_of_nil.
  - destruct (N.eqb_spec x c) as [->|Hne].
    + intros [->|Hin]%elem_of_cons; [apply not_elem_of_nil|by apply IH].
    + destruct (split_on c s) as [|seg0 segs] eqn:Hs.
      * intros ->%list_elem_of_singleton.
        apply not_elem_of_cons. split; [done|apply not_elem_of_nil].
      * intros [->|Hin]%elem_of_cons.
        -- apply not_elem_of_cons. split; [done|]. apply IH. by left.
        -- apply IH. by right.
Qed.

Lemma fs_segments_nil : fs_segments [] = [].
Proof. done. Qed.

Lemma fs_segments_app p q :
  fs_segments (p ++ CHAR_FORWARD_SLASH :: q) = fs_segments p ++ fs_segments q.
Proof. unfold fs_segments. by rewrite split_on_app, filter_app. Qed.

Lemma fs_segments_seg seg :
  seg ≠ [] → CHAR_FORWARD_SLASH ∉ seg → fs_segments seg = [seg].
Proof.
  intros Hne Hslash. unfold fs_segments. rewrite split_on_notin by done.
  by rewrite filter_cons_True.
Qed.

Lemma fs_segments_elem p seg :
  seg ∈ fs_segments p → seg ≠ [] ∧ CHAR_FORWARD_SLASH ∉ seg.
Proof.
  unfold fs_segments. intros [Hne Hin]%list_elem_of_filter.
  split; [done|]. by eapply split_on_elem.
Qed.

Lemma plain_segment_seg seg :
  plain_segment seg → seg ≠ [] ∧ CHAR_FORWARD_SLASH ∉ seg.
Proof. by intros (? & ? & _). Qed.

Lemma join_with_snoc sep segs seg :
  segs ≠ [] → join_with sep (segs ++ [seg]) = join_with sep segs ++ sep ++ seg.
Proof.
  induction segs as [|s segs IH]; [done|]. intros _.
  destruct segs as [|s' segs]; [done|].
  change (join_with sep ((s :: s' :: segs) ++ [seg]))
    with (s ++ sep ++ join_with sep ((s' :: segs) ++ [seg])).
  rewrite IH by done.
  change (join_with sep (s :: s' :: segs))
    with (s ++ sep ++ join_with sep (s' :: segs)).
  by rewrite <-!app_assoc.
Qed.

Lemma fs_segments_join segs :
  Forall plain_segment segs →
  fs_segments (join_with [CHAR_FORWARD_SLASH] segs) = segs.
Proof.
  induction segs as [|s segs IH] using rev_ind; [done|].
  intros [Hsegs Hs]%Forall_app. apply Forall_inv in Hs.
  apply plain_segment_seg in Hs as [Hne Hslash].
  destruct (decide (segs = [])) as [->|Hsegs_ne].
  - by apply fs_segments_seg.
  - rewrite join_with_snoc by done. simpl.
    rewrite fs_segments_app, IH by done. by rewrite fs_segments_seg.
Qed.

Lemma fs_segments_abs segs tr :
  Forall plain_segment segs → fs_segments (abs_path segs tr) = segs.
Proof.
  intros Hsegs. unfold abs_path.
  change (CHAR_FORWARD_SLASH :: ?l) with ([] ++ CHAR_FORWARD_SLASH :: l).
  rewrite fs_segments_app, fs_segments_nil. simpl.
  destruct tr.
  - rewrite fs_segments_app, fs_segments_nil, app_nil_r.
    by apply fs_segments_join.
  - rewrite app_nil_r. by apply fs_segments_join.
Qed.

(** ** [path.normalize] and [path.join] on absolute paths *)

Lemma fold_left_filter {A B} (f : B → A → B) (P : A → Prop)
    `{!∀ x, Decision (P x)} l st :
  (∀ st x, ¬ P x → f st x = st) →
  fold_left f (filter P l) st = fold_left f l st.
Proof.
  intros Hskip. revert st. induction l as [|x l IH]; intros st; [done|].
  destruct (decide (P x)).
  - rewrite filter_cons_True by done. simpl. apply IH.
  - rewrite filter_cons_False by done. simpl. by rewrite Hskip.
Qed.

Lemma norm_fold_segments allow p st :
  fold_left (path.norm_step allow) (split_on CHAR_FORWARD_SLASH p) st
  = fold_left (path.norm_step allow) (fs_segments p) st.
Proof.
  unfold fs_segments. symmetry. apply fold_left_filter.
  intros st' seg Hseg. apply dec_stable in Hseg as ->. done.
Qed.

Lemma norm_step_plain allow st seg :
  plain_segment seg → path.norm_step allow st seg = seg :: st.
Proof.
  intros (Hne & _ & Hdot & Hdotdot). unfold path.norm_step, path.is_dot,
    path.is_dotdot, str_eqb.
  rewrite !bool_decide_eq_false_2; done.
Qed.

Lemma norm_fold_plain allow segs st :
  Forall plain_segment segs →
  fold_left (path.norm_step allow) segs st = reverse segs ++ st.
Proof.
  intros Hsegs. revert st.
  induction Hsegs as [|seg segs Hseg _ IH]; intros st; [done|].
  simpl. rewrite norm_step_plain, IH by done.
  by rewrite reverse_cons, <-app_assoc.
Qed.

Lemma norm_fold_abs segs st :
  Forall (λ seg, seg ≠ [] ∧ CHAR_FORWARD_SLASH ∉ seg) segs →
  Forall plain_segment st →
  Forall plain_segment (fold_left (path.norm_step false) segs st).
Proof.
  intros Hsegs. revert st.
  induction Hsegs as [|seg segs [Hne Hslash] _ IH]; intros st Hst; [done|].
  simpl. apply IH. unfold path.norm_step, path.is_dot, path.is_dotdot, str_eqb.
  rewrite (bool_decide_eq_false_2 (seg = [])) by done. simpl.
  destruct (bool_decide_reflect (seg = [CHAR_DOT])) as [|Hdot]; [done|].
  destruct (bool_decide_reflect (seg = [CHAR_DOT; CHAR_DOT])) as [|Hdotdot].
  - destruct st as [|top rest]; [done|].
    destruct (bool_decide _); simpl; [done|].
    by apply Forall_cons in Hst as [_ Hrest].
  - by constructor.
Qed.

Lemma join_with_nil sep segs :
  Forall (λ seg, seg ≠ []) segs → join_with sep segs = [] → segs = [].
Proof.
  destruct segs as [|seg segs]; [done|].
  intros [Hne _]%Forall_cons. simpl.
  destruct segs; [done|]. by destruct seg.
Qed.

Lemma isAbsolute_abs segs tr : path.isAbsolute (abs_path segs tr) = true.
Proof. done. Qed.

(** An absolute path normalizes to the path of its kept segments. *)
Lemma normalize_abs p :
  path.isAbsolute p = true →
  ∃ segs,
    Forall plain_segment segs
    ∧ segs = reverse (fold_left (path.norm_step false) (fs_segments p) [])
    ∧ path.normalize p
      = abs_path segs (path.trailingSeparator p && bool_decide (segs ≠ [])).
Proof.
  intros Habs. eexists. split; [|split; [reflexivity|]].
  { apply Forall_reverse, norm_fold_abs; [|done].
    apply Forall_forall. intros seg. apply fs_segments_elem. }
  unfold path.normalize, path.normalizeString. rewrite Habs. simpl.
  destruct p as [|c p]; [done|].
  rewrite norm_fold_segments.
  set (segs := reverse (fold_left _ _ _)).
  assert (Hplain : Forall plain_segment segs).
  { apply Forall_reverse, norm_fold_abs; [|done].
    apply Forall_forall. intros seg. apply fs_segments_elem. }
  destruct (join_with [CHAR_FORWARD_SLASH] segs) as [|x r] eqn:Hjoin.
  - apply join_with_nil in Hjoin as ->.
    + unfold abs_path. simpl. destruct (path.trailingSeparator _); simpl; reflexivity.
    + eapply Forall_impl; [exact Hplain|]. by intros seg (? & _).
  - assert (segs ≠ []) by (by intros ->).
    rewrite bool_decide_eq_true_2, andb_true_r by done.
    unfold abs_path. rewrite Hjoin.
    destruct (path.trailingSeparator _); [done|by rewrite app_nil_r].
Qed.

Lemma trailingSeparator_app p seg :
  seg ≠ [] → CHAR_FORWARD_SLASH ∉ seg →
  path.trailingSeparator (p ++ seg) = false.
Proof.
  intros Hne Hslash. unfold path.trailingSeparator.
  destruct seg as [|c seg _] using rev_ind; [done|].
  rewrite app_assoc, last_snoc.
  apply N.eqb_neq. intros ->. apply Hslash. set_solver.
Qed.

Lemma join_abs_segment segs tr seg :
  Forall plain_segment segs → plain_segment seg →
  path.join [abs_path segs tr; seg] = abs_path (segs ++ [seg]) false.
Proof.
  intros Hsegs Hseg. pose proof Hseg as (Hne & Hslash & _).
  unfold path.join. rewrite !filter_cons_True by done. rewrite filter_nil.
  change (join_with [CHAR_FORWARD_SLASH] [abs_path segs tr; seg])
    with (abs_path segs tr ++ CHAR_FORWARD_SLASH :: seg).
  destruct (normalize_abs (abs_path segs tr ++ CHAR_FORWARD_SLASH :: seg))
    as (segs' & _ & Hsegs' & ->); [done|].
  rewrite fs_segments_app, fs_segments_abs, fs_segments_seg in Hsegs' by done.
  rewrite norm_fold_plain, app_nil_r, reverse_involutive in Hsegs'.
  2: { apply Forall_app. split; [done|by constructor]. }
  subst segs'.
  change (abs_path segs tr ++ CHAR_FORWARD_SLASH :: seg)
    with (abs_path segs tr ++ [CHAR_FORWARD_SLASH] ++ seg).
  rewrite app_assoc, trailingSeparator_app by done. done.
Qed.



(** ** [path.dirname] *)

Lemma dirname_unfold p :
  p ≠ [] →
  path.dirname p
  = let '(end_, _) :=
      for_down (path.dirname_body p) (length p) ((-1)%Z, true) in
    if (end_ =? -1)%Z then (if path.isAbsolute p then js "/" else js ".")
    else if path.isAbsolute p && (end_ =? 1)%Z then js "//"
    else zslice p 0 end_.
Proof. by destruct p. Qed.

Lemma dirname_loop pre seg :
  seg ≠ [] → CHAR_FORWARD_SLASH ∉ seg →
  for_down (path.dirname_body (pre ++ CHAR_FORWARD_SLASH :: seg))
    (length (pre ++ CHAR_FORWARD_SLASH :: seg)) ((-1)%Z, true)
  = if decide (pre = []) then ((-1)%Z, false)
    else (Z.of_nat (length pre), false).
Proof.
  intros Hne Hslash. set (p := pre ++ CHAR_FORWARD_SLASH :: seg).
  assert (Hskip : ∀ k, k ≤ length seg → ∀ e m,
    for_down (path.dirname_body p) (length pre + 1 + k) (e, m)
    = for_down (path.dirname_body p) (length pre + 1)
        (e, if decide (k = 0) then m else false)).
  { induction k as [|k IH]; intros Hk e m.
    - by rewrite Nat.add_0_r.
    - rewrite Nat.add_succ_r. simpl.
      destruct (Z.ltb_spec (Z.of_nat (length pre + 1 + k)) 1) as [|_]; [lia|].
      assert (charCodeAt p (Z.of_nat (length pre + 1 + k))
              = charCodeAt seg (Z.of_nat k)) as ->.
      { unfold charCodeAt, p. rewrite !Nat2Z.id.
        rewrite app_nth2 by lia.
        replace (length pre + 1 + k - length pre) with (S k) by lia. done. }
      rewrite charCodeAt_no_slash by (done || lia).
      rewrite IH by lia. by destruct (decide (k = 0)). }
  assert (length p = length pre + 1 + length seg) as ->.
  { unfold p. rewrite length_app. simpl. lia. }
  rewrite Hskip by done.
  rewrite (decide_False (P := length seg = 0)) by (by destruct seg).
  rewrite Nat.add_1_r. simpl.
  destruct (decide (pre = [])) as [->|Hpre]; [done|].
  destruct (Z.ltb_spec (Z.of_nat (length pre)) 1) as [Hlt|_];
    [destruct pre; [done|simpl in Hlt; lia]|].
  assert (charCodeAt p (Z.of_nat (length pre)) = CHAR_FORWARD_SLASH) as ->.
  { unfold charCodeAt, p. rewrite Nat2Z.id.
    rewrite app_nth2 by lia. by rewrite Nat.sub_diag. }
  done.
Qed.

Lemma dirname_snoc pre seg :
  seg ≠ [] → CHAR_FORWARD_SLASH ∉ seg → 1 < length pre →
  path.dirname (pre ++ CHAR_FORWARD_SLASH :: seg) = pre.
Proof.
  intros Hne Hslash Hpre.
  rewrite dirname_unfold by (by destruct pre).
  rewrite dirname_loop by done.
  rewrite decide_False by (intros ->; simpl in Hpre; lia).
  replace (Z.of_nat (length pre) =? -1)%Z with false
    by (symmetry; apply Z.eqb_neq; lia).
  replace (Z.of_nat (length pre) =? 1)%Z with false
    by (symmetry; apply Z.eqb_neq; lia).
  rewrite andb_false_r. unfold zslice, slice. rewrite Nat2Z.id.
  change (Z.to_nat 0) with 0. by rewrite Nat.sub_0_r, drop_0, take_app_length.
Qed.

Lemma dirname_root_child seg :
  seg ≠ [] → CHAR_FORWARD_SLASH ∉ seg →
  path.dirname (CHAR_FORWARD_SLASH :: seg) = js "/".
Proof.
  intros Hne Hslash. rewrite dirname_unfold by done.
  pose proof (dirname_loop [] seg Hne Hslash) as Hloop.
  change ([] ++ CHAR_FORWARD_SLASH :: seg) with (CHAR_FORWARD_SLASH :: seg)
    in Hloop.
  by rewrite Hloop.
Qed.

Lemma dirname_abs segs seg :
  Forall plain_segment segs → plain_segment seg →
  path.dirname (abs_path (segs ++ [seg]) false) = abs_path segs false.
Proof.
  intros Hsegs (Hne & Hslash & _). unfold abs_path. rewrite !app_nil_r.
  destruct segs as [|s segs].
  - change (join_with [CHAR_FORWARD_SLASH] ([] ++ [seg])) with seg.
    by rewrite dirname_root_child.
  - rewrite join_with_snoc by done.
    change (CHAR_FORWARD_SLASH :: ?a ++ [CHAR_FORWARD_SLASH] ++ seg)
      with ((CHAR_FORWARD_SLASH :: a) ++ CHAR_FORWARD_SLASH :: seg).
    rewrite dirname_snoc; [done..|].
    apply Forall_cons in Hsegs as [(Hs & _) _].
    destruct s as [|c s]; [done|]. destruct segs; simpl; lia.
Qed.

(** ** [path.basename] and [path.extname] on a name without separator *)

Lemma elem_of_zslice s a b c : c ∈ zslice s a b → c ∈ s.
Proof.
  unfold zslice, slice. intros Hc.
  by eapply subseteq_drop, subseteq_take.
Qed.

Lemma extname_elem p c : c ∈ path.extname p → c ∈ p.
Proof.
  unfold path.extname. destruct (_ || _).
  - by intros ?%elem_of_nil.
  - apply elem_of_zslice.
Qed.

Lemma basename1_elem p c : c ∈ path.basename1 p → c ∈ p.
Proof.
  unfold path.basename1. destruct (for_down _ _ _) as [[start end_] m].
  destruct (_ =? _)%Z.
  - by intros ?%elem_of_nil.
  - apply elem_of_zslice.
Qed.

Lemma basename_elem p suffix c : c ∈ path.basename p suffix → c ∈ p.
Proof.
  unfold path.basename. destruct (_ && _); [|apply basename1_elem].
  destruct (str_eqb _ _); [by intros ?%elem_of_nil|]. apply elem_of_zslice.
Qed.



(** ** The file-system model *)

Lemma alookup_aput_eq k v es : alookup k (aput k v es) = Some v.
Proof.
  induction es as [|[k' v'] es IH]; simpl.
  - unfold str_eqb. by rewrite bool_decide_eq_true_2.
  - unfold str_eqb. destruct (bool_decide_reflect (k' = k)) as [->|Hne]; simpl.
    + unfold str_eqb. by rewrite bool_decide_eq_true_2.
    + unfold str_eqb. by rewrite bool_decide_eq_false_2.
Qed.

Lemma alookup_aput_ne k k' v es :
  k ≠ k' → alookup k' (aput k v es) = alookup k' es.
Proof.
  intros Hne. induction es as [|[k0 v0] es IH]; simpl.
  - unfold str_eqb. by rewrite bool_decide_eq_false_2.
  - unfold str_eqb. destruct (bool_decide_reflect (k0 = k)) as [->|Hne0]; simpl.
    + unfold str_eqb. by rewrite !bool_decide_eq_false_2.
    + unfold str_eqb. destruct (bool_decide (k0 = k')); [done|apply IH].
Qed.

Lemma alookup_aremove_ne k k' es :
  k ≠ k' → alookup k' (aremove k es) = alookup k' es.
Proof.
  intros Hne. unfold aremove. induction es as [|[k0 v0] es IH]; [done|].
  destruct (decide (k0 = k)) as [->|Hne0].
  - rewrite filter_cons_False by (simpl; tauto). simpl.
    unfold str_eqb. by rewrite bool_decide_eq_false_2.
  - rewrite filter_cons_True by done. simpl. by rewrite IH.
Qed.

Lemma aremove_names k es : k ∉ (aremove k es).*1.
Proof.
  unfold aremove. intros ([k' v] & -> & [Hne _]%list_elem_of_filter)%list_elem_of_fmap.
  done.
Qed.


Lemma walk_app fs segs more :
  walk fs (segs ++ more)
  = match walk fs segs with inr n => walk n more | inl e => inl e end.
Proof.
  revert fs. induction segs as [|seg segs IH]; intros fs; simpl; [done|].
  destruct fs as [| es sz t |]; try done.
  destruct (alookup seg es); [apply IH|done].
Qed.

Lemma walk_child fs segs es sz t k :
  walk fs segs = inr (Dir es sz t) →
  walk fs (segs ++ [k])
  = match alookup k es with Some c => inr c | None => inl (absent k) end.
Proof. intros Hwalk. rewrite walk_app, Hwalk. simpl. by destruct (alookup k es). Qed.

Lemma update_cons seg seg' segs f es sz t :
  update (seg :: seg' :: segs) f (Dir es sz t)
  = match alookup seg es with
    | Some c =>
        match update (seg' :: segs) f c with
        | inr c' => inr (Dir (aput seg c' es) sz t)
        | inl e => inl e
        end
    | None => inl (absent seg)
    end.
Proof. done. Qed.

Lemma named_inr k f o o' : named k f o = inr o' → f o = inr o'.
Proof. destruct o; simpl; [done|]. by destruct (name_too_long k). Qed.


Lemma named_Some k f c : named k f (Some c) = f (Some c).
Proof. done. Qed.

(** Updating the entry [k] of the directory reached by [segs] changes the
    entries of that directory and nothing on the way to it. *)
Lemma update_dir segs k f fs es sz t :
  walk fs segs = inr (Dir es sz t) →
  match update (segs ++ [k]) f fs with
  | inr fs' =>
      ∃ o, named k f (alookup k es) = inr o
           ∧ walk fs' segs = inr (Dir (aset k o es) sz t)
  | inl e => named k f (alookup k es) = inl e
  end.
Proof.
  revert fs. induction segs as [|seg segs IH]; intros fs Hwalk.
  - simpl in Hwalk. injection Hwalk as ->. simpl.
    destruct (named k f (alookup k es)) as [e|o]; [done|]. by exists o.
  - simpl in Hwalk. destruct fs as [| es0 sz0 t0 |]; try done.
    destruct (alookup seg es0) as [c|] eqn:Hc; [|done].
    specialize (IH c Hwalk).
    assert (∃ seg' segs', segs ++ [k] = seg' :: segs') as (seg' & segs' & Heq).
    { destruct segs; by eexists _, _. }
    change ((seg :: segs) ++ [k]) with (seg :: (segs ++ [k])).
    rewrite Heq, update_cons, Hc, <-Heq.
    destruct (update (segs ++ [k]) f c) as [e|c']; [done|].
    destruct IH as (o & Hf & Hwalk'). exists o. split; [done|].
    simpl. by rewrite alookup_aput_eq.
Qed.

(** No entry is made under a name that is too long. *)
Lemma update_name_too_long segs k f fs es sz t :
  walk fs segs = inr (Dir es sz t) →
  alookup k es = None → name_too_long k = true →
  update (segs ++ [k]) f fs = inl ENAMETOOLONG.
Proof.
  intros Hwalk Hk Hlong.
  pose proof (update_dir segs k f fs es sz t Hwalk) as Hupd.
  rewrite Hk in Hupd. unfold named in Hupd. rewrite Hlong in Hupd.
  destruct (update (segs ++ [k]) f fs) as [e|fs'].
  - by injection Hupd as <-.
  - by destruct Hupd as (o & Ho & _).
Qed.

Lemma trailingSeparator_abs_snoc segs seg :
  plain_segment seg →
  path.trailingSeparator (abs_path (segs ++ [seg]) false) = false.
Proof.
  intros (Hne & Hslash & _). unfold abs_path. rewrite app_nil_r.
  destruct segs as [|s segs].
  - change (CHAR_FORWARD_SLASH :: join_with [CHAR_FORWARD_SLASH] ([] ++ [seg]))
      with ([CHAR_FORWARD_SLASH] ++ seg).
    by apply trailingSeparator_app.
  - rewrite join_with_snoc by done.
    rewrite app_comm_cons, (app_assoc _ [CHAR_FORWARD_SLASH] seg).
    by apply trailingSeparator_app.
Qed.

Lemma fs_lookup_dir fs segs tr es sz t :
  Forall plain_segment segs →
  fs_lookup fs (abs_path segs tr) = inr (Dir es sz t)
  ↔ walk fs segs = inr (Dir es sz t).
Proof.
  intros Hsegs. unfold fs_lookup. rewrite fs_segments_abs by done.
  destruct (walk fs segs) as [e|[c t'|es' sz' t'|]]; try done.
  by destruct (path.trailingSeparator _).
Qed.

Lemma fs_lookup_child fs segs es sz t k :
  Forall plain_segment segs → plain_segment k →
  walk fs segs = inr (Dir es sz t) →
  fs_lookup fs (abs_path (segs ++ [k]) false)
  = match alookup k es with Some c => inr c | None => inl (absent k) end.
Proof.
  intros Hsegs Hk Hwalk. unfold fs_lookup.
  rewrite fs_segments_abs by (apply Forall_app; split; [done|by constructor]).
  rewrite (walk_child _ _ _ _ _ _ Hwalk), trailingSeparator_abs_snoc by done.
  by destruct (alookup k es) as [[]|].
Qed.

Lemma fs_existsSync_child fs segs es sz t k :
  Forall plain_segment segs → plain_segment k →
  walk fs segs = inr (Dir es sz t) →
  fs_existsSync fs (abs_path (segs ++ [k]) false) = statable (alookup k es).
Proof.
  intros Hsegs Hk Hwalk. unfold fs_existsSync, fs_stat.
  rewrite (fs_lookup_child _ _ _ _ _ _ Hsegs Hk Hwalk).
  by destruct (alookup k es) as [[]|].
Qed.

Lemma isValidFileName_plain name :
  isValidFileName name = true → CHAR_FORWARD_SLASH ∉ name → plain_segment name.
Proof.
  intros Hvalid Hslash. repeat split; [|done|..]; by intros ->.
Qed.

Lemma pretty_N_char_digit x :
  (48 ≤ N_of_ascii (pretty_N_char x) ≤ 57)%N.
Proof. unfold pretty_N_char. repeat case_match; vm_compute; split; discriminate. Qed.

Lemma pretty_N_go_digits x s :
  Forall (λ a, (48 ≤ N_of_ascii a ≤ 57)%N) (String.list_ascii_of_string s) →
  Forall (λ a, (48 ≤ N_of_ascii a ≤ 57)%N)
    (String.list_ascii_of_string (pretty_N_go x s)).
Proof.
  revert s. induction (N.lt_wf_0 x) as [x _ IH]; intros s Hs.
  destruct (decide (x = 0%N)) as [->|Hx]; [by rewrite pretty_N_go_0|].
  rewrite pretty_N_go_step by lia. apply IH.
  - apply N.div_lt; lia.
  - simpl. constructor; [apply pretty_N_char_digit|done].
Qed.

Lemma pretty_N_digits (x : N) c : c ∈ js (pretty x) → (48 ≤ c ≤ 57)%N.
Proof.
  unfold js. intros (a & -> & Ha)%list_elem_of_fmap. revert a Ha.
  apply Forall_forall. unfold pretty, pretty_N.
  destruct (decide (x = 0%N)).
  - repeat constructor; by vm_compute.
  - apply pretty_N_go_digits. constructor.
Qed.

Lemma rewritten_name_plain filename now :
  CHAR_FORWARD_SLASH ∉ filename → plain_segment (rewritten_name filename now).
Proof.
  intros Hslash. unfold rewritten_name.
  assert (Hin : CHAR_UNDERSCORE ∈
    path.basename filename (path.extname filename)
    ++ [CHAR_UNDERSCORE] ++ js (pretty now) ++ path.extname filename)
    by set_solver.
  repeat split.
  - intros Heq. rewrite Heq in Hin. by apply elem_of_nil in Hin.
  - rewrite !elem_of_app. intros [H|[H|[H|H]]].
    + by apply basename_elem in H.
    + by apply list_elem_of_singleton in H.
    + apply pretty_N_digits in H. unfold CHAR_FORWARD_SLASH in H. lia.
    + by apply extname_elem in H.
  - intros Heq. rewrite Heq in Hin. vm_compute in Hin. set_solver.
  - intros Heq. rewrite Heq in Hin. vm_compute in Hin. set_solver.
Qed.


(** ** FileTreeService: an upload under a taken name *)




(** ** FileTreeService: a listing after a rename or a delete *)

Lemma childEntry_inv fs rel abs entry e :
  childEntry fs rel abs entry = Some e →
  Entry.name e = entry
  ∧ Entry.path e = path.join [rel; entry]
  ∧ fs_existsSync fs (path.join [abs; entry]) = true.
Proof.
  unfold childEntry, fs_existsSync.
  destruct (fs_stat fs _) as [|stats]; [done|].
  by destruct (isDirectory stats); intros [= <-].
Qed.





Lemma rename_onto_inr src target o :
  rename_onto src target = inr o → o = Some src.
Proof.
  unfold rename_onto.
  destruct target as [[c t|[|? ?] sz t|]|], src as [c' t'|es' sz' t'|];
    by intros [= <-].
Qed.

Lemma snoc_prefix_inv {A} (l : list A) a b :
  (l ++ [a]) `prefix_of` (l ++ [b]) → a = b.
Proof.
  intros Hpre. apply prefix_length_eq in Hpre.
  - by apply app_inj_1 in Hpre as [_ [= ->]].
  - rewrite !length_app. simpl. lia.
Qed.





(** ** Ordinary relative paths resolve to themselves *)

Lemma ordinary_no_sep seg c : ordinary_segment seg → c ∈ seg → is_sep c = false.
Proof.
  intros [(_ & Hslash & _) Hback] Hc. unfold is_sep.
  apply orb_false_iff. split; apply N.eqb_neq; by intros ->.
Qed.

Lemma join_with_cons sep seg segs :
  segs ≠ [] → join_with sep (seg :: segs) = seg ++ sep ++ join_with sep segs.
Proof. by destruct segs. Qed.

Lemma normalize_relative segs :
  Forall plain_segment segs → segs ≠ [] →
  path.normalize (join_with [CHAR_FORWARD_SLASH] segs)
  = join_with [CHAR_FORWARD_SLASH] segs.
Proof.
  intros Hsegs Hne. set (p := join_with [CHAR_FORWARD_SLASH] segs).
  assert (Hp : ∃ c p', p = c :: p' ∧ c ≠ CHAR_FORWARD_SLASH).
  { unfold p. destruct segs as [|s segs]; [done|].
    apply Forall_cons in Hsegs as [(Hs & Hslash & _) _].
    destruct s as [|c s]; [done|]. exists c.
    destruct segs; eexists; (split; [reflexivity|]); intros ->;
      apply Hslash; by left. }
  destruct Hp as (c & p' & Hp & Hc).
  assert (Htr : path.trailingSeparator p = false).
  { unfold p. destruct segs as [|s segs _] using rev_ind; [done|].
    apply Forall_app in Hsegs as [_ Hs]. apply Forall_inv in Hs.
    destruct Hs as (Hs & Hslash & _).
    destruct (decide (segs = [])) as [->|Hsegs_ne].
    - by apply (trailingSeparator_app []).
    - rewrite join_with_snoc, app_assoc by done.
      by apply trailingSeparator_app. }
  assert (Hns : path.normalizeString p true = p).
  { unfold path.normalizeString. rewrite norm_fold_segments. unfold p.
    by rewrite fs_segments_join, norm_fold_plain, app_nil_r,
      reverse_involutive. }
  assert (Habs : path.isAbsolute p = false).
  { rewrite Hp. by apply N.eqb_neq. }
  unfold path.normalize. rewrite Habs, Htr. cbn [negb]. rewrite Hns.
  by rewrite Hp.
Qed.

Lemma strip_leading_dotdots_segment seg rest :
  ordinary_segment seg →
  rest = [] ∨ (∃ q, rest = CHAR_FORWARD_SLASH :: q) →
  strip_leading_dotdots (seg ++ rest) = seg ++ rest.
Proof.
  intros Hseg Hrest. pose proof Hseg as [(Hne & _ & _ & Hdd) _].
  destruct seg as [|a [|b [|c seg]]]; [done| | |].
  - destruct Hrest as [->|(q & ->)]; [done|].
    destruct q as [|c q]; [done|]. simpl.
    by rewrite andb_false_r.
  - destruct Hrest as [->|(q & ->)]; [done|]. simpl.
    destruct (N.eqb_spec a CHAR_DOT) as [->|]; [|done].
    destruct (N.eqb_spec b CHAR_DOT) as [->|]; [|done]. done.
  - simpl. rewrite (ordinary_no_sep _ c Hseg) by set_solver.
    by rewrite andb_false_r.
Qed.

Lemma collapse_dotdots_no_match p :
  (∀ pre a d t,
     p = pre ++ a :: CHAR_DOT :: CHAR_DOT :: d :: t →
     is_sep a && is_sep d = false) →
  collapse_dotdots p = p.
Proof.
  induction p as [|a p IH]; intros Hno; [done|].
  assert (Hp : collapse_dotdots p = p).
  { apply IH. intros pre a' d t ->. by apply (Hno (a :: pre) a' d t). }
  destruct p as [|b [|c [|d t]]]; simpl in *; try by rewrite ?Hp.
  destruct (is_sep a && N.eqb b CHAR_DOT && N.eqb c CHAR_DOT && is_sep d)
    eqn:Hmatch; [|by rewrite Hp].
  apply andb_true_iff in Hmatch as [[[Ha Hb]%andb_true_iff Hc]%andb_true_iff Hd].
  apply N.eqb_eq in Hb as ->. apply N.eqb_eq in Hc as ->.
  specialize (Hno [] a d t eq_refl). rewrite Ha, Hd in Hno. done.
Qed.

Lemma elem_of_join_with c segs :
  c ∈ join_with [CHAR_FORWARD_SLASH] segs →
  c = CHAR_FORWARD_SLASH ∨ ∃ seg, seg ∈ segs ∧ c ∈ seg.
Proof.
  induction segs as [|s segs IH]; [by intros ?%elem_of_nil|].
  destruct (decide (segs = [])) as [->|Hne].
  - intros Hc. right. exists s. split; [by left|done].
  - rewrite join_with_cons by done. rewrite !elem_of_app.
    intros [Hc|[Hc%list_elem_of_singleton|Hc]].
    + right. exists s. split; [by left|done].
    + by left.
    + destruct (IH Hc) as [?|(seg & Hseg & ?)]; [by left|].
      right. exists seg. split; [by right|done].
Qed.

Lemma collapse_dotdots_ordinary segs :
  Forall ordinary_segment segs →
  collapse_dotdots (join_with [CHAR_FORWARD_SLASH] segs)
  = join_with [CHAR_FORWARD_SLASH] segs.
Proof.
  intros Hsegs. apply collapse_dotdots_no_match. intros pre a d t Heq.
  assert (Hplain : Forall plain_segment segs).
  { eapply Forall_impl; [exact Hsegs|]. by intros seg [? _]. }
  assert (Hsep : ∀ c, c ∈ join_with [CHAR_FORWARD_SLASH] segs →
                      is_sep c = true → c = CHAR_FORWARD_SLASH).
  { intros c [->|(seg & Hseg & Hc)]%elem_of_join_with Hc'; [done|].
    rewrite Forall_forall in Hsegs.
    by rewrite (ordinary_no_sep seg c (Hsegs seg Hseg) Hc) in Hc'. }
  destruct (is_sep a) eqn:Ha; [|done].
  destruct (is_sep d) eqn:Hd; [|done]. exfalso.
  apply Hsep in Ha as ->; [|rewrite Heq; set_solver].
  apply Hsep in Hd as ->; [|rewrite Heq; set_solver].
  apply (f_equal fs_segments) in Heq.
  rewrite fs_segments_join in Heq by done.
  rewrite fs_segments_app in Heq.
  change (CHAR_DOT :: CHAR_DOT :: CHAR_FORWARD_SLASH :: t)
    with ([CHAR_DOT; CHAR_DOT] ++ CHAR_FORWARD_SLASH :: t) in Heq.
  rewrite fs_segments_app in Heq.
  assert (Hdd : js ".." ∈ segs).
  { rewrite Heq. apply elem_of_app. right. apply elem_of_app. left.
    by vm_compute; left. }
  rewrite Forall_forall in Hplain. by destruct (Hplain _ Hdd) as (_ & _ & _ & ?).
Qed.

Lemma sanitizePath_ordinary segs :
  Forall ordinary_segment segs →
  sanitizePath (join_with [CHAR_FORWARD_SLASH] segs)
  = join_with [CHAR_FORWARD_SLASH] segs.
Proof.
  intros Hsegs.
  assert (Hplain : Forall plain_segment segs).
  { eapply Forall_impl; [exact Hsegs|]. by intros seg [? _]. }
  destruct segs as [|s segs]; [done|].
  unfold sanitizePath.
  destruct (join_with [CHAR_FORWARD_SLASH] (s :: segs)) as [|c p] eqn:Hp;
    [done|]. rewrite <-Hp. clear c p Hp.
  rewrite normalize_relative by done.
  pose proof (Forall_inv Hsegs) as Hs.
  assert (Hstrip :
    strip_leading_dotdots (join_with [CHAR_FORWARD_SLASH] (s :: segs))
    = join_with [CHAR_FORWARD_SLASH] (s :: segs)).
  { destruct (decide (segs = [])) as [->|Hne].
    - rewrite <-(app_nil_r (join_with _ _)).
      apply strip_leading_dotdots_segment; [done|by left].
    - rewrite join_with_cons by done.
      apply strip_leading_dotdots_segment; [done|]. right. by eexists. }
  rewrite Hstrip, collapse_dotdots_ordinary by done.
  destruct s as [|c s]; [by destruct Hs as [(? & _) _]|].
  assert (is_sep c = false) by (apply (ordinary_no_sep _ c Hs); by left).
  destruct segs; simpl; by rewrite H.
Qed.

Lemma ROOT_DIR_abs dir :
  path.isAbsolute dir = true →
  ∃ rs, Forall plain_segment rs ∧ rs ≠ []
        ∧ ROOT_DIR dir = abs_path rs false.
Proof.
  intros Habs. assert (Hne : dir ≠ []) by (by intros ->).
  unfold ROOT_DIR, path.join. rewrite !filter_cons_True by done.
  rewrite filter_nil.
  change (join_with [CHAR_FORWARD_SLASH] [dir; js "files"])
    with (dir ++ CHAR_FORWARD_SLASH :: js "files").
  destruct (normalize_abs (dir ++ CHAR_FORWARD_SLASH :: js "files"))
    as (rs & Hrs & Heq & ->); [by destruct dir|].
  rewrite fs_segments_app, fold_left_app in Heq.
  assert (Hfiles : plain_segment (js "files")).
  { repeat split; try done. apply (bool_decide_unpack _). by vm_compute. }
  rewrite (fs_segments_seg (js "files")) in Heq by apply Hfiles.
  simpl in Heq. rewrite norm_step_plain, reverse_cons in Heq by done.
  exists rs. split; [done|]. split.
  { subst rs. by destruct (reverse _). }
  change (dir ++ CHAR_FORWARD_SLASH :: js "files")
    with (dir ++ [CHAR_FORWARD_SLASH] ++ js "files").
  rewrite app_assoc, trailingSeparator_app; [done|done|apply Hfiles].
Qed.

Lemma join_abs_segments segs tr xs :
  Forall plain_segment segs → Forall plain_segment xs → xs ≠ [] →
  path.join [abs_path segs tr; join_with [CHAR_FORWARD_SLASH] xs]
  = abs_path (segs ++ xs) false.
Proof.
  intros Hsegs Hxs Hne.
  induction xs as [|x xs IH] using rev_ind; [done|]. clear Hne.
  apply Forall_app in Hxs as [Hxs Hx]. apply Forall_inv in Hx.
  destruct (decide (xs = [])) as [->|Hne].
  - by apply join_abs_segment.
  - assert (Hjoin : join_with [CHAR_FORWARD_SLASH] (xs ++ [x]) ≠ []).
    { rewrite join_with_snoc by done. by destruct (join_with _ xs). }
    unfold path.join. rewrite !filter_cons_True by done. rewrite filter_nil.
    change (join_with [CHAR_FORWARD_SLASH]
              [abs_path segs tr; join_with [CHAR_FORWARD_SLASH] (xs ++ [x])])
      with (abs_path segs tr
            ++ CHAR_FORWARD_SLASH :: join_with [CHAR_FORWARD_SLASH] (xs ++ [x])).
    destruct (normalize_abs
                (abs_path segs tr ++ CHAR_FORWARD_SLASH
                 :: join_with [CHAR_FORWARD_SLASH] (xs ++ [x])))
      as (segs' & _ & Hsegs' & ->); [done|].
    assert (Hall : Forall plain_segment (xs ++ [x])).
    { apply Forall_app. split; [done|by constructor]. }
    rewrite fs_segments_app, fs_segments_abs, fs_segments_join in Hsegs'
      by done.
    rewrite norm_fold_plain, app_nil_r, reverse_involutive in Hsegs'
      by (by apply Forall_app).
    subst segs'.
    rewrite join_with_snoc by done.
    destruct Hx as (Hx & Hslash & _).
    replace (abs_path segs tr ++ CHAR_FORWARD_SLASH
             :: join_with [CHAR_FORWARD_SLASH] xs ++ [CHAR_FORWARD_SLASH] ++ x)
      with ((abs_path segs tr ++ CHAR_FORWARD_SLASH
             :: join_with [CHAR_FORWARD_SLASH] xs ++ [CHAR_FORWARD_SLASH]) ++ x)
      by (rewrite <-(app_assoc (abs_path segs tr)), <-app_comm_cons;
          by rewrite <-app_assoc).
    by rewrite trailingSeparator_app.
Qed.

Lemma normalize_abs_path segs :
  Forall plain_segment segs →
  path.normalize (abs_path segs false) = abs_path segs false.
Proof.
  intros Hsegs.
  destruct (normalize_abs (abs_path segs false)) as (segs' & _ & Heq & ->);
    [done|].
  rewrite fs_segments_abs, norm_fold_plain, app_nil_r, reverse_involutive in Heq
    by done.
  subst segs'. destruct (path.trailingSeparator _ && _) eqn:Htr; [|done].
  apply andb_true_iff in Htr as [Htr Hne%bool_decide_eq_true].
  destruct segs as [|s segs _] using rev_ind; [done|].
  apply Forall_app in Hsegs as [_ Hs]. apply Forall_inv in Hs.
  by rewrite trailingSeparator_abs_snoc in Htr.
Qed.

Lemma startsWith_app a b : startsWith (a ++ b) a = true.
Proof.
  induction a as [|c a IH]; simpl; [by destruct b|].
  by rewrite N.eqb_refl, IH.
Qed.

Lemma join_with_app sep l1 l2 :
  l1 ≠ [] → l2 ≠ [] →
  join_with sep (l1 ++ l2) = join_with sep l1 ++ sep ++ join_with sep l2.
Proof.
  intros Hl1 Hl2. induction l1 as [|x l1 IH]; [done|].
  destruct (decide (l1 = [])) as [->|Hne].
  - by apply join_with_cons.
  - rewrite <-app_comm_cons, !join_with_cons, IH by (done || by destruct l1).
    by rewrite <-!app_assoc.
Qed.

Lemma abs_path_app rs xs :
  rs ≠ [] → xs ≠ [] →
  abs_path (rs ++ xs) false
  = abs_path rs false ++ CHAR_FORWARD_SLASH :: join_with [CHAR_FORWARD_SLASH] xs.
Proof.
  intros Hrs Hxs. unfold abs_path.
  rewrite !app_nil_r, join_with_app by done. by rewrite app_comm_cons.
Qed.

(** A relative path made of ordinary segments resolves to the location
    of these segments under the root. *)
Lemma resolvePath_ordinary dir xs :
  path.isAbsolute dir = true → Forall ordinary_segment xs →
  resolvePath dir (join_with [CHAR_FORWARD_SLASH] xs)
  = inr (abs_path (root_segments dir ++ xs) false)
  ∧ within (ROOT_DIR dir) (abs_path (root_segments dir ++ xs) false) = true.
Proof.
  intros Habs Hxs.
  assert (Hplain : Forall plain_segment xs).
  { eapply Forall_impl; [exact Hxs|]. by intros seg [? _]. }
  destruct (ROOT_DIR_abs dir Habs) as (rs & Hrs & Hne & Hroot).
  assert (root_segments dir = rs) as ->.
  { unfold root_segments. by rewrite Hroot, fs_segments_abs. }
  unfold resolvePath, within. rewrite sanitizePath_ordinary, Hroot by done.
  destruct (decide (xs = [])) as [->|Hxs_ne].
  - rewrite app_nil_r. unfold path.join. rewrite filter_cons_True by done.
    rewrite filter_cons_False by (by intros ?). rewrite filter_nil.
    change (join_with [CHAR_FORWARD_SLASH] [abs_path rs false])
      with (abs_path rs false).
    rewrite !normalize_abs_path by done.
    rewrite <-(app_nil_r (abs_path rs false)) at 1.
    rewrite startsWith_app. cbn [negb]. split; [done|].
    unfold str_eqb. by rewrite bool_decide_eq_true_2.
  - rewrite join_abs_segments, normalize_abs_path
      by (done || by apply Forall_app).
    rewrite abs_path_app by done.
    rewrite startsWith_app. cbn [negb]. split; [done|].
    change (abs_path rs false ++ CHAR_FORWARD_SLASH :: ?q)
      with (abs_path rs false ++ [CHAR_FORWARD_SLASH] ++ q).
    by rewrite app_assoc, startsWith_app, orb_true_r.
Qed.

Lemma join_relative_segment xs name :
  Forall plain_segment xs → plain_segment name →
  path.join [join_with [CHAR_FORWARD_SLASH] xs; name]
  = join_with [CHAR_FORWARD_SLASH] (xs ++ [name]).
Proof.
  intros Hplain Hname. pose proof Hname as (Hne & _).
  unfold path.join. destruct (decide (xs = [])) as [->|Hxs_ne].
  - rewrite filter_cons_False by (by intros ?).
    rewrite filter_cons_True by done. rewrite filter_nil.
    apply (normalize_relative [name]); [by constructor|done].
  - assert (join_with [CHAR_FORWARD_SLASH] xs ≠ []).
    { destruct xs as [|x xs]; [done|].
      apply Forall_cons in Hplain as [(Hx & _) _].
      destruct x; [done|]. by destruct xs. }
    rewrite !filter_cons_True by done. rewrite filter_nil.
    change (join_with [CHAR_FORWARD_SLASH]
              [join_with [CHAR_FORWARD_SLASH] xs; name])
      with (join_with [CHAR_FORWARD_SLASH] xs ++ [CHAR_FORWARD_SLASH]
            ++ name).
    rewrite <-join_with_snoc by done.
    apply normalize_relative; [|by destruct xs].
    apply Forall_app. split; [done|by constructor].
Qed.

(** The path [listFiles] gives to a child with an ordinary name, in a
    directory named by ordinary segments, resolves to the child. *)
Lemma child_path_resolves dir xs name absX :
  path.isAbsolute dir = true →
  Forall ordinary_segment xs → ordinary_segment name →
  resolvePath dir (join_with [CHAR_FORWARD_SLASH] xs) = inr absX →
  resolvePath dir (path.join [join_with [CHAR_FORWARD_SLASH] xs; name])
  = inr (path.join [absX; name]).
Proof.
  intros Habs Hxs Hname Hres.
  assert (Hplain : Forall plain_segment xs).
  { eapply Forall_impl; [exact Hxs|]. by intros seg [? _]. }
  destruct (ROOT_DIR_abs dir Habs) as (rs & Hrs & Hne & Hroot).
  assert (Hrs' : root_segments dir = rs).
  { unfold root_segments. by rewrite Hroot, fs_segments_abs. }
  destruct (resolvePath_ordinary dir xs Habs Hxs) as [Hres' _].
  rewrite Hres' in Hres. injection Hres as <-.
  rewrite join_relative_segment by (done || apply Hname).
  destruct (resolvePath_ordinary dir (xs ++ [name]) Habs) as [-> _].
  { apply Forall_app. split; [done|by constructor]. }
  rewrite join_abs_segment; [by rewrite app_assoc| |apply Hname].
  rewrite Hrs'. by apply Forall_app.
Qed.

Lemma onlyDots_spec s :
  onlyDots s = true ↔ s ≠ [] ∧ Forall (λ c, c = CHAR_DOT) s.
Proof.
  unfold onlyDots. rewrite andb_true_iff, bool_decide_eq_true.
  rewrite forallb_forall, Forall_forall.
  split; intros [H1 H2]; (split; [done|]); intros c Hc.
  - apply list_elem_of_In in Hc. apply H2 in Hc. by apply N.eqb_eq in Hc.
  - apply list_elem_of_In in Hc. apply H2 in Hc. rewrite Hc. apply N.eqb_refl.
Qed.

(** X1. [isValidFileName] accepts exactly the names that are not empty, at
    most 255 characters long, free of the forbidden characters, whose base
    name without extension is no reserved device name, and that are not
    made of dots only. *)
Theorem isValidFileName_accepts_exactly name :
  isValidFileName name = true ↔
  name ≠ [] ∧ length name ≤ 255
  ∧ (∀ c, c ∈ name → ¬ forbidden_char c)
  ∧ (toLowerCase (path.basename name (path.extname name)) ∉ device_names)
  ∧ ¬ Forall (λ c, c = CHAR_DOT) name.
Proof.
  unfold isValidFileName.
  destruct name as [|c0 name]; [split; [done|by intros [? _]]|].
  set (nm := c0 :: name).
  assert (Hlen0 : bool_decide (length nm = 0) = false)
    by (by apply bool_decide_eq_false).
  rewrite Hlen0, orb_false_l.
  destruct (bool_decide (255 < length nm)) eqn:Hlen.
  { apply bool_decide_eq_true in Hlen. split; [done|]. intros (_ & ? & _). lia. }
  apply bool_decide_eq_false in Hlen.
  destruct (existsb invalidChar nm) eqn:Hinv.
  { split; [done|]. intros (_ & _ & Hc & _).
    apply existsb_exists in Hinv as (c & Hin%list_elem_of_In & Hbad).
    apply invalidChar_spec in Hbad. by destruct (Hc c Hin). }
  destruct (reservedNames _) eqn:Hres.
  { split; [done|]. intros (_ & _ & _ & Hdev & _).
    apply reservedNames_spec in Hres. done. }
  destruct (onlyDots nm) eqn:Hdots.
  { split; [done|]. intros (_ & _ & _ & _ & Hnd).
    apply onlyDots_spec in Hdots as [_ Hd]. done. }
  split; [intros _|done].
  split; [done|]. split; [lia|]. split; [|split].
  - intros c Hin Hbad. apply invalidChar_spec in Hbad.
    assert (existsb invalidChar nm = true); [|congruence].
    apply existsb_exists. exists c. split; [by apply list_elem_of_In|done].
  - intros Hdev. apply reservedNames_spec in Hdev. congruence.
  - intros Hd. assert (onlyDots nm = true); [|congruence].
    apply onlyDots_spec. done.
Qed.

(** ** sanitizePath *)

Lemma strip_leading_seps_head s :
  match strip_leading_seps s with
  | c :: _ => is_sep c = false
  | [] => True
  end.
Proof.
  induction s as [|c s IH]; [done|]. simpl.
  destruct (is_sep c) eqn:Hc; [done|]. done.
Qed.

(** X2. What [sanitizePath] returns never starts with a separator: it is
    a relative path, whatever the input. *)
Theorem sanitizePath_relative userPath :
  path.isAbsolute (sanitizePath userPath) = false
  ∧ head (sanitizePath userPath) ≠ Some CHAR_BACKWARD_SLASH.
Proof.
  unfold sanitizePath. destruct userPath as [|c0 p]; [done|].
  set (s := collapse_dotdots _).
  pose proof (strip_leading_seps_head s) as H.
  destruct (strip_leading_seps s) as [|c t]; [done|].
  unfold is_sep in H. apply orb_false_iff in H as [H1 H2].
  split; [exact H1|]. simpl. intros [= ->]. done.
Qed.

(** ** getMimeType and isImage *)

Lemma extname_no_dot p : CHAR_DOT ∉ p → path.extname p = [].
Proof.
  intros Hdot. unfold path.extname.
  pattern (for_down (path.extname_body p) (length p)
             (path.EState (-1) 0 (-1) true 0)).
  apply for_down_inv with
    (I := λ m st, m ≤ length p ∧ path.e_startDot st = (-1)%Z).
  - done.
  - intros k st [Hk Hst]. unfold path.extname_body.
    assert (N.eqb (charCodeAt p (Z.of_nat k)) CHAR_DOT = false) as ->.
    { apply N.eqb_neq. intros Heq. apply Hdot. rewrite <- Heq.
      apply charCodeAt_elem. lia. }
    destruct (N.eqb _ CHAR_FORWARD_SLASH).
    + destruct (negb _); simpl; [by rewrite Hst|]. split; [lia|done].
    + destruct (path.e_end st =? -1)%Z; simpl; rewrite Hst; simpl;
        (split; [lia|done]).
  - intros st [_ Hst]. by rewrite Hst.
Qed.

Lemma ascii_lower_fixed c k :
  ascii_lower c = k → (k < 65 ∨ 90 < k)%N → (k < 97 ∨ 122 < k)%N → c = k.
Proof.
  unfold ascii_lower.
  destruct (_ && _) eqn:H; [|done].
  apply andb_true_iff in H as [H1%N.leb_le H2%N.leb_le]. lia.
Qed.

Lemma toLowerCase_elem s c : c ∈ toLowerCase s ↔ ∃ d, d ∈ s ∧ c = ascii_lower d.
Proof.
  unfold toLowerCase. rewrite list_elem_of_fmap. naive_solver.
Qed.

Lemma toLowerCase_keeps s k :
  (k < 65 ∨ 90 < k)%N → (k < 97 ∨ 122 < k)%N → k ∈ toLowerCase s ↔ k ∈ s.
Proof.
  intros H1 H2. rewrite toLowerCase_elem. split.
  - intros (d & Hd & Heq). symmetry in Heq.
    by rewrite <- (ascii_lower_fixed d k Heq H1 H2).
  - intros Hk. exists k. split; [done|]. unfold ascii_lower.
    destruct (_ && _) eqn:H; [|done].
    apply andb_true_iff in H as [?%N.leb_le ?%N.leb_le]. lia.
Qed.

Lemma toLowerCase_app a b : toLowerCase (a ++ b) = toLowerCase a ++ toLowerCase b.
Proof. apply map_app. Qed.

(** X3. The type [getMimeType] reports depends on the extension only,
    compared without regard to the case of the letters A-Z; a name without
    a dot has the default type. *)
Theorem getMimeType_by_extension :
  (∀ name, CHAR_DOT ∉ name → getMimeType name = js "application/octet-stream")
  ∧ (∀ b b' x x',
       b ≠ [] → CHAR_FORWARD_SLASH ∉ b →
       b' ≠ [] → CHAR_FORWARD_SLASH ∉ b' →
       x ≠ [] → CHAR_DOT ∉ x → CHAR_FORWARD_SLASH ∉ x →
       toLowerCase x' = toLowerCase x →
       getMimeType (b' ++ CHAR_DOT :: x') = getMimeType (b ++ CHAR_DOT :: x)).
Proof.
  split.
  - intros name Hdot. unfold getMimeType. by rewrite extname_no_dot.
  - intros b b' x x' Hb Hbs Hb' Hbs' Hx Hxd Hxs Hlow.
    assert (Hx' : x' ≠ []).
    { intros ->. destruct x; [done|discriminate Hlow]. }
    assert (Hxd' : CHAR_DOT ∉ x').
    { intros Hin. apply Hxd.
      apply (toLowerCase_keeps x CHAR_DOT); [by left|by left|].
      rewrite <- Hlow. apply toLowerCase_keeps; [by left|by left|done]. }
    assert (Hxs' : CHAR_FORWARD_SLASH ∉ x').
    { intros Hin. apply Hxs.
      apply (toLowerCase_keeps x CHAR_FORWARD_SLASH); [by left|by left|].
      rewrite <- Hlow. apply toLowerCase_keeps; [by left|by left|done]. }
    unfold getMimeType.
    rewrite (extname_extension b x), (extname_extension b' x') by done.
    change (toLowerCase (CHAR_DOT :: ?y)) with (CHAR_DOT :: toLowerCase y).
    by rewrite Hlow.
Qed.

Lemma getMimeType_by_extension_witness :
  getMimeType (js "notes") = js "application/octet-stream"
  ∧ getMimeType (js "Photo" ++ CHAR_DOT :: js "JPG")
    = getMimeType (js "a" ++ CHAR_DOT :: js "jpg").
Proof.
  destruct getMimeType_by_extension as [Hnone Hext].
  split.
  - apply Hnone. vm_compute. set_solver.
  - apply Hext; try discriminate; vm_compute; set_solver.
Defined.

(** X4. Every name [isImage] accepts has a type of the family [image/]
    under [getMimeType]. *)
Theorem isImage_mime name :
  isImage name = true →
  startsWith (getMimeType name) (js "image/") = true.
Proof.
  unfold isImage, getMimeType.
  generalize (toLowerCase (path.extname name)) as ext. intros ext Hin.
  apply bool_decide_eq_true in Hin. simpl in Hin.
  repeat (apply elem_of_cons in Hin as [-> | Hin]; [by vm_compute|]).
  by apply elem_of_nil in Hin.
Qed.

Lemma isImage_mime_witness :
  startsWith (getMimeType (js "Logo.PNG")) (js "image/") = true.
Proof. apply isImage_mime. vm_compute. reflexivity. Defined.

(** ** escapeHtml *)

Lemma escapeHtml_class_spec c :
  escapeHtml_class c = true ↔
  c = CHAR_AMPERSAND ∨ c = CHAR_LESS_THAN ∨ c = CHAR_GREATER_THAN
  ∨ c = CHAR_QUOTE ∨ c = CHAR_APOSTROPHE.
Proof.
  unfold escapeHtml_class. rewrite !orb_true_iff, !N.eqb_eq.
  unfold CHAR_AMPERSAND, CHAR_LESS_THAN, CHAR_GREATER_THAN, CHAR_QUOTE,
    CHAR_APOSTROPHE. tauto.
Qed.

Lemma escapeHtml_char_plain c :
  escapeHtml_class c = false → escapeHtml_char c = [c].
Proof. intros H. unfold escapeHtml_char. by rewrite H. Qed.

Lemma escapeHtml_cons c text :
  escapeHtml (c :: text) = escapeHtml_char c ++ escapeHtml text.
Proof. done. Qed.

Lemma escapeHtml_char_inj x y r r' :
  escapeHtml_char x ++ r = escapeHtml_char y ++ r' → x = y ∧ r = r'.
Proof.
  destruct (escapeHtml_class x) eqn:Hx, (escapeHtml_class y) eqn:Hy.
  - apply escapeHtml_class_spec in Hx, Hy.
    destruct Hx as [->|[->|[->|[->| ->]]]], Hy as [->|[->|[->|[->| ->]]]];
      vm_compute; intros H; by simplify_eq.
  - rewrite (escapeHtml_char_plain y Hy).
    apply escapeHtml_class_spec in Hx.
    destruct Hx as [->|[->|[->|[->| ->]]]]; vm_compute; intros H;
      simplify_eq; by vm_compute in Hy.
  - rewrite (escapeHtml_char_plain x Hx).
    apply escapeHtml_class_spec in Hy.
    destruct Hy as [->|[->|[->|[->| ->]]]]; vm_compute; intros H;
      simplify_eq; by vm_compute in Hx.
  - rewrite (escapeHtml_char_plain x Hx), (escapeHtml_char_plain y Hy).
    intros H. by simplify_eq.
Qed.

Lemma escapeHtml_char_nonempty c : escapeHtml_char c ≠ [].
Proof.
  destruct (escapeHtml_class c) eqn:Hc.
  - apply escapeHtml_class_spec in Hc.
    by destruct Hc as [->|[->|[->|[->| ->]]]]; vm_compute.
  - by rewrite escapeHtml_char_plain.
Qed.

Lemma elem_of_escapeHtml text c :
  c ∈ escapeHtml text → ∃ t, t ∈ text ∧ c ∈ escapeHtml_char t.
Proof.
  induction text as [|t text IH]; [by intros ?%elem_of_nil|].
  rewrite escapeHtml_cons, elem_of_app. intros [Hc | Hc].
  - exists t. split; [by left|done].
  - destruct (IH Hc) as (t' & Ht' & Hc'). exists t'. split; [by right|done].
Qed.

(** X5. What [escapeHtml] returns holds no less-than or greater-than sign
    and no double or single quote; text without the five special
    characters comes back as it is; and different texts have different
    escaped forms, so nothing is lost. *)
Theorem escapeHtml_safe :
  (∀ text c,
     c ∈ escapeHtml text →
     c ∉ [CHAR_LESS_THAN; CHAR_GREATER_THAN; CHAR_QUOTE; CHAR_APOSTROPHE])
  ∧ (∀ text,
       (∀ c, c ∈ text → escapeHtml_class c = false) → escapeHtml text = text)
  ∧ (∀ a b, escapeHtml a = escapeHtml b → a = b).
Proof.
  split; [|split].
  - intros text c Hin.
    apply elem_of_escapeHtml in Hin as (t & _ & Hc).
    destruct (escapeHtml_class t) eqn:Ht.
    + apply escapeHtml_class_spec in Ht.
      destruct Ht as [->|[->|[->|[->| ->]]]]; vm_compute in Hc;
        repeat (apply elem_of_cons in Hc as [-> | Hc]; [by vm_compute; set_solver|]);
        by apply elem_of_nil in Hc.
    + rewrite (escapeHtml_char_plain t Ht) in Hc.
      apply list_elem_of_singleton in Hc as ->.
      intros Hbad. assert (escapeHtml_class t = true); [|congruence].
      apply escapeHtml_class_spec. set_solver.
  - induction text as [|c text IH]; intros Hplain; [done|].
    rewrite escapeHtml_cons, escapeHtml_char_plain by (apply Hplain; by left).
    simpl. f_equal. apply IH. intros d Hd. apply Hplain. by right.
  - induction a as [|x a IH]; intros [|y b] Heq.
    + done.
    + rewrite escapeHtml_cons in Heq. symmetry in Heq.
      apply app_eq_nil in Heq as [Heq _]. by apply escapeHtml_char_nonempty in Heq.
    + rewrite escapeHtml_cons in Heq.
      apply app_eq_nil in Heq as [Heq _]. by apply escapeHtml_char_nonempty in Heq.
    + rewrite !escapeHtml_cons in Heq.
      apply escapeHtml_char_inj in Heq as [-> Heq]. f_equal. by apply IH.
Qed.

Lemma escapeHtml_safe_witness :
  (CHAR_GREATER_THAN ∉ escapeHtml (js "<b>Tom & Jerry</b>"))
  ∧ escapeHtml (js "report_2024.pdf") = js "report_2024.pdf".
Proof.
  destruct escapeHtml_safe as (Hsafe & Hplain & _).
  split.
  - intros Hin. apply Hsafe in Hin. apply Hin. set_solver.
  - apply Hplain. intros c Hc. vm_compute in Hc.
    repeat (apply elem_of_cons in Hc as [-> | Hc]; [by vm_compute|]).
    by apply elem_of_nil in Hc.
Defined.

(** ** extractBoundary *)

Lemma until_semicolon_app v rest :
  CHAR_SEMICOLON ∉ v → (rest = [] ∨ head rest = Some CHAR_SEMICOLON) →
  until_semicolon (v ++ rest) = v.
Proof.
  intros Hv Hrest. induction v as [|c v IH]; simpl.
  - destruct Hrest as [-> | Hrest]; [done|].
    destruct rest as [|r rest]; [done|]. injection Hrest as ->. done.
  - apply not_elem_of_cons in Hv as [Hc Hv].
    destruct (N.eqb c CHAR_SEMICOLON) eqn:Heq; [by apply N.eqb_eq in Heq|].
    f_equal. by apply IH.
Qed.

Lemma match_boundary_unfold s :
  match_boundary s =
  match (if startsWith s (js "boundary=")
         then match until_semicolon (drop 9 s) with
              | [] => None
              | v => Some v
              end
         else None) with
  | Some v => Some v
  | None => match s with [] => None | _ :: s' => match_boundary s' end
  end.
Proof. by destruct s. Qed.

Lemma match_boundary_found pre v rest :
  98%N ∉ pre → v ≠ [] → CHAR_SEMICOLON ∉ v →
  (rest = [] ∨ head rest = Some CHAR_SEMICOLON) →
  match_boundary (pre ++ js "boundary=" ++ v ++ rest) = Some v.
Proof.
  intros Hpre Hv Hsemi Hrest. induction pre as [|c pre IH].
  - rewrite match_boundary_unfold. rewrite app_nil_l, startsWith_app.
    change 9 with (length (js "boundary=")). rewrite drop_app_length.
    rewrite until_semicolon_app by done. by destruct v.
  - apply not_elem_of_cons in Hpre as [Hc Hpre].
    rewrite match_boundary_unfold.
    assert (startsWith ((c :: pre) ++ js "boundary=" ++ v ++ rest)
              (js "boundary=") = false) as ->.
    { change (js "boundary=") with (98%N :: js "oundary=") at 2.
      change ((c :: pre) ++ ?t) with (c :: (pre ++ t)).
      cbn [startsWith].
      assert (N.eqb 98 c = false) as -> by (apply N.eqb_neq; congruence).
      done. }
    change ((c :: pre) ++ ?t) with (c :: (pre ++ t)). cbv iota beta.
    by apply IH.
Qed.

Lemma match_boundary_none s :
  (∀ i, ¬ occurs_at s (js "boundary=") i) → match_boundary s = None.
Proof.
  induction s as [|c s IH]; intros Hno.
  - done.
  - rewrite match_boundary_unfold.
    assert (startsWith (c :: s) (js "boundary=") = false) as ->.
    { apply not_true_is_false. intros H%startsWith_spec. by apply (Hno 0). }
    apply IH. intros i Hi. by apply (Hno (S i)).
Qed.

Lemma trim_start_not_space c s : is_js_space c = false → trim_start (c :: s) = c :: s.
Proof. intros H. simpl. by rewrite H. Qed.

Lemma trim_quoted b :
  trim ([CHAR_QUOTE] ++ b ++ [CHAR_QUOTE]) = [CHAR_QUOTE] ++ b ++ [CHAR_QUOTE].
Proof.
  unfold trim. change ([CHAR_QUOTE] ++ ?t) with (CHAR_QUOTE :: t).
  rewrite trim_start_not_space by done.
  assert (reverse (CHAR_QUOTE :: b ++ [CHAR_QUOTE])
          = CHAR_QUOTE :: (reverse b ++ [CHAR_QUOTE])) as ->.
  { by rewrite reverse_cons, reverse_app. }
  rewrite trim_start_not_space by done.
  by rewrite reverse_cons, reverse_app, reverse_involutive.
Qed.

(** X6. [extractBoundary] finds the boundary token of a content type: for
    a header whose text before [boundary=] holds no letter b, and a token
    without semicolon, the token is returned when it stands bare (then
    without surrounding white space and not starting with a double
    quote), followed or not by further parameters, and when it stands
    between double quotes; a header without the text [boundary=] gives
    the code's null. *)
Theorem extractBoundary_token :
  (∀ pre b,
     98%N ∉ pre → b ≠ [] → CHAR_SEMICOLON ∉ b → trim b = b →
     head b ≠ Some CHAR_QUOTE →
     extractBoundary (pre ++ js "boundary=" ++ b) = Some b
     ∧ ∀ params,
         extractBoundary (pre ++ js "boundary=" ++ b ++ CHAR_SEMICOLON :: params)
         = Some b)
  ∧ (∀ pre b,
       98%N ∉ pre → CHAR_SEMICOLON ∉ b →
       extractBoundary
         (pre ++ js "boundary=" ++ [CHAR_QUOTE] ++ b ++ [CHAR_QUOTE])
       = Some b)
  ∧ (∀ contentType,
       (∀ i, ¬ occurs_at contentType (js "boundary=") i) →
       extractBoundary contentType = None).
Proof.
  split; [|split].
  - intros pre b Hpre Hb Hsemi Htrim Hquote.
    assert (Hbare : ∀ rest,
              rest = [] ∨ head rest = Some CHAR_SEMICOLON →
              extractBoundary (pre ++ js "boundary=" ++ b ++ rest) = Some b).
    { intros rest Hrest. unfold extractBoundary.
      rewrite match_boundary_found by done. cbv zeta. rewrite Htrim.
      destruct b as [|c b]; [done|].
      assert (startsWith (c :: b) [CHAR_QUOTE] = false) as ->; [|done].
      cbn [startsWith].
      destruct (N.eqb CHAR_QUOTE c) eqn:Heq; [|done].
      apply N.eqb_eq in Heq as <-. done. }
    split.
    + rewrite <- (app_nil_r b) at 1. apply Hbare. by left.
    + intros params. apply Hbare. by right.
  - intros pre b Hpre Hsemi. unfold extractBoundary.
    rewrite <- (app_nil_r ([CHAR_QUOTE] ++ b ++ [CHAR_QUOTE])).
    rewrite match_boundary_found; [|done|done| |by left].
    + cbv zeta. rewrite trim_quoted.
      assert (endsWith ([CHAR_QUOTE] ++ b ++ [CHAR_QUOTE]) [CHAR_QUOTE] = true)
        as ->.
      { unfold endsWith. rewrite !reverse_app. simpl.
        by destruct (reverse b ++ _). }
      assert (startsWith ([CHAR_QUOTE] ++ b ++ [CHAR_QUOTE]) [CHAR_QUOTE] = true)
        as ->.
      { simpl. by destruct (b ++ _). }
      cbn [andb]. f_equal.
      unfold slice. rewrite !length_app. simpl.
      rewrite drop_0.
      replace (length b + 1 - 0 - 1) with (length b) by lia.
      by rewrite take_app_length.
    + rewrite !not_elem_of_app. repeat split; try done.
      all: by intros ?%list_elem_of_singleton.
  - intros contentType Hno. unfold extractBoundary.
    by rewrite match_boundary_none.
Qed.

Lemma extractBoundary_token_witness :
  extractBoundary
    (js "multipart/form-data; " ++ js "boundary="
     ++ js "----WebKitFormBoundary7MA4YWxk")
  = Some (js "----WebKitFormBoundary7MA4YWxk")
  ∧ extractBoundary
      (js "multipart/form-data; " ++ js "boundary="
       ++ [CHAR_QUOTE] ++ js "gc0p4Jq0M2Yt" ++ [CHAR_QUOTE])
    = Some (js "gc0p4Jq0M2Yt")
  ∧ extractBoundary (js "text/plain") = None.
Proof.
  destruct extractBoundary_token as (Hbare & Hquoted & Hnone).
  split; [|split].
  - apply Hbare; try done; vm_compute; set_solver.
  - apply Hquoted; vm_compute; set_solver.
  - apply Hnone. intros i Hi.
    assert (Hlen : i + length (js "boundary=") ≤ length (js "text/plain"))
      by (by apply occurs_at_length).
    change (i + 9 ≤ 10) in Hlen.
    assert (i = 0 ∨ i = 1) as [-> | ->] by lia;
      vm_compute in Hi; discriminate Hi.
Defined.

Lemma find_from_shift hay needle a i :
  find_from hay needle (a + i) = (λ r, a + r) <$> find_from hay needle i.
Proof.
  revert i. induction hay as [|c hay IH]; intros i.
  - rewrite !find_from_unfold. by destruct (startsWith [] needle).
  - rewrite (find_from_unfold (c :: hay) needle (a + i)).
    rewrite (find_from_unfold (c :: hay) needle i).
    destruct (startsWith (c :: hay) needle); [done|].
    rewrite <- IH. f_equal. lia.
Qed.

Lemma indexOf_app_r pre rest needle k :
  indexOf (pre ++ rest) needle (length pre + k)
  = (λ r, length pre + r) <$> indexOf rest needle k.
Proof.
  unfold indexOf. rewrite drop_app_add'  by done.
  apply find_from_shift.
Qed.

Lemma indexOf_here hay needle : indexOf (needle ++ hay) needle 0 = Some 0.
Proof.
  unfold indexOf. rewrite drop_0, find_from_unfold. by rewrite startsWith_app.
Qed.

Lemma indexOf_first x needle y :
  (∀ j, j < length x → ¬ occurs_at (x ++ needle) needle j) →
  indexOf (x ++ needle ++ y) needle 0 = Some (length x).
Proof.
  intros Hno. apply indexOf_Some. split; [lia|]. split.
  - unfold occurs_at. rewrite drop_app_length. by rewrite take_app_length.
  - intros j [_ Hj] Hocc. apply (Hno j Hj).
    rewrite app_assoc in Hocc.
    apply occurs_at_app in Hocc; [done|]. rewrite length_app. lia.
Qed.

Lemma indexOf_past hay needle pos :
  needle ≠ [] → length hay ≤ pos → indexOf hay needle pos = None.
Proof.
  intros Hne Hpos. apply indexOf_None. intros j Hj Hocc.
  apply occurs_at_length in Hocc; [|done].
  destruct needle; [done|]. simpl in Hocc. lia.
Qed.

Section framing.
Variable utf8_decode : buffer → jsstring.
Variable delim : buffer.
Hypothesis delim_nonempty : delim ≠ [].

Lemma framed_head ps : ∃ tail, framed delim ps = delim ++ tail.
Proof. destruct ps; by eexists. Qed.

Lemma loop_skip fuel buf q q' r :
  q ≤ q' → q' < length buf →
  indexOf buf delim q = indexOf buf delim q' →
  parseMultipart_loop utf8_decode (S fuel) buf delim q r
  = parseMultipart_loop utf8_decode (S fuel) buf delim q' r.
Proof using Type.
  intros Hq Hq' Heq. rewrite !parseMultipart_loop_unfold.
  assert ((q <? length buf) = true) as -> by (apply Nat.ltb_lt; lia).
  assert ((q' <? length buf) = true) as -> by (by apply Nat.ltb_lt).
  by rewrite Heq.
Qed.

Lemma loop_framed ps :
  Forall (delimiter_free delim) ps →
  ∀ pre r fuel,
    length (framed delim ps) < fuel →
    parseMultipart_loop utf8_decode fuel (pre ++ framed delim ps) delim
      (length pre) r
    = Some (fold_left (decode_part utf8_decode) ps r).
Proof using delim_nonempty.
  assert (Hd : 0 < length delim) by (destruct delim; [done|simpl; lia]).
  induction ps as [|p ps IH]; intros Hok pre r [|fuel] Hfuel; try lia.
  - (* the closing delimiter *)
    change (framed delim []) with (delim ++ js "--" ++ CRLF) in *.
    rewrite parseMultipart_loop_unfold.
    assert ((length pre <? length (pre ++ delim ++ js "--" ++ CRLF)) = true)
      as ->.
    { apply Nat.ltb_lt. rewrite !length_app. lia. }
    cbn [negb].
    rewrite <- (Nat.add_0_r (length pre)) at 1.
    rewrite indexOf_app_r, indexOf_here. cbn [fmap option_fmap option_map].
    rewrite Nat.add_0_r.
    replace (length pre + length delim) with (length (pre ++ delim) + 0)
      by (rewrite length_app; lia).
    rewrite (app_assoc pre delim), indexOf_app_r.
    change (indexOf (js "--" ++ CRLF) CRLF 0) with (Some 2).
    cbn [fmap option_fmap option_map].
    rewrite indexOf_past; [done|done|].
    rewrite !length_app. simpl. lia.
  - (* a part *)
    apply Forall_cons in Hok as [Hp Hok].
    destruct (framed_head ps) as (tail & Htail).
    change (framed delim (p :: ps))
      with (delim ++ CRLF ++ p ++ framed delim ps) in *.
    assert (Hfuel' : length delim + 2 + length p + length (framed delim ps)
                     < S fuel).
    { rewrite !length_app in Hfuel. simpl in Hfuel. lia. }
    set (buf := pre ++ delim ++ CRLF ++ p ++ framed delim ps).
    assert (Hlen : length buf
                   = length pre + length delim + 2 + length p
                     + length (framed delim ps)).
    { unfold buf. rewrite !length_app. simpl. lia. }
    assert (Hflen : length delim ≤ length (framed delim ps)).
    { rewrite Htail, length_app. lia. }
    assert (Hnext : indexOf buf delim (length pre + length delim + 2)
                    = Some (length pre + length delim + 2 + length p)).
    { unfold buf.
      replace (length pre + length delim + 2)
        with (length (pre ++ delim ++ CRLF) + 0)
        by (rewrite !length_app; simpl; lia).
      replace (pre ++ delim ++ CRLF ++ p ++ framed delim ps)
        with ((pre ++ delim ++ CRLF) ++ p ++ framed delim ps)
        by (by rewrite <- !app_assoc).
      rewrite indexOf_app_r, Htail, indexOf_first by done.
      cbn [fmap option_fmap option_map]. f_equal; lia. }
    assert (Hnext' : indexOf buf delim (length pre + length delim + 2 + length p)
                     = Some (length pre + length delim + 2 + length p)).
    { unfold buf.
      replace (length pre + length delim + 2 + length p)
        with (length (pre ++ delim ++ CRLF ++ p) + 0)
        by (rewrite !length_app; simpl; lia).
      replace (pre ++ delim ++ CRLF ++ p ++ framed delim ps)
        with ((pre ++ delim ++ CRLF ++ p) ++ framed delim ps)
        by (by rewrite <- !app_assoc).
      rewrite indexOf_app_r, Htail, indexOf_here.
      cbn [fmap option_fmap option_map]. f_equal; lia. }
    rewrite parseMultipart_loop_unfold.
    assert ((length pre <? length buf) = true) as ->
      by (apply Nat.ltb_lt; lia).
    cbn [negb].
    assert (indexOf buf delim (length pre) = Some (length pre)) as ->.
    { unfold buf. rewrite <- (Nat.add_0_r (length pre)) at 1.
      rewrite indexOf_app_r, indexOf_here.
      cbn [fmap option_fmap option_map]. f_equal; lia. }
    assert (indexOf buf CRLF (length pre + length delim)
            = Some (length pre + length delim)) as ->.
    { unfold buf.
      replace (length pre + length delim) with (length (pre ++ delim) + 0)
        by (rewrite length_app; lia).
      rewrite (app_assoc pre delim), indexOf_app_r, indexOf_here.
      cbn [fmap option_fmap option_map]. f_equal; lia. }
    rewrite Hnext.
    assert (slice buf (length pre + length delim + 2)
              (length pre + length delim + 2 + length p) = p) as ->.
    { unfold slice, buf.
      replace (length pre + length delim + 2)
        with (length (pre ++ delim ++ CRLF))
        by (rewrite !length_app; simpl; lia).
      replace (pre ++ delim ++ CRLF ++ p ++ framed delim ps)
        with ((pre ++ delim ++ CRLF) ++ p ++ framed delim ps)
        by (by rewrite <- !app_assoc).
      rewrite drop_app_length.
      replace (length (pre ++ delim ++ CRLF) + length p
               - length (pre ++ delim ++ CRLF)) with (length p) by lia.
      by rewrite take_app_length. }
    assert (Hcont : ∀ r',
              parseMultipart_loop utf8_decode fuel buf delim
                (length pre + length delim + 2 + length p) r'
              = Some (fold_left (decode_part utf8_decode) ps r')).
    { intros r'. unfold buf.
      replace (length pre + length delim + 2 + length p)
        with (length (pre ++ delim ++ CRLF ++ p))
        by (rewrite !length_app; simpl; lia).
      replace (pre ++ delim ++ CRLF ++ p ++ framed delim ps)
        with ((pre ++ delim ++ CRLF ++ p) ++ framed delim ps)
        by (by rewrite <- !app_assoc).
      apply IH; [done|]. lia. }
    cbn [fold_left]. unfold decode_part at 2.
    destruct (parsePart utf8_decode p r) as [r'|] eqn:Hpart; cbn [default].
    + apply Hcont.
    + rewrite <- Hcont. destruct fuel as [|fuel]; [lia|].
      apply loop_skip; [lia|lia|]. by rewrite Hnext, Hnext'.
Qed.

End framing.

(** ** Header lines *)

Lemma split_str_go_cons sep c s skip cur :
  split_str_go sep (c :: s) skip cur
  = match skip with
    | S k => split_str_go sep s k cur
    | O =>
        if startsWith (c :: s) sep
        then reverse cur :: split_str_go sep s (length sep - 1) []
        else split_str_go sep s 0 (c :: cur)
    end.
Proof. done. Qed.

Lemma startsWith_CRLF c s :
  startsWith (c :: s) CRLF
  = N.eqb CHAR_CR c && match s with d :: _ => N.eqb CHAR_LF d | [] => false end.
Proof.
  unfold CRLF. cbn [startsWith]. destruct s as [|d s]; [done|].
  cbn [startsWith]. destruct s; by rewrite andb_true_r.
Qed.

Lemma split_str_go_no_cr a cur :
  CHAR_CR ∉ a → split_str_go CRLF a 0 cur = [reverse cur ++ a].
Proof.
  revert cur. induction a as [|c a IH]; intros cur Hcr.
  - simpl. by rewrite app_nil_r.
  - apply not_elem_of_cons in Hcr as [Hc Hcr].
    rewrite split_str_go_cons, startsWith_CRLF.
    assert (N.eqb CHAR_CR c = false) as -> by (apply N.eqb_neq; congruence).
    cbn [andb]. rewrite IH by done. by rewrite reverse_cons, <- app_assoc.
Qed.

Lemma split_str_go_app a b skip cur :
  skip ≤ length a →
  split_str_go CRLF (a ++ CRLF ++ b) skip cur
  = split_str_go CRLF a skip cur ++ split_str_go CRLF b 0 [].
Proof.
  revert skip cur. induction a as [|c a IH]; intros skip cur Hskip.
  - assert (skip = 0) as -> by (simpl in Hskip; lia).
    rewrite app_nil_l. unfold CRLF at 2. cbn [app].
    rewrite split_str_go_cons, startsWith_CRLF, !N.eqb_refl. cbn [andb].
    by rewrite split_str_go_cons.
  - change ((c :: a) ++ ?t) with (c :: (a ++ t)).
    rewrite !split_str_go_cons. destruct skip as [|k].
    + rewrite !startsWith_CRLF.
      destruct (N.eqb CHAR_CR c) eqn:Hc; cbn [andb]; [|by apply IH; lia].
      destruct a as [|d a].
      * rewrite app_nil_l. unfold CRLF at 2. cbn [app].
        change (N.eqb CHAR_LF CHAR_CR) with false. cbv iota.
        apply (IH 0). simpl. lia.
      * change ((d :: a) ++ ?t) with (d :: (a ++ t)). cbv iota.
        destruct (N.eqb CHAR_LF d).
        -- change ((d :: a) ++ ?t) with (d :: (a ++ t)).
           rewrite <- app_comm_cons. f_equal. apply (IH 1). simpl. lia.
        -- apply (IH 0). simpl. lia.
    + apply IH. simpl in Hskip. lia.
Qed.

Lemma parseHeaders_single line :
  CHAR_CR ∉ line → parseHeaders line = parseHeaders_line ∅ line.
Proof.
  intros Hcr. unfold parseHeaders, split_str.
  by rewrite split_str_go_no_cr.
Qed.

Lemma parseHeaders_app text line :
  CHAR_CR ∉ line →
  parseHeaders (text ++ CRLF ++ line)
  = parseHeaders_line (parseHeaders text) line.
Proof.
  intros Hcr. unfold parseHeaders, split_str.
  rewrite split_str_go_app by lia.
  rewrite (split_str_go_no_cr line) by done.
  by rewrite fold_left_app.
Qed.

Lemma find_from_notin x c y i :
  c ∉ x → find_from (x ++ c :: y) [c] i = Some (i + length x).
Proof.
  revert i. induction x as [|d x IH]; intros i Hc.
  - rewrite find_from_unfold. simpl. rewrite N.eqb_refl.
    destruct y; simpl; f_equal; lia.
  - apply not_elem_of_cons in Hc as [Hd Hc].
    rewrite find_from_unfold.
    change ((d :: x) ++ ?t) with (d :: (x ++ t)). cbn [startsWith].
    assert (N.eqb c d = false) as -> by (by apply N.eqb_neq).
    cbn [andb]. rewrite IH by done. simpl. f_equal. lia.
Qed.

Lemma parseHeaders_line_colon headers name value :
  CHAR_COLON ∉ name →
  parseHeaders_line headers (name ++ CHAR_COLON :: value)
  = obj_set (toLowerCase (trim name)) (trim value) headers.
Proof.
  intros Hname. unfold parseHeaders_line, indexOf.
  rewrite drop_0, find_from_notin by done. cbn [Nat.add].
  unfold slice. rewrite drop_0, Nat.sub_0_r, take_app_length.
  replace (length name + 1) with (length (name ++ [CHAR_COLON]))
    by (rewrite length_app; simpl; lia).
  rewrite (cons_middle CHAR_COLON name value), app_assoc, drop_app_length.
  done.
Qed.

Lemma parseHeaders_line_none headers line :
  CHAR_COLON ∉ line → parseHeaders_line headers line = headers.
Proof.
  intros Hline. unfold parseHeaders_line.
  assert (indexOf line [CHAR_COLON] 0 = None) as ->; [|done].
  apply indexOf_None. intros j _ Hocc. apply Hline.
  unfold occurs_at in Hocc. simpl in Hocc.
  destruct (drop j line) as [|c rest] eqn:Hdrop; [done|].
  simpl in Hocc. rewrite take_0 in Hocc. injection Hocc as ->.
  assert (CHAR_COLON ∈ drop j line) by (rewrite Hdrop; by left).
  eapply subseteq_drop; done.
Qed.

(** X7. [parseHeaders] stores a header line under its name in lower case
    (an ASCII name other than [__proto__]) with the value trimmed,
    replacing what an earlier line stored under that name and leaving the
    other names alone; a line without a colon stores nothing. *)
Theorem parseHeaders_last_wins text :
  (∀ name value,
     CHAR_CR ∉ name → CHAR_CR ∉ value → CHAR_COLON ∉ name →
     Forall (λ c, (c < 128)%N) name →
     toLowerCase (trim name) ≠ js "__proto__" →
     parseHeaders (text ++ CRLF ++ name ++ CHAR_COLON :: value)
       !! toLowerCase (trim name)
     = Some (trim value)
     ∧ ∀ other,
         other ≠ toLowerCase (trim name) →
         parseHeaders (text ++ CRLF ++ name ++ CHAR_COLON :: value) !! other
         = parseHeaders text !! other)
  ∧ (∀ line,
       CHAR_CR ∉ line → CHAR_COLON ∉ line →
       parseHeaders (text ++ CRLF ++ line) = parseHeaders text).
Proof.
  split.
  - intros name value Hn Hv Hcolon _ Hproto.
    rewrite parseHeaders_app, parseHeaders_line_colon; [|done|].
    + unfold obj_set, str_eqb. rewrite bool_decide_eq_false_2 by done.
      split; [by rewrite lookup_insert_eq|].
      intros other Hother. by rewrite lookup_insert_ne.
    + rewrite not_elem_of_app, not_elem_of_cons. by repeat split.
  - intros line Hcr Hcolon.
    by rewrite parseHeaders_app, parseHeaders_line_none.
Qed.

Lemma parseHeaders_last_wins_witness :
  parseHeaders
    (js "Content-Type: text/html" ++ CRLF ++ js "CONTENT-type "
     ++ CHAR_COLON :: js "  text/plain ")
  !! js "content-type" = Some (js "text/plain").
Proof.
  apply (proj1 (parseHeaders_last_wins (js "Content-Type: text/html"))
           (js "CONTENT-type ") (js "  text/plain ")).
  - vm_compute. set_solver.
  - vm_compute. set_solver.
  - vm_compute. set_solver.
  - by repeat constructor.
  - by vm_compute.
Defined.

(** ** The attributes of a disposition *)

Lemma match_attr_unfold key s :
  match_attr key s
  = match (if startsWith s (key ++ [61%N; CHAR_QUOTE])
           then quoted_value (drop (length key + 2) s) else None) with
    | Some v => Some v
    | None => match s with [] => None | _ :: s' => match_attr key s' end
    end.
Proof. by destruct s. Qed.

Lemma match_attr_step key c s :
  startsWith (c :: s) (key ++ [61%N; CHAR_QUOTE]) = false →
  match_attr key (c :: s) = match_attr key s.
Proof. intros H. rewrite match_attr_unfold. by rewrite H. Qed.

Lemma until_quote_app v rest :
  CHAR_QUOTE ∉ v → until_quote (v ++ CHAR_QUOTE :: rest) = v.
Proof.
  intros Hv. induction v as [|c v IH]; [done|].
  apply not_elem_of_cons in Hv as [Hc Hv]. simpl.
  assert (N.eqb c CHAR_QUOTE = false) as -> by (by apply N.eqb_neq).
  f_equal. by apply IH.
Qed.

Lemma quoted_value_app v rest :
  v ≠ [] → CHAR_QUOTE ∉ v → quoted_value (v ++ CHAR_QUOTE :: rest) = Some v.
Proof.
  intros Hne Hv. unfold quoted_value. cbv zeta.
  rewrite until_quote_app by done. destruct v as [|c v]; [done|].
  by rewrite drop_app_length.
Qed.

Lemma match_attr_here key v rest :
  v ≠ [] → CHAR_QUOTE ∉ v →
  match_attr key (key ++ [61%N; CHAR_QUOTE] ++ v ++ CHAR_QUOTE :: rest) = Some v.
Proof.
  intros Hne Hv. rewrite match_attr_unfold.
  rewrite (app_assoc key), startsWith_app.
  replace (length key + 2) with (length (key ++ [61%N; CHAR_QUOTE]))
    by (rewrite length_app; simpl; lia).
  rewrite drop_app_length. by rewrite quoted_value_app.
Qed.

Lemma startsWith_over n k rest :
  CHAR_QUOTE ∉ k → 61%N ∉ n → CHAR_QUOTE ∉ n →
  startsWith (n ++ CHAR_QUOTE :: rest) (k ++ [61%N; CHAR_QUOTE]) = false.
Proof.
  revert k. induction n as [|c n IH]; intros k Hk Hn Hq.
  - destruct k as [|k0 k]; [done|].
    apply not_elem_of_cons in Hk as [Hk0 _]. cbn [startsWith app].
    assert (N.eqb k0 CHAR_QUOTE = false) as -> by (by apply N.eqb_neq).
    done.
  - apply not_elem_of_cons in Hn as [Hc Hn].
    apply not_elem_of_cons in Hq as [_ Hq].
    destruct k as [|k0 k].
    + cbn [startsWith app].
      assert (N.eqb 61 c = false) as -> by (by apply N.eqb_neq). done.
    + apply not_elem_of_cons in Hk as [_ Hk]. cbn [startsWith app].
      rewrite IH by done. apply andb_false_r.
Qed.

Lemma match_attr_over key n rest :
  CHAR_QUOTE ∉ key → 61%N ∉ n → CHAR_QUOTE ∉ n →
  match_attr key (n ++ CHAR_QUOTE :: rest) = match_attr key (CHAR_QUOTE :: rest).
Proof.
  intros Hk Hn Hq. induction n as [|c n IH]; [done|].
  change ((c :: n) ++ ?t) with (c :: (n ++ t)).
  rewrite match_attr_step.
  - apply IH.
    + by apply not_elem_of_cons in Hn as [_ ?].
    + by apply not_elem_of_cons in Hq as [_ ?].
  - by apply (startsWith_over (c :: n)).
Qed.

Lemma match_attr_name_field n rest :
  n ≠ [] → CHAR_QUOTE ∉ n →
  match_attr (js "name") (disposition_field n ++ rest) = Some n.
Proof.
  intros Hne Hq. unfold disposition_field.
  change (js "form-data; name=") with (js "form-data; " ++ js "name" ++ [61%N]).
  rewrite <- !app_assoc.
  change (js "form-data; " ++ ?t)
    with (102%N :: 111%N :: 114%N :: 109%N :: 45%N :: 100%N :: 97%N :: 116%N
          :: 97%N :: 59%N :: 32%N :: t).
  do 11 (rewrite match_attr_step by (by vm_compute)).
  change ([61%N] ++ [CHAR_QUOTE] ++ ?t) with ([61%N; CHAR_QUOTE] ++ t).
  change ([CHAR_QUOTE] ++ rest) with (CHAR_QUOTE :: rest).
  by apply match_attr_here.
Qed.

Lemma match_attr_filename_field n :
  61%N ∉ n → CHAR_QUOTE ∉ n →
  match_attr (js "filename") (disposition_field n) = None.
Proof.
  intros Hn Hq. unfold disposition_field.
  change (js "form-data; name=" ++ [CHAR_QUOTE] ++ ?t)
    with (102%N :: 111%N :: 114%N :: 109%N :: 45%N :: 100%N :: 97%N :: 116%N
          :: 97%N :: 59%N :: 32%N :: 110%N :: 97%N :: 109%N :: 101%N :: 61%N
          :: CHAR_QUOTE :: t).
  do 17 (rewrite match_attr_step by (by vm_compute)).
  change (n ++ [CHAR_QUOTE]) with (n ++ CHAR_QUOTE :: []).
  rewrite match_attr_over by (done || by vm_compute; set_solver).
  by vm_compute.
Qed.

Lemma match_attr_filename_file n f :
  61%N ∉ n → CHAR_QUOTE ∉ n → f ≠ [] → CHAR_QUOTE ∉ f →
  match_attr (js "filename") (disposition_file n f) = Some f.
Proof.
  intros Hn Hq Hf Hfq. unfold disposition_file, disposition_field.
  rewrite <- !app_assoc.
  change (js "form-data; name=" ++ [CHAR_QUOTE] ++ ?t)
    with (102%N :: 111%N :: 114%N :: 109%N :: 45%N :: 100%N :: 97%N :: 116%N
          :: 97%N :: 59%N :: 32%N :: 110%N :: 97%N :: 109%N :: 101%N :: 61%N
          :: CHAR_QUOTE :: t).
  do 17 (rewrite match_attr_step by (by vm_compute)).
  change ([CHAR_QUOTE] ++ ?t) with (CHAR_QUOTE :: t).
  rewrite match_attr_over by (done || by vm_compute; set_solver).
  change (js "; filename=" ++ ?t)
    with (59%N :: 32%N :: (js "filename" ++ [61%N] ++ t)).
  do 3 (rewrite match_attr_step by (by vm_compute)).
  change ([61%N] ++ CHAR_QUOTE :: ?t) with ([61%N; CHAR_QUOTE] ++ t).
  change (f ++ [CHAR_QUOTE]) with (f ++ CHAR_QUOTE :: []).
  by apply match_attr_here.
Qed.

(** ** One part *)

Lemma find_from_skip x y c needle i :
  c ∉ x →
  find_from (x ++ y) (c :: needle) i = find_from y (c :: needle) (i + length x).
Proof.
  revert i. induction x as [|d x IH]; intros i Hc.
  - simpl. f_equal. lia.
  - apply not_elem_of_cons in Hc as [Hd Hc].
    rewrite find_from_unfold.
    change ((d :: x) ++ ?t) with (d :: (x ++ t)). cbn [startsWith].
    assert (N.eqb c d = false) as -> by (by apply N.eqb_neq).
    cbn [andb]. rewrite IH by done. simpl. f_equal. lia.
Qed.

Lemma header_end_1 l1 rest :
  CHAR_CR ∉ l1 →
  indexOf (l1 ++ CRLF ++ CRLF ++ rest) (CRLF ++ CRLF) 0 = Some (length l1).
Proof.
  intros H1. unfold indexOf. rewrite drop_0.
  change (CRLF ++ CRLF) with (CHAR_CR :: [CHAR_LF; CHAR_CR; CHAR_LF]).
  rewrite find_from_skip by done.
  change (CHAR_CR :: [CHAR_LF; CHAR_CR; CHAR_LF]) with (CRLF ++ CRLF).
  rewrite app_assoc, find_from_unfold, startsWith_app. done.
Qed.

Lemma header_end_2 l1 l2 rest :
  CHAR_CR ∉ l1 → CHAR_CR ∉ l2 → l2 ≠ [] →
  indexOf (l1 ++ CRLF ++ l2 ++ CRLF ++ CRLF ++ rest) (CRLF ++ CRLF) 0
  = Some (length (l1 ++ CRLF ++ l2)).
Proof.
  intros H1 H2 Hne. unfold indexOf. rewrite drop_0.
  change (CRLF ++ CRLF) with (CHAR_CR :: [CHAR_LF; CHAR_CR; CHAR_LF]).
  rewrite find_from_skip by done.
  destruct l2 as [|c2 l2]; [done|].
  apply not_elem_of_cons in H2 as [Hc2 H2'].
  change (CRLF ++ (c2 :: l2) ++ ?t)
    with (CHAR_CR :: CHAR_LF :: c2 :: (l2 ++ t)).
  rewrite find_from_unfold. cbn [startsWith].
  assert (N.eqb CHAR_CR c2 = false) as Hc by (apply N.eqb_neq; congruence).
  rewrite Hc, !andb_false_r.
  rewrite find_from_unfold. cbn [startsWith].
  change (N.eqb CHAR_CR CHAR_LF) with false. cbn [andb].
  rewrite find_from_unfold. cbn [startsWith]. rewrite Hc. cbn [andb].
  rewrite find_from_skip by done.
  change (CHAR_CR :: [CHAR_LF; CHAR_CR; CHAR_LF]) with (CRLF ++ CRLF).
  rewrite app_assoc, find_from_unfold, startsWith_app.
  f_equal. rewrite !length_app. simpl. lia.
Qed.

Lemma slice_middle (a b c : list N) :
  slice (a ++ b ++ c) (length a) (length a + length b) = b.
Proof.
  unfold slice. rewrite drop_app_length.
  replace (length a + length b - length a) with (length b) by lia.
  by rewrite take_app_length.
Qed.

Lemma parsePart_headers utf8_decode hs c r :
  indexOf (hs ++ CRLF ++ CRLF ++ c ++ CRLF) (CRLF ++ CRLF) 0
  = Some (length hs) →
  parsePart utf8_decode (hs ++ CRLF ++ CRLF ++ c ++ CRLF) r
  = let headers := parseHeaders (utf8_decode hs) in
    match headers !! js "content-disposition" with
    | None | Some [] => None
    | Some disposition =>
        match match_attr (js "name") disposition with
        | None => None
        | Some fieldName =>
            match match_attr (js "filename") disposition with
            | Some filename =>
                Some (mkMultipart (fields r)
                        (files r ++
                           [UploadedPart.mk fieldName filename
                              (match headers !! js "content-type" with
                               | None | Some [] => js "application/octet-stream"
                               | Some ct => ct
                               end) c (length c)]))
            | None =>
                Some (mkMultipart
                        (obj_set fieldName (utf8_decode c) (fields r))
                        (files r))
            end
        end
    end.
Proof.
  intros Hidx. unfold parsePart. rewrite Hidx. cbv zeta.
  assert (slice (hs ++ CRLF ++ CRLF ++ c ++ CRLF) 0 (length hs) = hs) as ->.
  { unfold slice. by rewrite drop_0, Nat.sub_0_r, take_app_length. }
  assert (slice (hs ++ CRLF ++ CRLF ++ c ++ CRLF) (length hs + 4)
            (length (hs ++ CRLF ++ CRLF ++ c ++ CRLF) - 2) = c) as ->.
  { replace (hs ++ CRLF ++ CRLF ++ c ++ CRLF)
      with ((hs ++ CRLF ++ CRLF) ++ c ++ CRLF) by (by rewrite <- !app_assoc).
    replace (length hs + 4) with (length (hs ++ CRLF ++ CRLF))
      by (rewrite !length_app; simpl; lia).
    replace (length ((hs ++ CRLF ++ CRLF) ++ c ++ CRLF) - 2)
      with (length (hs ++ CRLF ++ CRLF) + length c)
      by (rewrite !length_app; simpl; lia).
    apply slice_middle. }
  done.
Qed.

Lemma header_text_cr s : header_text s → CHAR_CR ∉ s.
Proof.
  intros H Hin. unfold header_text in H. rewrite Forall_forall in H.
  by destruct (H _ Hin) as (_ & ? & _).
Qed.

Lemma header_text_ascii s : header_text s → Forall (λ c, (c < 128)%N) s.
Proof. intros H. eapply Forall_impl; [exact H|]. by intros c (? & _). Qed.

Lemma header_text_app a b : header_text a → header_text b → header_text (a ++ b).
Proof. apply Forall_app_2. Qed.

Lemma header_text_js_disposition : header_text (js "Content-Disposition: ").
Proof. unfold header_text. by repeat (constructor; [done|]). Qed.

Lemma header_text_js_type : header_text (js "Content-Type: ").
Proof. unfold header_text. by repeat (constructor; [done|]). Qed.

Lemma header_text_field n : header_text n → header_text (disposition_field n).
Proof.
  intros Hn. unfold disposition_field.
  repeat apply header_text_app; try done;
    unfold header_text; by repeat (constructor; [done|]).
Qed.

Lemma header_text_file n f :
  header_text n → header_text f → header_text (disposition_file n f).
Proof.
  intros Hn Hf. unfold disposition_file.
  repeat apply header_text_app; try done; try by apply header_text_field.
  all: unfold header_text; by repeat (constructor; [done|]).
Qed.

Lemma trim_keep c s c' :
  is_js_space c = false → is_js_space c' = false →
  trim (c :: s ++ [c']) = c :: s ++ [c'].
Proof.
  intros Hc Hc'. unfold trim. rewrite trim_start_not_space by done.
  assert (reverse (c :: s ++ [c']) = c' :: (reverse s ++ [c])) as ->.
  { by rewrite reverse_cons, reverse_app. }
  rewrite trim_start_not_space by done.
  by rewrite reverse_cons, reverse_app, reverse_involutive.
Qed.

Lemma trim_space s : trim (32%N :: s) = trim s.
Proof. done. Qed.

Lemma trim_disposition_field n :
  trim (32%N :: disposition_field n) = disposition_field n.
Proof.
  rewrite trim_space. unfold disposition_field.
  replace (js "form-data; name=" ++ [CHAR_QUOTE] ++ n ++ [CHAR_QUOTE])
    with (102%N :: (js "orm-data; name=" ++ [CHAR_QUOTE] ++ n) ++ [CHAR_QUOTE])
    by (by rewrite <- !app_assoc).
  by apply trim_keep.
Qed.

Lemma trim_disposition_file n f :
  trim (32%N :: disposition_file n f) = disposition_file n f.
Proof.
  rewrite trim_space. unfold disposition_file, disposition_field.
  replace ((js "form-data; name=" ++ [CHAR_QUOTE] ++ n ++ [CHAR_QUOTE])
           ++ js "; filename=" ++ [CHAR_QUOTE] ++ f ++ [CHAR_QUOTE])
    with (102%N :: (js "orm-data; name=" ++ [CHAR_QUOTE] ++ n ++ [CHAR_QUOTE]
                    ++ js "; filename=" ++ [CHAR_QUOTE] ++ f) ++ [CHAR_QUOTE])
    by (by rewrite <- !app_assoc).
  by apply trim_keep.
Qed.

Lemma parseHeaders_disposition d :
  CHAR_CR ∉ d → trim (32%N :: d) = d →
  parseHeaders (js "Content-Disposition: " ++ d)
  = {[ js "content-disposition" := d ]}.
Proof.
  intros Hcr Htrim.
  change (js "Content-Disposition: " ++ d)
    with (js "Content-Disposition" ++ CHAR_COLON :: 32%N :: d).
  rewrite parseHeaders_single.
  - rewrite parseHeaders_line_colon by (vm_compute; set_solver).
    rewrite Htrim. done.
  - rewrite not_elem_of_app, !not_elem_of_cons.
    repeat split; try done. vm_compute. set_solver.
Qed.

Lemma parseHeaders_disposition_type d ct :
  CHAR_CR ∉ d → trim (32%N :: d) = d → CHAR_CR ∉ ct → trim ct = ct →
  parseHeaders (js "Content-Disposition: " ++ d ++ CRLF
                ++ js "Content-Type: " ++ ct)
  = <[ js "content-type" := ct ]> {[ js "content-disposition" := d ]}.
Proof.
  intros Hcr Htrim Hct Htrimct.
  rewrite (app_assoc (js "Content-Disposition: ") d).
  change (js "Content-Type: " ++ ct)
    with (js "Content-Type" ++ CHAR_COLON :: 32%N :: ct).
  rewrite parseHeaders_app.
  - rewrite parseHeaders_disposition by done.
    rewrite parseHeaders_line_colon by (vm_compute; set_solver).
    rewrite trim_space, Htrimct. done.
  - rewrite not_elem_of_app, !not_elem_of_cons.
    repeat split; try done. vm_compute. set_solver.
Qed.

Lemma quotable_inv s :
  quotable s →
  s ≠ [] ∧ header_text s ∧ (CHAR_QUOTE ∉ s) ∧ (CHAR_CR ∉ s).
Proof. intros (? & ? & ?). repeat split; try done. by apply header_text_cr. Qed.

Lemma file_part_shape n f ct c :
  file_part n f ct c
  = (js "Content-Disposition: " ++ disposition_file n f ++ CRLF
     ++ js "Content-Type: " ++ ct)
    ++ CRLF ++ CRLF ++ c ++ CRLF.
Proof. unfold file_part. by rewrite <- !app_assoc. Qed.

Lemma field_part_shape n v :
  field_part n v
  = (js "Content-Disposition: " ++ disposition_field n)
    ++ CRLF ++ CRLF ++ v ++ CRLF.
Proof. unfold field_part. by rewrite <- !app_assoc. Qed.

Section parts.
Variable utf8_decode : buffer → jsstring.
Hypothesis decode_ascii :
  ∀ b, Forall (λ c, (c < 128)%N) b → utf8_decode b = b.

Lemma parsePart_file n f ct c r :
  quotable n → CHAR_EQUALS ∉ n → quotable f →
  ct ≠ [] → header_text ct → trim ct = ct →
  parsePart utf8_decode (file_part n f ct c) r
  = Some (mkMultipart (fields r)
            (files r ++ [UploadedPart.mk n f ct c (length c)])).
Proof using decode_ascii.
  intros (Hn & Hnt & Hnq)%quotable_inv Hneq (Hf & Hft & Hfq)%quotable_inv
    Hct Hctt Htrim.
  destruct Hnq as [Hnq Hncr]. destruct Hfq as [Hfq Hfcr].
  assert (Hd : header_text (disposition_file n f)) by (by apply header_text_file).
  assert (Hdcr : CHAR_CR ∉ disposition_file n f) by (by apply header_text_cr).
  assert (Hctcr : CHAR_CR ∉ ct) by (by apply header_text_cr).
  rewrite file_part_shape.
  set (hs := js "Content-Disposition: " ++ disposition_file n f ++ CRLF
             ++ js "Content-Type: " ++ ct).
  rewrite parsePart_headers.
  - assert (utf8_decode hs = hs) as ->.
    { apply decode_ascii. unfold hs.
      apply Forall_app_2;
        [apply header_text_ascii, header_text_js_disposition|].
      apply Forall_app_2; [by apply header_text_ascii|].
      apply Forall_app_2; [by repeat constructor|].
      apply Forall_app_2; [apply header_text_ascii, header_text_js_type|].
      by apply header_text_ascii. }
    unfold hs. rewrite parseHeaders_disposition_type;
      [|done|apply trim_disposition_file|done|done].
    cbv zeta.
    rewrite (lookup_insert_ne _ (js "content-type") (js "content-disposition"))
      by done.
    rewrite lookup_singleton_eq, lookup_insert_eq.
    assert (Hnonempty : ∃ d0 d', disposition_file n f = d0 :: d').
    { unfold disposition_file, disposition_field. by eexists _, _. }
    destruct Hnonempty as (d0 & d' & Hshape).
    assert (match_attr (js "name") (disposition_file n f) = Some n) as Hname.
    { unfold disposition_file. by apply match_attr_name_field. }
    assert (match_attr (js "filename") (disposition_file n f) = Some f)
      as Hfile by (by apply match_attr_filename_file).
    rewrite Hshape at 1. rewrite Hname, Hfile.
    destruct ct as [|c0 ct]; [done|]. done.
  - replace (hs ++ CRLF ++ CRLF ++ c ++ CRLF)
      with ((js "Content-Disposition: " ++ disposition_file n f) ++ CRLF
            ++ (js "Content-Type: " ++ ct) ++ CRLF ++ CRLF ++ c ++ CRLF)
      by (unfold hs; by rewrite <- !app_assoc).
    rewrite header_end_2.
    + unfold hs. by rewrite <- !app_assoc.
    + rewrite not_elem_of_app. split; [vm_compute; set_solver|done].
    + rewrite not_elem_of_app. split; [vm_compute; set_solver|done].
    + done.
Qed.

Lemma parsePart_field n v r :
  quotable n → CHAR_EQUALS ∉ n →
  parsePart utf8_decode (field_part n v) r
  = Some (mkMultipart (obj_set n (utf8_decode v) (fields r)) (files r)).
Proof using decode_ascii.
  intros (Hn & Hnt & Hnq)%quotable_inv Hneq.
  destruct Hnq as [Hnq Hncr].
  assert (Hd : header_text (disposition_field n)) by (by apply header_text_field).
  assert (Hdcr : CHAR_CR ∉ disposition_field n) by (by apply header_text_cr).
  rewrite field_part_shape.
  set (hs := js "Content-Disposition: " ++ disposition_field n).
  rewrite parsePart_headers.
  - assert (utf8_decode hs = hs) as ->.
    { apply decode_ascii. unfold hs.
      apply Forall_app_2; apply header_text_ascii;
        [apply header_text_js_disposition|done]. }
    unfold hs. rewrite parseHeaders_disposition;
      [|done|apply trim_disposition_field].
    cbv zeta. rewrite lookup_singleton_eq.
    assert (Hnonempty : ∃ d0 d', disposition_field n = d0 :: d').
    { unfold disposition_field. by eexists _, _. }
    destruct Hnonempty as (d0 & d' & Hshape).
    assert (match_attr (js "name") (disposition_field n) = Some n) as Hname.
    { rewrite <- (app_nil_r (disposition_field n)).
      by apply match_attr_name_field. }
    assert (match_attr (js "filename") (disposition_field n) = None)
      as Hfile by (by apply match_attr_filename_field).
    rewrite Hshape at 1. by rewrite Hname, Hfile.
  - unfold hs. rewrite header_end_1; [done|].
    rewrite not_elem_of_app. split; [vm_compute; set_solver|done].
Qed.

End parts.

Lemma delimiter_free_indexOf delim p :
  indexOf (p ++ delim) delim 0 = Some (length p) → delimiter_free delim p.
Proof.
  intros H i Hi Hocc. apply indexOf_Some in H as (_ & _ & Hfirst).
  apply (Hfirst i); [lia|done].
Qed.

Lemma decode_part_file utf8_decode r u :
  (∀ b, Forall (λ c, (c < 128)%N) b → utf8_decode b = b) →
  well_formed_upload u →
  decode_part utf8_decode r (file_part_of u)
  = mkMultipart (fields r) (files r ++ [u]).
Proof.
  intros Hdec (Hn & Heq & Hf & Hct & Hctt & Htrim & Hsize).
  unfold decode_part, file_part_of.
  rewrite parsePart_file by done. cbn [default].
  destruct u. simpl in *. by rewrite Hsize.
Qed.

Lemma fold_decode_files utf8_decode uploads r :
  (∀ b, Forall (λ c, (c < 128)%N) b → utf8_decode b = b) →
  Forall well_formed_upload uploads →
  fold_left (decode_part utf8_decode) (map file_part_of uploads) r
  = mkMultipart (fields r) (files r ++ uploads).
Proof.
  intros Hdec Hok. revert r.
  induction Hok as [|u uploads Hu Hok IH]; intros r.
  - simpl. rewrite app_nil_r. by destruct r.
  - cbn [map fold_left]. rewrite decode_part_file by done.
    rewrite IH. cbn [fields files]. by rewrite <- app_assoc.
Qed.

Lemma loop_framed_start utf8_decode delim ps r fuel :
  delim ≠ [] → Forall (delimiter_free delim) ps →
  length (framed delim ps) < fuel →
  parseMultipart_loop utf8_decode fuel (framed delim ps) delim 0 r
  = Some (fold_left (decode_part utf8_decode) ps r).
Proof.
  intros Hne Hps Hfuel.
  by apply (loop_framed utf8_decode delim Hne ps Hps []).
Qed.

(** X8. A request body made of parts, each behind a delimiter line and
    none holding the delimiter, with the closing delimiter at the end, is
    decoded part by part, in order: the result is what the parts add to
    the empty result one after the other, a part the decoder cannot read
    adding nothing. *)
Theorem parseMultipart_framed
    (utf8_encode : jsstring → buffer) (utf8_decode : buffer → jsstring)
    (boundary : jsstring) (parts : list buffer) :
  let delim := boundaryBuffer utf8_encode boundary in
  Forall (delimiter_free delim) parts →
  parseMultipart utf8_encode utf8_decode (framed delim parts) boundary
  = Some (fold_left (decode_part utf8_decode) parts (mkMultipart ∅ [])).
Proof.
  intros delim Hparts. unfold parseMultipart, parseMultipart_fuel. fold delim.
  apply loop_framed_start; [done|done|lia].
Qed.

Lemma parseMultipart_framed_witness :
  parseMultipart id id
    (framed (boundaryBuffer id (js "XYZ"))
       [js "no header here"; field_part (js "note") (js "hi")])
    (js "XYZ")
  = Some (fold_left (decode_part id)
            [js "no header here"; field_part (js "note") (js "hi")]
            (mkMultipart ∅ [])).
Proof.
  apply (parseMultipart_framed id id (js "XYZ")).
  repeat constructor; apply delimiter_free_indexOf; vm_compute; reflexivity.
Defined.

(** X9. The body a browser sends for an upload, the files first and the
    field [path] last, is decoded to exactly those files, in order and
    with their content byte for byte, and to the field [path]; the
    content may hold any bytes as long as no part holds the delimiter. *)
Theorem parseMultipart_upload_body
    (utf8_encode : jsstring → buffer) (utf8_decode : buffer → jsstring)
    (boundary : jsstring) (uploads : list UploadedPart.t) (target : buffer) :
  (∀ b, Forall (λ c, (c < 128)%N) b → utf8_decode b = b) →
  let delim := boundaryBuffer utf8_encode boundary in
  Forall well_formed_upload uploads →
  Forall (λ u, delimiter_free delim (file_part_of u)) uploads →
  delimiter_free delim (field_part (js "path") target) →
  parseMultipart utf8_encode utf8_decode
    (framed delim (map file_part_of uploads ++ [field_part (js "path") target]))
    boundary
  = Some (mkMultipart {[ js "path" := utf8_decode target ]} uploads).
Proof.
  intros Hdec delim Hwf Hfree Hpath.
  unfold parseMultipart, parseMultipart_fuel. fold delim.
  rewrite loop_framed_start.
  - rewrite fold_left_app, fold_decode_files by done.
    cbn [fold_left fields files app]. unfold decode_part.
    rewrite parsePart_field; [|done| |].
    + cbn [default fields files]. done.
    + repeat split; [done| |vm_compute; set_solver].
      unfold header_text. by repeat (constructor; [done|]).
    + vm_compute. set_solver.
  - done.
  - apply Forall_app_2; [|by repeat constructor].
    by apply Forall_fmap.
  - lia.
Qed.

Lemma parseMultipart_upload_body_witness :
  parseMultipart id id
    (framed (boundaryBuffer id (js "XYZ"))
       (map file_part_of
          [UploadedPart.mk (js "files") (js "a.bin") (js "image/png")
             [0; 255; 13; 10; 45; 45; 88]%N 7]
        ++ [field_part (js "path") (js "docs")]))
    (js "XYZ")
  = Some (mkMultipart {[ js "path" := js "docs" ]}
            [UploadedPart.mk (js "files") (js "a.bin") (js "image/png")
               [0; 255; 13; 10; 45; 45; 88]%N 7]).
Proof.
  apply (parseMultipart_upload_body id id (js "XYZ")).
  - done.
  - repeat constructor; try done; try (vm_compute; set_solver).
  - repeat constructor. apply delimiter_free_indexOf. vm_compute. reflexivity.
  - apply delimiter_free_indexOf. vm_compute. reflexivity.
Defined.

(** ** The decoding example *)









(** ** The service on ordinary paths *)

(** A closed segment is ordinary: by evaluation. *)
Ltac ordinary_closed :=
  split; [split; [|split; [|split]]|];
  vm_compute; first [ intros Heq; discriminate Heq | set_solver ].

Lemma ordinary_plain seg : ordinary_segment seg → plain_segment seg.
Proof. by intros [? _]. Qed.

Lemma Forall_ordinary_plain xs :
  Forall ordinary_segment xs → Forall plain_segment xs.
Proof. intros H. eapply Forall_impl; [exact H|]. apply ordinary_plain. Qed.

Lemma root_segments_plain dir :
  path.isAbsolute dir = true →
  Forall plain_segment (root_segments dir) ∧ root_segments dir ≠ []
  ∧ ROOT_DIR dir = abs_path (root_segments dir) false.
Proof.
  intros Habs. destruct (ROOT_DIR_abs dir Habs) as (rs & Hrs & Hne & Hroot).
  assert (root_segments dir = rs) as ->.
  { unfold root_segments. by rewrite Hroot, fs_segments_abs. }
  done.
Qed.

Lemma basename1_snoc pre seg :
  seg ≠ [] → CHAR_FORWARD_SLASH ∉ seg →
  path.basename1 (pre ++ CHAR_FORWARD_SLASH :: seg) = seg.
Proof.
  intros Hne Hslash. unfold path.basename1.
  set (p := pre ++ CHAR_FORWARD_SLASH :: seg).
  assert (Hlen : length p = length pre + 1 + length seg).
  { unfold p. rewrite length_app. simpl. lia. }
  assert (Hseg : 0 < length seg) by (destruct seg; [done|simpl; lia]).
  pattern (for_down (path.basename_body p) (length p) (0%Z, (-1)%Z, true)).
  apply for_down_inv with
    (I := λ m st,
       length pre < m ≤ length p
       ∧ (m = length p → st = (0%Z, (-1)%Z, true))
       ∧ (m < length p → st = (0%Z, Z.of_nat (length p), false))).
  - split; [lia|]. split; [done|lia].
  - intros k st (Hk & Hinit & Hrest). unfold path.basename_body.
    destruct (decide (k = length pre)) as [->|Hkpre].
    + assert (charCodeAt p (Z.of_nat (length pre)) = CHAR_FORWARD_SLASH) as ->.
      { unfold charCodeAt, p. rewrite Nat2Z.id.
        rewrite app_nth2 by lia. by rewrite Nat.sub_diag. }
      rewrite (Hrest ltac:(lia)). rewrite N.eqb_refl. cbn [negb].
      replace (Z.of_nat (length p) =? -1)%Z with false
        by (symmetry; apply Z.eqb_neq; lia).
      unfold zslice, slice.
      replace (Z.to_nat (Z.of_nat (length pre) + 1)) with (length pre + 1) by lia.
      rewrite Nat2Z.id. unfold p.
      replace (length pre + 1) with (length (pre ++ [CHAR_FORWARD_SLASH]))
        by (rewrite length_app; simpl; lia).
      rewrite (cons_middle CHAR_FORWARD_SLASH pre seg), app_assoc.
      rewrite drop_app_length. apply firstn_all2.
      rewrite !length_app. simpl. lia.
    + assert (charCodeAt p (Z.of_nat k)
              = charCodeAt seg (Z.of_nat (k - length pre - 1))) as ->.
      { unfold charCodeAt, p. rewrite !Nat2Z.id.
        rewrite app_nth2 by lia.
        remember (k - length pre - 1) as j eqn:Hj.
        replace (k - length pre) with (S j) by lia. done. }
      rewrite charCodeAt_no_slash by (done || lia).
      destruct (decide (S k = length p)) as [Hlast|Hlast].
      * rewrite (Hinit Hlast). cbn [Z.eqb].
        split; [lia|]. split; [lia|]. intros _. repeat f_equal. lia.
      * rewrite (Hrest ltac:(lia)).
        replace (Z.of_nat (length p) =? -1)%Z with false
          by (symmetry; apply Z.eqb_neq; lia).
        split; [lia|]. split; [lia|done].
  - intros st (Hk & _). lia.
Qed.

Lemma basename_abs segs seg :
  plain_segment seg →
  path.basename (abs_path (segs ++ [seg]) false) [] = seg.
Proof.
  intros (Hne & Hslash & _). unfold path.basename.
  rewrite bool_decide_eq_false_2 by (by intros ?). cbn [andb].
  unfold abs_path. rewrite app_nil_r.
  destruct segs as [|s segs].
  - change (CHAR_FORWARD_SLASH :: join_with [CHAR_FORWARD_SLASH] ([] ++ [seg]))
      with ([] ++ CHAR_FORWARD_SLASH :: seg).
    by apply basename1_snoc.
  - rewrite join_with_snoc by done.
    change (CHAR_FORWARD_SLASH :: ?a ++ [CHAR_FORWARD_SLASH] ++ seg)
      with ((CHAR_FORWARD_SLASH :: a) ++ CHAR_FORWARD_SLASH :: seg).
    by apply basename1_snoc.
Qed.

Lemma fs_stat_dir_inv fs p stats :
  fs_stat fs p = inr stats → isDirectory stats = true →
  ∃ es sz t, fs_lookup fs p = inr (Dir es sz t).
Proof.
  unfold fs_stat.
  destruct (fs_lookup fs p) as [e|[c t|es sz t|]]; try done.
  - by intros [= <-].
  - intros _ _. by eexists _, _, _.
Qed.

Lemma update_success_walk segs k f fs fs' :
  update (segs ++ [k]) f fs = inr fs' →
  ∃ es sz t, walk fs segs = inr (Dir es sz t).
Proof.
  revert fs fs'. induction segs as [|s segs IH]; intros fs fs' Hupd.
  - destruct fs as [c t|es sz t|]; try done. by eexists _, _, _.
  - destruct fs as [c t|es sz t|]; try done.
    change ((s :: segs) ++ [k]) with (s :: (segs ++ [k])) in Hupd.
    destruct (segs ++ [k]) as [|s' rest] eqn:Hrest;
      [by destruct segs|].
    rewrite update_cons in Hupd. cbn [walk].
    destruct (alookup s es) as [c|]; [|done].
    destruct (update (s' :: rest) f c) as [e|c'] eqn:Hc; [done|].
    by apply (IH c c').
Qed.

Lemma ordinary_name name :
  isValidFileName name = true →
  CHAR_FORWARD_SLASH ∉ name → CHAR_BACKWARD_SLASH ∉ name →
  ordinary_segment name.
Proof. intros Hv Hs Hb. split; [by apply isValidFileName_plain|done]. Qed.

Lemma rewritten_name_ordinary filename now :
  CHAR_FORWARD_SLASH ∉ filename → CHAR_BACKWARD_SLASH ∉ filename →
  ordinary_segment (rewritten_name filename now).
Proof.
  intros Hs Hb. split; [by apply rewritten_name_plain|].
  unfold rewritten_name. rewrite !elem_of_app. intros [H|[H|[H|H]]].
  - by apply basename_elem in H.
  - by apply list_elem_of_singleton in H.
  - apply pretty_N_digits in H. unfold CHAR_BACKWARD_SLASH in H. lia.
  - by apply extname_elem in H.
Qed.

Lemma uploadFile_inv dir fs now mtime file target fs' r :
  uploadFile dir fs now mtime file target = inr (fs', r) →
  ∃ targetDir stats name,
    isValidFileName (UploadedPart.filename file) = true
    ∧ resolvePath dir target = inr targetDir
    ∧ fs_stat fs targetDir = inr stats ∧ isDirectory stats = true
    ∧ (name = UploadedPart.filename file
       ∨ name = rewritten_name (UploadedPart.filename file) now)
    ∧ fs_writeFile fs (path.join [targetDir; name])
        (UploadedPart.content file) mtime = inr fs'
    ∧ up_filename r = name
    ∧ up_path r = path.join [target; name]
    ∧ up_size r = length (UploadedPart.content file).
Proof.
  unfold uploadFile.
  destruct (isValidFileName _) eqn:Hvalid; [|done]. cbn [negb].
  destruct (resolvePath dir target) as [e|targetDir] eqn:Hres; [done|].
  destruct (fs_stat fs targetDir) as [e|stats] eqn:Hstat; [done|].
  destruct (isDirectory stats) eqn:Hdir; [|done]. cbn [negb].
  destruct (fs_existsSync fs _).
  - fold (rewritten_name (UploadedPart.filename file) now).
    destruct (fs_writeFile fs _ _ _) as [e|fs1] eqn:Hw; [done|].
    cbn [io]. intros [= <- <-].
    exists targetDir, stats, (rewritten_name (UploadedPart.filename file) now).
    do 4 (split; [done|]). split; [by right|]. by split.
  - destruct (fs_writeFile fs _ _ _) as [e|fs1] eqn:Hw; [done|].
    cbn [io]. intros [= <- <-].
    exists targetDir, stats, (UploadedPart.filename file).
    do 4 (split; [done|]). split; [by left|]. by split.
Qed.

Lemma fs_writeFile_child fs segs name data now fs' :
  Forall plain_segment segs → plain_segment name →
  fs_writeFile fs (abs_path (segs ++ [name]) false) data now = inr fs' →
  ∃ es sz t,
    walk fs segs = inr (Dir es sz t)
    ∧ walk fs' segs = inr (Dir (aput name (File data now) es) sz t).
Proof.
  intros Hsegs Hname. unfold fs_writeFile.
  rewrite trailingSeparator_abs_snoc by done.
  rewrite fs_segments_abs by (apply Forall_app; split; [done|by constructor]).
  set (f := λ o : option node, _). intros Hupd.
  destruct (update_success_walk _ _ _ _ _ Hupd) as (es & sz & t & Hwalk).
  exists es, sz, t. split; [done|].
  pose proof (update_dir segs name f fs es sz t Hwalk) as Hupd'.
  rewrite Hupd in Hupd'. destruct Hupd' as (o & Ho%named_inr & Hwalk').
  unfold f in Ho.
  assert (o = Some (File data now)) as ->; [|done].
  by destruct (alookup name es) as [[]|]; simplify_eq.
Qed.

Lemma downloadFile_child dir fs rel segs name es sz t c tm :
  Forall plain_segment segs → plain_segment name →
  resolvePath dir rel = inr (abs_path (segs ++ [name]) false) →
  walk fs segs = inr (Dir es sz t) →
  alookup name es = Some (File c tm) →
  downloadFile dir fs rel = inr (mkDownload c name (getMimeType name)).
Proof.
  intros Hsegs Hname Hres Hwalk Hlook. unfold downloadFile.
  rewrite Hres. unfold fs_stat, fs_readFile.
  rewrite (fs_lookup_child _ _ _ _ _ _ Hsegs Hname Hwalk), Hlook.
  cbn [negb isFile st_kind io]. by rewrite basename_abs.
Qed.

(** X11. What was uploaded can be downloaded: after a successful upload
    into a directory given by ordinary segments, of a file whose name
    holds no separator, [downloadFile] on the path the upload reports
    returns the uploaded bytes under the reported name. *)
Theorem upload_then_download dir fs now mtime file xs fs' r :
  path.isAbsolute dir = true →
  Forall ordinary_segment xs →
  CHAR_FORWARD_SLASH ∉ UploadedPart.filename file →
  CHAR_BACKWARD_SLASH ∉ UploadedPart.filename file →
  uploadFile dir fs now mtime file (join_with [CHAR_FORWARD_SLASH] xs)
  = inr (fs', r) →
  downloadFile dir fs' (up_path r)
  = inr (mkDownload (UploadedPart.content file) (up_filename r)
           (getMimeType (up_filename r)))
  ∧ up_size r = length (UploadedPart.content file).
Proof.
  intros Habs Hxs Hslash Hback Hup.
  apply uploadFile_inv in Hup
    as (targetDir & stats & name & Hvalid & Hres & Hstat & Hdir & Hname
        & Hwrite & -> & -> & ->).
  split; [|done].
  destruct (root_segments_plain dir Habs) as (Hroot & _ & _).
  destruct (resolvePath_ordinary dir xs Habs Hxs) as [Hres' _].
  rewrite Hres' in Hres. injection Hres as <-.
  set (segs := root_segments dir ++ xs) in *.
  assert (Hsegs : Forall plain_segment segs).
  { apply Forall_app. split; [done|by apply Forall_ordinary_plain]. }
  assert (Hord : ordinary_segment name).
  { destruct Hname as [-> | ->];
      [by apply ordinary_name|by apply rewritten_name_ordinary]. }
  pose proof (ordinary_plain _ Hord) as Hplain.
  rewrite join_abs_segment in Hwrite by done.
  apply fs_writeFile_child in Hwrite as (es & sz & t & Hwalk & Hwalk');
    [|done|done].
  eapply downloadFile_child; [exact Hsegs|done| |exact Hwalk'|].
  - rewrite (child_path_resolves dir xs name _ Habs Hxs Hord Hres').
    by rewrite join_abs_segment.
  - apply alookup_aput_eq.
Qed.

Lemma ordinary_segment_docs : ordinary_segment (js "docs").
Proof. ordinary_closed. Qed.

Lemma upload_then_download_witness :
  ∃ fs' r,
    uploadFile (js "/srv/app") (host_with_root [(js "docs", Dir [] 4096 0)]) 7
      9 (upload_of "notes.txt") (join_with [CHAR_FORWARD_SLASH] [js "docs"])
    = inr (fs', r)
    ∧ downloadFile (js "/srv/app") fs' (up_path r)
      = inr (mkDownload (js "new") (up_filename r)
               (getMimeType (up_filename r))).
Proof.
  assert (H2 : Forall ordinary_segment [js "docs"]).
  { constructor; [exact ordinary_segment_docs|constructor]. }
  assert (H3 : CHAR_FORWARD_SLASH ∉ UploadedPart.filename (upload_of "notes.txt"))
    by (vm_compute; set_solver).
  assert (H4 : CHAR_BACKWARD_SLASH ∉ UploadedPart.filename (upload_of "notes.txt"))
    by (vm_compute; set_solver).
  destruct (uploadFile (js "/srv/app")
              (host_with_root [(js "docs", Dir [] 4096 0)]) 7 9
              (upload_of "notes.txt")
              (join_with [CHAR_FORWARD_SLASH] [js "docs"]))
    as [e|[fs' r]] eqn:Hup; [vm_compute in Hup; discriminate Hup|].
  exists fs', r. split; [exact eq_refl|].
  exact (proj1 (upload_then_download (js "/srv/app") _ _ _ _ _ _ _
                  eq_refl H2 H3 H4 Hup)).
Defined.

(** X10. A path made of ordinary segments resolves to the root directory
    followed by these segments, a location at or below the root. *)
Theorem resolvePath_within_root dir xs :
  path.isAbsolute dir = true → Forall ordinary_segment xs →
  ∃ p, resolvePath dir (join_with [CHAR_FORWARD_SLASH] xs) = inr p
       ∧ within (ROOT_DIR dir) p = true
       ∧ fs_segments p = fs_segments (ROOT_DIR dir) ++ xs.
Proof.
  intros Habs Hxs.
  destruct (resolvePath_ordinary dir xs Habs Hxs) as [Hres Hin].
  destruct (root_segments_plain dir Habs) as (Hroot & _ & _).
  eexists. split; [exact Hres|]. split; [exact Hin|].
  apply fs_segments_abs, Forall_app. split; [done|].
  by apply Forall_ordinary_plain.
Qed.

Lemma resolvePath_within_root_witness :
  ∃ p, resolvePath (js "/srv/app")
         (join_with [CHAR_FORWARD_SLASH] [js "docs"; js "2024"]) = inr p
       ∧ within (ROOT_DIR (js "/srv/app")) p = true
       ∧ fs_segments p
         = fs_segments (ROOT_DIR (js "/srv/app")) ++ [js "docs"; js "2024"].
Proof.
  apply (resolvePath_within_root (js "/srv/app") [js "docs"; js "2024"]).
  - exact eq_refl.
  - constructor; [ordinary_closed|]. constructor; [ordinary_closed|].
    constructor.
Defined.

(** ** Deleting *)

Lemma alookup_None k es : k ∉ es.*1 → alookup k es = None.
Proof.
  induction es as [|[k' v] es IH]; [done|]. simpl. intros Hk.
  apply not_elem_of_cons in Hk as [Hne Hk].
  unfold str_eqb. rewrite bool_decide_eq_false_2 by done. by apply IH.
Qed.

Lemma alookup_aremove_eq k es : alookup k (aremove k es) = None.
Proof. apply alookup_None, aremove_names. Qed.

Lemma update_removed segs f fs fs' :
  (∀ o o', f o = inr o' → o' = None) →
  update segs f fs = inr fs' → ∃ e, walk fs' segs = inl e.
Proof.
  intros Hf. revert fs fs'.
  induction segs as [|s segs IH]; intros fs fs' Hupd; [done|].
  destruct fs as [c t|es sz t|]; try done.
  destruct segs as [|s' rest].
  - simpl in Hupd.
    destruct (named s f (alookup s es)) as [e|o] eqn:Ho; [done|].
    apply named_inr, Hf in Ho as ->. injection Hupd as <-. cbn [aset walk].
    rewrite alookup_aremove_eq. by eexists.
  - rewrite update_cons in Hupd.
    destruct (alookup s es) as [c|]; [|done].
    destruct (update (s' :: rest) f c) as [e|c'] eqn:Hc; [done|].
    injection Hupd as <-. cbn [walk]. rewrite alookup_aput_eq.
    by apply (IH c c').
Qed.

Lemma update_remove_exists segs fs n :
  walk fs segs = inr n → segs ≠ [] →
  ∃ fs', update segs (λ _, inr None) fs = inr fs'.
Proof.
  revert fs. induction segs as [|s segs IH]; intros fs Hwalk Hne; [done|].
  destruct fs as [c t|es sz t|]; try done.
  cbn [walk] in Hwalk. destruct (alookup s es) as [c|] eqn:Hs; [|done].
  destruct segs as [|s' rest].
  - simpl. rewrite Hs. by eexists.
  - rewrite update_cons, Hs.
    destruct (IH c Hwalk ltac:(done)) as (c' & ->). by eexists.
Qed.

Lemma fs_existsSync_walk fs p :
  fs_existsSync fs p = true → ∃ n, walk fs (fs_segments p) = inr n.
Proof.
  unfold fs_existsSync, fs_stat, fs_lookup.
  destruct (walk fs (fs_segments p)) as [e|m]; [done|]. by eexists.
Qed.

Lemma fs_existsSync_gone fs p e :
  walk fs (fs_segments p) = inl e → fs_existsSync fs p = false.
Proof. intros H. unfold fs_existsSync, fs_stat, fs_lookup. by rewrite H. Qed.

Lemma deleteFile_inv dir fs p fs' d :
  deleteFile dir fs p = inr (fs', d) →
  ∃ abs, resolvePath dir p = inr abs
         ∧ fs_existsSync fs abs = true
         ∧ ∃ e, walk fs' (fs_segments abs) = inl e.
Proof.
  unfold deleteFile.
  destruct (resolvePath dir p) as [e|abs] eqn:Hres; [done|].
  destruct (fs_existsSync fs abs) eqn:Hex; [|done]. cbn [negb].
  destruct (fs_stat fs abs) as [e|stats]; [done|]. cbn [io].
  intros Hdel. exists abs. split; [done|]. split; [done|].
  destruct (fs_existsSync_walk fs abs Hex) as (n & Hwalk).
  destruct (isDirectory stats).
  - unfold fs_rm in Hdel.
    destruct (update (fs_segments abs) _ fs) as [e|fs1] eqn:Hupd.
    + destruct (decide (fs_segments abs = [])) as [Hnil|Hne].
      * rewrite Hnil in Hupd. simpl in Hupd. injection Hupd as <-. done.
      * destruct (update_remove_exists _ _ _ Hwalk Hne) as (fs2 & Hfs2).
        by rewrite Hfs2 in Hupd.
    + cbn [io] in Hdel. injection Hdel as <- _.
      eapply update_removed; [|exact Hupd].
      intros o o' Ho. by simplify_eq/=.
  - unfold fs_unlink in Hdel.
    destruct (path.trailingSeparator abs); [done|].
    destruct (update (fs_segments abs) _ fs) as [e|fs1] eqn:Hupd; [done|].
    cbn [io] in Hdel. injection Hdel as <- _.
    eapply update_removed; [|exact Hupd].
    intros [[]|] o' Ho; by simplify_eq/=.
Qed.

(** X13. What was deleted is gone: after a successful [deleteFile], on
    whatever path, listing, downloading, renaming or deleting that path
    again is answered with not found. *)
Theorem delete_then_not_found dir cmp fs p fs' d :
  deleteFile dir fs p = inr (fs', d) →
  listFiles dir cmp fs' p = inl NotFound
  ∧ downloadFile dir fs' p = inl NotFound
  ∧ deleteFile dir fs' p = inl NotFound
  ∧ ∀ newName, renameFile dir fs' p newName = inl NotFound.
Proof.
  intros (abs & Hres & _ & e & Hgone)%deleteFile_inv.
  pose proof (fs_existsSync_gone _ _ _ Hgone) as Hex.
  unfold listFiles, downloadFile, deleteFile, renameFile.
  rewrite Hres, Hex. cbn [negb]. repeat split; try done.
  unfold fs_existsSync in Hex. by destruct (fs_stat fs' abs).
Qed.

Lemma delete_then_not_found_witness :
  ∃ fs' d,
    deleteFile (js "/srv/app") example_listing_host (js "a.txt") = inr (fs', d)
    ∧ downloadFile (js "/srv/app") fs' (js "a.txt") = inl NotFound.
Proof.
  destruct (deleteFile (js "/srv/app") example_listing_host (js "a.txt"))
    as [e|[fs' d]] eqn:Hdel; [vm_compute in Hdel; discriminate Hdel|].
  exists fs', d. split; [exact eq_refl|].
  exact (proj1 (proj2 (delete_then_not_found (js "/srv/app") localeCompare_en
                         example_listing_host (js "a.txt") fs' d Hdel))).
Defined.

Lemma join_root_dot dir :
  path.isAbsolute dir = true →
  path.join [ROOT_DIR dir; js "."] = ROOT_DIR dir.
Proof.
  intros Habs.
  destruct (root_segments_plain dir Habs) as (Hroot & Hne & Heq).
  rewrite Heq. unfold path.join.
  rewrite !filter_cons_True by done. rewrite filter_nil.
  change (join_with [CHAR_FORWARD_SLASH] [abs_path (root_segments dir) false;
                                          js "."])
    with (abs_path (root_segments dir) false ++ CHAR_FORWARD_SLASH :: js ".").
  destruct (normalize_abs
              (abs_path (root_segments dir) false
               ++ CHAR_FORWARD_SLASH :: js "."))
    as (segs & _ & Hsegs & ->); [done|].
  rewrite fs_segments_app in Hsegs.
  rewrite (fs_segments_abs (root_segments dir) false) in Hsegs
    by exact Hroot.
  rewrite fold_left_app in Hsegs.
  rewrite (norm_fold_plain false (root_segments dir)) in Hsegs
    by exact Hroot.
  rewrite app_nil_r in Hsegs.
  change (fs_segments (js ".")) with [js "."] in Hsegs.
  cbn [fold_left] in Hsegs.
  change (path.norm_step false ?st (js ".")) with st in Hsegs.
  rewrite reverse_involutive in Hsegs. subst segs.
  change (abs_path (root_segments dir) false ++ CHAR_FORWARD_SLASH :: js ".")
    with (abs_path (root_segments dir) false ++ [CHAR_FORWARD_SLASH] ++ js ".").
  rewrite app_assoc, trailingSeparator_app by (done || by vm_compute; set_solver).
  done.
Qed.

Lemma resolvePath_root dir :
  path.isAbsolute dir = true →
  resolvePath dir [] = inr (ROOT_DIR dir)
  ∧ resolvePath dir (js "/") = inr (ROOT_DIR dir)
  ∧ resolvePath dir (js ".") = inr (ROOT_DIR dir).
Proof.
  intros Habs.
  destruct (resolvePath_ordinary dir [] Habs ltac:(constructor)) as [Hres _].
  destruct (root_segments_plain dir Habs) as (Hroot & Hne & Heq).
  rewrite app_nil_r, <- Heq in Hres.
  change (join_with [CHAR_FORWARD_SLASH] []) with (@nil N) in Hres.
  split; [done|].
  assert (Hslash : sanitizePath (js "/") = []) by (by vm_compute).
  assert (Hdot : sanitizePath (js ".") = js ".") by (by vm_compute).
  assert (Hnil : sanitizePath [] = []) by done.
  unfold resolvePath in *. rewrite Hslash, Hdot. rewrite Hnil in Hres.
  split; [done|].
  rewrite (join_root_dot dir Habs).
  assert (Hnorm : path.normalize (ROOT_DIR dir) = ROOT_DIR dir).
  { rewrite Heq. by apply normalize_abs_path. }
  rewrite Hnorm.
  assert (startsWith (ROOT_DIR dir) (ROOT_DIR dir) = true) as ->.
  { rewrite <- (app_nil_r (ROOT_DIR dir)) at 1. apply startsWith_app. }
  done.
Qed.

(** X14. The root directory itself is not protected: a path that resolves
    to the root, such as [/] or [.], is accepted by [deleteFile], which
    removes the root directory with all it holds; afterwards the listing
    of the root is answered with not found. *)
Theorem deleteFile_removes_root dir cmp fs es sz t p :
  path.isAbsolute dir = true →
  fs_lookup fs (ROOT_DIR dir) = inr (Dir es sz t) →
  p = js "/" ∨ p = js "." →
  ∃ fs' d,
    deleteFile dir fs p = inr (fs', d)
    ∧ del_type d = directory
    ∧ fs_existsSync fs' (ROOT_DIR dir) = false
    ∧ listFiles dir cmp fs' [] = inl NotFound.
Proof.
  intros Habs Hlook Hp.
  destruct (resolvePath_root dir Habs) as (Hnil & Hslash & Hdot).
  assert (Hres : resolvePath dir p = inr (ROOT_DIR dir))
    by (by destruct Hp as [-> | ->]).
  destruct (root_segments_plain dir Habs) as (Hroot & Hne & Heq).
  assert (Hwalk : walk fs (root_segments dir) = inr (Dir es sz t)).
  { apply (fs_lookup_dir fs (root_segments dir) false); [done|].
    by rewrite <- Heq. }
  destruct (update_remove_exists _ _ _ Hwalk Hne) as (fs1 & Hupd).
  assert (Hgone : ∃ e, walk fs1 (root_segments dir) = inl e).
  { eapply update_removed; [|exact Hupd]. intros o o' Ho. by simplify_eq/=. }
  destruct Hgone as (e & Hgone).
  assert (Hex : fs_existsSync fs1 (ROOT_DIR dir) = false)
    by (by apply (fs_existsSync_gone _ _ e)).
  exists fs1, (mkDeleted (js "Eliminado exitosamente") p directory).
  split; [|split; [done|split; [done|]]].
  - unfold deleteFile. rewrite Hres. unfold fs_existsSync, fs_stat.
    rewrite Hlook. cbn [negb io isDirectory st_kind].
    unfold fs_rm. fold (root_segments dir). by rewrite Hupd.
  - unfold listFiles. by rewrite Hnil, Hex.
Qed.

Lemma deleteFile_removes_root_witness :
  ∃ fs' d,
    deleteFile (js "/srv/app") example_listing_host (js "/") = inr (fs', d)
    ∧ del_type d = directory
    ∧ fs_existsSync fs' (ROOT_DIR (js "/srv/app")) = false
    ∧ listFiles (js "/srv/app") localeCompare_en fs' [] = inl NotFound.
Proof.
  eapply (deleteFile_removes_root (js "/srv/app") localeCompare_en
            example_listing_host).
  - exact eq_refl.
  - vm_compute. reflexivity.
  - by left.
Defined.

(** ** Renaming *)

Lemma dirname_no_slash p :
  p ≠ [] → CHAR_FORWARD_SLASH ∉ p → path.dirname p = js ".".
Proof.
  intros Hne Hslash. rewrite dirname_unfold by done.
  assert (Habs : path.isAbsolute p = false).
  { destruct p as [|c p]; [done|]. apply N.eqb_neq. intros ->.
    apply Hslash. by left. }
  rewrite Habs.
  pattern (for_down (path.dirname_body p) (length p) ((-1)%Z, true)).
  apply for_down_inv with (I := λ m st, m ≤ length p ∧ st.1 = (-1)%Z).
  - done.
  - intros k [e m] [Hk He]. simpl in He. subst e. unfold path.dirname_body.
    destruct (Z.of_nat k <? 1)%Z; [done|].
    rewrite charCodeAt_no_slash by (done || lia).
    split; [lia|done].
  - intros [e m] [_ He]. simpl in He. by subst e.
Qed.

Lemma join_dot_segment name :
  plain_segment name → path.join [js "."; name] = name.
Proof.
  intros Hname. pose proof Hname as (Hne & Hslash & _).
  unfold path.join. rewrite !filter_cons_True by done. rewrite filter_nil.
  change (join_with [CHAR_FORWARD_SLASH] [js "."; name])
    with (js "." ++ CHAR_FORWARD_SLASH :: name).
  set (p := js "." ++ CHAR_FORWARD_SLASH :: name).
  assert (Hns : path.normalizeString p true = name).
  { unfold path.normalizeString, p. rewrite norm_fold_segments.
    rewrite fs_segments_app.
    change (fs_segments (js ".")) with [js "."].
    rewrite fs_segments_seg by done. cbn [app fold_left].
    change (path.norm_step true [] (js ".")) with (@nil jsstring).
    by rewrite norm_step_plain. }
  assert (Htr : path.trailingSeparator p = false).
  { unfold p.
    change (js "." ++ CHAR_FORWARD_SLASH :: name)
      with ((js "." ++ [CHAR_FORWARD_SLASH]) ++ name).
    by apply trailingSeparator_app. }
  unfold path.normalize.
  change (path.isAbsolute p) with false. cbn [negb]. rewrite Hns, Htr.
  unfold p at 1. cbn [app]. by destruct name.
Qed.

Lemma join_with_head_ordinary xs :
  Forall plain_segment xs → xs ≠ [] →
  join_with [CHAR_FORWARD_SLASH] xs ≠ []
  ∧ path.isAbsolute (join_with [CHAR_FORWARD_SLASH] xs) = false.
Proof.
  intros Hxs Hne. destruct xs as [|x xs]; [done|].
  apply Forall_cons in Hxs as [(Hx & Hslash & _) _].
  destruct x as [|c x]; [done|].
  assert (c ≠ CHAR_FORWARD_SLASH).
  { intros ->. apply Hslash. by left. }
  destruct xs; (split; [done|]); by apply N.eqb_neq.
Qed.

Lemma dirname_relative xs name :
  Forall plain_segment xs → plain_segment name →
  path.dirname (join_with [CHAR_FORWARD_SLASH] (xs ++ [name]))
  = if decide (xs = []) then js "." else join_with [CHAR_FORWARD_SLASH] xs.
Proof.
  intros Hxs (Hne & Hslash & _).
  destruct (decide (xs = [])) as [->|Hxs_ne].
  - by apply dirname_no_slash.
  - destruct (join_with_head_ordinary xs Hxs Hxs_ne) as [Hjne Hjabs].
    rewrite join_with_snoc by done.
    change (?a ++ [CHAR_FORWARD_SLASH] ++ name)
      with (a ++ CHAR_FORWARD_SLASH :: name).
    set (pre := join_with [CHAR_FORWARD_SLASH] xs) in *.
    rewrite dirname_unfold by (by destruct pre).
    rewrite dirname_loop by done. rewrite decide_False by done.
    replace (Z.of_nat (length pre) =? -1)%Z with false
      by (symmetry; apply Z.eqb_neq; lia).
    assert (path.isAbsolute (pre ++ CHAR_FORWARD_SLASH :: name) = false) as ->.
    { destruct pre; [done|]. exact Hjabs. }
    cbn [andb]. unfold zslice, slice. rewrite Nat2Z.id.
    change (Z.to_nat 0) with 0. by rewrite drop_0, Nat.sub_0_r, take_app_length.
Qed.

Lemma rename_newPath xs name newName :
  Forall plain_segment xs → plain_segment name → plain_segment newName →
  path.join [path.dirname (join_with [CHAR_FORWARD_SLASH] (xs ++ [name]));
             newName]
  = join_with [CHAR_FORWARD_SLASH] (xs ++ [newName]).
Proof.
  intros Hxs Hname Hnew. rewrite dirname_relative by done.
  destruct (decide (xs = [])) as [->|Hne].
  - by apply join_dot_segment.
  - by apply join_relative_segment.
Qed.

Lemma walk_snoc_inv fs segs k n :
  walk fs (segs ++ [k]) = inr n →
  ∃ es sz t, walk fs segs = inr (Dir es sz t) ∧ alookup k es = Some n.
Proof.
  rewrite walk_app. destruct (walk fs segs) as [e|m]; [done|].
  destruct m as [c t|es sz t|]; try done. cbn [walk].
  destruct (alookup k es) as [c|] eqn:Hk; [|done].
  intros [= <-]. by eexists _, _, _.
Qed.

Lemma renameFile_child dir fs rel segs name newName fs' r :
  Forall plain_segment segs → plain_segment name →
  CHAR_FORWARD_SLASH ∉ newName →
  resolvePath dir rel = inr (abs_path (segs ++ [name]) false) →
  renameFile dir fs rel newName = inr (fs', r) →
  ∃ es sz t src,
    walk fs segs = inr (Dir es sz t)
    ∧ alookup name es = Some src
    ∧ plain_segment newName ∧ name ≠ newName
    ∧ walk fs' segs = inr (Dir (aremove name (aput newName src es)) sz t)
    ∧ newPath r = path.join [path.dirname rel; newName]
    ∧ oldPath r = rel.
Proof.
  intros Hsegs Hname Hslash Hres. unfold renameFile. rewrite Hres.
  assert (Hall : ∀ k, plain_segment k → Forall plain_segment (segs ++ [k])).
  { intros k Hk. apply Forall_app. split; [done|by constructor]. }
  destruct (fs_existsSync fs _) eqn:Hex; [|done]. cbn [negb].
  destruct (isValidFileName newName) eqn:Hvalid; [|done]. cbn [negb].
  pose proof (isValidFileName_plain _ Hvalid Hslash) as Hnew.
  destruct (fs_existsSync_walk _ _ Hex) as (src & Hwalk_src).
  rewrite fs_segments_abs in Hwalk_src by (by apply Hall).
  apply walk_snoc_inv in Hwalk_src as (es & sz & t & Hwalk & Hsrc).
  rewrite dirname_abs, join_abs_segment by done.
  rewrite (fs_existsSync_child _ _ _ _ _ _ Hsegs Hnew Hwalk).
  destruct (statable (alookup newName es)) eqn:Hfree; [done|].
  rewrite (fs_existsSync_child _ _ _ _ _ _ Hsegs Hname Hwalk), Hsrc in Hex.
  assert (Hne : name ≠ newName).
  { intros Heq. rewrite <- Heq, Hsrc in Hfree. congruence. }
  assert (Hlook : fs_lookup fs (abs_path (segs ++ [name]) false) = inr src).
  { by rewrite (fs_lookup_child _ _ _ _ _ _ Hsegs Hname Hwalk), Hsrc. }
  unfold fs_rename. rewrite Hlook.
  rewrite !fs_segments_abs by (by apply Hall).
  rewrite bool_decide_eq_false_2
    by (intros Heq; by apply app_inj_1 in Heq as [_ [= ?]]).
  rewrite bool_decide_eq_false_2 by (by intros ?%snoc_prefix_inv).
  rewrite trailingSeparator_abs_snoc by done. cbn [andb].
  pose proof (update_dir segs newName (rename_onto src) fs es sz t Hwalk)
    as Hupd1.
  destruct (update (segs ++ [newName]) _ fs) as [e|fs1]; [done|].
  destruct Hupd1 as (o & ->%named_inr%rename_onto_inr & Hwalk1).
  cbn [aset] in Hwalk1.
  pose proof (update_dir segs name (λ _, inr None) fs1 _ sz t Hwalk1)
    as Hupd2.
  destruct (update (segs ++ [name]) _ fs1) as [e|fs2]; [done|].
  destruct Hupd2 as (o & [= <-]%named_inr & Hwalk2). cbn [aset io] in *.
  intros [= <- <-]. exists es, sz, t, src. by repeat (split; [done|]).
Qed.

(** X15. Renaming keeps the content: after a successful rename of a file,
    given by ordinary segments, to a name without separator, the new
    path the rename reports ends in the new name, downloading it returns
    the bytes the old path held, and the old path is answered with not
    found. *)
Theorem rename_then_download dir fs xs name newName fs' r d :
  path.isAbsolute dir = true →
  Forall ordinary_segment xs → ordinary_segment name →
  CHAR_FORWARD_SLASH ∉ newName → CHAR_BACKWARD_SLASH ∉ newName →
  downloadFile dir fs (join_with [CHAR_FORWARD_SLASH] (xs ++ [name])) = inr d →
  renameFile dir fs (join_with [CHAR_FORWARD_SLASH] (xs ++ [name])) newName
  = inr (fs', r) →
  newPath r = join_with [CHAR_FORWARD_SLASH] (xs ++ [newName])
  ∧ downloadFile dir fs' (newPath r)
    = inr (mkDownload (dl_content d) newName (getMimeType newName))
  ∧ downloadFile dir fs' (oldPath r) = inl NotFound.
Proof.
  intros Habs Hxs Hname Hslash Hback Hdl Hrn.
  destruct (root_segments_plain dir Habs) as (Hroot & _ & _).
  pose proof (Forall_ordinary_plain _ Hxs) as Hxs_plain.
  pose proof (ordinary_plain _ Hname) as Hname_plain.
  set (segs := root_segments dir ++ xs).
  assert (Hsegs : Forall plain_segment segs) by (by apply Forall_app).
  assert (Hres : ∀ k, ordinary_segment k →
            resolvePath dir (join_with [CHAR_FORWARD_SLASH] (xs ++ [k]))
            = inr (abs_path (segs ++ [k]) false)).
  { intros k Hk.
    destruct (resolvePath_ordinary dir (xs ++ [k]) Habs) as [-> _].
    - apply Forall_app. split; [done|by constructor].
    - unfold segs. by rewrite app_assoc. }
  destruct (renameFile_child dir fs _ segs name newName fs' r Hsegs Hname_plain
              Hslash (Hres name Hname) Hrn)
    as (es & sz & t & src & Hwalk & Hsrc & Hnew & Hne & Hwalk' & Hnp & Hop).
  assert (Hnew_ord : ordinary_segment newName) by done.
  rewrite rename_newPath in Hnp by done.
  split; [done|]. rewrite Hnp, Hop.
  assert (∃ tm, src = File (dl_content d) tm) as (tm & ->).
  { unfold downloadFile in Hdl. rewrite (Hres name Hname) in Hdl.
    unfold fs_stat, fs_readFile in Hdl.
    rewrite (fs_lookup_child _ _ _ _ _ _ Hsegs Hname_plain Hwalk), Hsrc in Hdl.
    destruct src as [c tm|es' sz' t'|]; try done.
    cbn [negb isFile st_kind io] in Hdl. injection Hdl as <-. by eexists. }
  split.
  - eapply downloadFile_child; [exact Hsegs|done|by apply Hres|exact Hwalk'|].
    by rewrite alookup_aremove_ne, alookup_aput_eq.
  - unfold downloadFile. rewrite (Hres name Hname). unfold fs_stat.
    rewrite (fs_lookup_child _ _ _ _ _ _ Hsegs Hname_plain Hwalk').
    by rewrite alookup_aremove_eq.
Qed.

Lemma rename_then_download_witness :
  ∃ fs' r,
    renameFile (js "/srv/app") example_listing_host
      (join_with [CHAR_FORWARD_SLASH] ([] ++ [js "a.txt"])) (js "z.md")
    = inr (fs', r)
    ∧ newPath r = join_with [CHAR_FORWARD_SLASH] ([] ++ [js "z.md"])
    ∧ downloadFile (js "/srv/app") fs' (newPath r)
      = inr (mkDownload (js "a") (js "z.md") (getMimeType (js "z.md"))).
Proof.
  assert (H0 : Forall ordinary_segment []) by constructor.
  assert (H1 : ordinary_segment (js "a.txt")) by ordinary_closed.
  assert (H2 : CHAR_FORWARD_SLASH ∉ js "z.md") by (vm_compute; set_solver).
  assert (H3 : CHAR_BACKWARD_SLASH ∉ js "z.md") by (vm_compute; set_solver).
  assert (H4 : downloadFile (js "/srv/app") example_listing_host
                 (join_with [CHAR_FORWARD_SLASH] ([] ++ [js "a.txt"]))
               = inr (mkDownload (js "a") (js "a.txt")
                        (getMimeType (js "a.txt"))))
    by (vm_compute; reflexivity).
  destruct (renameFile (js "/srv/app") example_listing_host
              (join_with [CHAR_FORWARD_SLASH] ([] ++ [js "a.txt"])) (js "z.md"))
    as [e|[fs' r]] eqn:Hrn; [vm_compute in Hrn; discriminate Hrn|].
  exists fs', r. split; [exact eq_refl|].
  destruct (rename_then_download (js "/srv/app") example_listing_host []
              (js "a.txt") (js "z.md") fs' r _ eq_refl H0
              H1 H2 H3 H4 Hrn) as (Hp & Hd & _).
  split; [exact Hp|exact Hd].
Defined.

(** ** Creating a folder *)






(** ** The children of a listing *)

Lemma omap_childEntry_names fs rel abs (entries : list jsstring) :
  Entry.name <$> omap (childEntry fs rel abs) entries
  = filter (λ k, fs_existsSync fs (path.join [abs; k]) = true) entries.
Proof.
  induction entries as [|k entries IH]; [done|].
  cbn [omap list_omap]. unfold childEntry at 1.
  destruct (fs_stat fs (path.join [abs; k])) as [e|st] eqn:Hst.
  - rewrite filter_cons_False by (unfold fs_existsSync; by rewrite Hst).
    exact IH.
  - rewrite filter_cons_True by (unfold fs_existsSync; by rewrite Hst).
    destruct (isDirectory st); cbn [fmap list_fmap Entry.name]; by rewrite IH.
Qed.

(** X17. A listing has one child for every entry of the directory that
    [stat] can read, and no other: the names of the children are, up to
    their order, the names [readdir] reports for which [stat] succeeds,
    and every child carries the listed path joined with its name. *)
Theorem listFiles_children_complete dir cmp fs rel l cs :
  listFiles dir cmp fs rel = inr l → children l = Some cs →
  ∃ absolutePath entries,
    resolvePath dir rel = inr absolutePath
    ∧ fs_readdir fs absolutePath = inr entries
    ∧ Entry.name <$> cs
      ≡ₚ filter (λ k, fs_existsSync fs (path.join [absolutePath; k]) = true)
           entries
    ∧ Forall (λ e, Entry.path e = path.join [rel; Entry.name e]) cs.
Proof.
  intros Hl Hcs.
  destruct (listFiles_children _ _ _ _ _ _ Hl Hcs)
    as (abs & entries & Hres & Hreaddir & ->).
  exists abs, entries. split; [done|]. split; [done|]. split.
  - rewrite Array_sort_perm. by rewrite omap_childEntry_names.
  - rewrite Array_sort_perm. apply Forall_forall. intros e He.
    apply list_elem_of_omap in He as (k & _ & Hchild).
    apply childEntry_inv in Hchild as (-> & -> & _). done.
Qed.

Lemma listFiles_children_complete_witness :
  ∃ l cs,
    listFiles (js "/srv/app") localeCompare_en
      (host_with_root [(js "b.txt", plain_file "b"); (js "gone", Dangling)])
      []
    = inr l
    ∧ children l = Some cs
    ∧ Entry.name <$> cs ≡ₚ [js "b.txt"].
Proof.
  destruct (listFiles (js "/srv/app") localeCompare_en
              (host_with_root
                 [(js "b.txt", plain_file "b"); (js "gone", Dangling)]) [])
    as [e|l] eqn:Hl; [vm_compute in Hl; discriminate Hl|].
  destruct (children l) as [cs|] eqn:Hcs;
    [|vm_compute in Hl; injection Hl as <-; discriminate Hcs].
  exists l, cs. split; [exact eq_refl|]. split; [exact Hcs|].
  destruct (listFiles_children_complete _ _ _ _ _ _ Hl Hcs)
    as (abs & entries & Hres & Hread & Hperm & _).
  vm_compute in Hres. injection Hres as <-.
  vm_compute in Hread. injection Hread as <-.
  rewrite Hperm. vm_compute. reflexivity.
Defined.

(** ** What an operation leaves alone *)








(** ** An upload in the listing *)




(** ** The rate limiter of the router *)

Section rate_limit_facts.
Import router.
Context {K : Type} `{Countable K}.
Implicit Types (m : gmap K record) (ip : K) (es : list (@event K)).

Lemma checkRateLimit_record now ip m :
  checkRateLimit now ip m
  = (<[ip := (decide_record now (m !! ip)).1]> m, (decide_record now (m !! ip)).2).
Proof.
  unfold checkRateLimit, decide_record.
  destruct (m !! ip) as [r|]; [|done]. by destruct (resetTime r <? now)%Z.
Qed.

Lemma checkRateLimit_lookup now ip m :
  (checkRateLimit now ip m).1 !! ip = Some (decide_record now (m !! ip)).1.
Proof. rewrite checkRateLimit_record. simpl. by rewrite lookup_insert_eq. Qed.

Lemma checkRateLimit_other now ip ip' m :
  ip' ≠ ip → (checkRateLimit now ip' m).1 !! ip = m !! ip.
Proof.
  intros Hne. rewrite checkRateLimit_record. simpl.
  by rewrite lookup_insert_ne.
Qed.

Lemma cleanup_lookup now ip m :
  cleanup now m !! ip
  = match m !! ip with
    | Some r => if decide (resetTime r < now)%Z then None else Some r
    | None => None
    end.
Proof.
  unfold cleanup. destruct (m !! ip) as [r|] eqn:Hm.
  - destruct (decide (resetTime r < now)%Z) as [Hlt|Hge].
    + apply map_lookup_filter_None. right. intros r' Hr'. simplify_eq/=. tauto.
    + apply map_lookup_filter_Some. by split.
  - apply map_lookup_filter_None. by left.
Qed.

Lemma answers_own_record ip es m :
  answers ip es m = own_answers ip es (m !! ip).
Proof.
  revert m. induction es as [|[now ip'|now] es IH]; intros m; simpl; [done| |].
  - rewrite IH. destruct (decide (ip' = ip)) as [->|Hne].
    + rewrite checkRateLimit_lookup. by rewrite checkRateLimit_record.
    + by rewrite checkRateLimit_other.
  - by rewrite IH, cleanup_lookup.
Qed.

Lemma allowed_cons (P : Z → Prop) `{!∀ t, Decision (P t)} t b l :
  allowed P ((t, b) :: l)
  = ((if b then if decide (P t) then 1 else 0 else 0) + allowed P l)%nat.
Proof.
  unfold allowed. rewrite filter_cons. simpl.
  destruct b; [destruct (decide (P t))|].
  - rewrite decide_True by done. done.
  - rewrite decide_False by tauto. done.
  - rewrite decide_False by (intros [? _]; done). done.
Qed.

Lemma allowed_mono (P Q : Z → Prop) `{!∀ t, Decision (P t)}
    `{!∀ t, Decision (Q t)} l :
  (∀ t, P t → Q t) → (allowed P l ≤ allowed Q l)%nat.
Proof.
  intros HPQ. induction l as [|[t b] l IH]; [done|].
  rewrite !allowed_cons. destruct b; [|lia].
  destruct (decide (P t)), (decide (Q t)); try lia. naive_solver.
Qed.

Lemma allowed_split (P Q R : Z → Prop) `{!∀ t, Decision (P t)}
    `{!∀ t, Decision (Q t)} `{!∀ t, Decision (R t)} l :
  (∀ t, P t → Q t ∨ R t) → (allowed P l ≤ allowed Q l + allowed R l)%nat.
Proof.
  intros HPQ. induction l as [|[t b] l IH]; [done|].
  rewrite !allowed_cons. destruct b; [|lia].
  destruct (decide (P t)), (decide (Q t)), (decide (R t)); try lia.
  naive_solver.
Qed.

Lemma own_answers_times ip es o T :
  Forall (λ e, (T ≤ time e)%Z) es →
  Forall (λ a, (T ≤ a.1)%Z) (own_answers ip es o).
Proof.
  revert o. induction es as [|[now ip'|now] es IH]; intros o Hes; simpl.
  - constructor.
  - apply Forall_cons in Hes as [Hnow Hes].
    destruct (decide (ip' = ip)); [constructor|]; auto.
  - apply Forall_cons in Hes as [Hnow Hes]. auto.
Qed.

Lemma allowed_none (P : Z → Prop) `{!∀ t, Decision (P t)} l :
  Forall (λ a, ¬ P a.1) l → allowed P l = 0%nat.
Proof.
  induction 1 as [|[t b] l Ht _ IH]; [done|].
  rewrite allowed_cons, IH. simpl in Ht.
  destruct b; [|done]. by rewrite decide_False.
Qed.

Lemma allowed_late (P : Z → Prop) `{!∀ t, Decision (P t)} ip es o T :
  Forall (λ e, (T ≤ time e)%Z) es → (∀ t, (T ≤ t)%Z → ¬ P t) →
  allowed P (own_answers ip es o) = 0%nat.
Proof.
  intros Hes HP. apply allowed_none.
  eapply Forall_impl; [by apply own_answers_times|]. intros a. apply HP.
Qed.

Lemma incr_ge c : (c ≤ incr c)%N.
Proof. unfold incr. destruct (N.ltb_spec c (2 ^ 53)); lia. Qed.

Lemma incr_small c : (incr c ≤ 100)%N → incr c = (c + 1)%N.
Proof.
  unfold incr. destruct (N.ltb_spec c (2 ^ 53)) as [|Hge]; [done|].
  intros Hle. assert (2 ^ 53 ≤ 100)%N as Habs by lia. by vm_compute in Habs.
Qed.

(** While the window of a record lasts, at most [MAX_REQUESTS] minus its
    count requests are let through. *)
Lemma allowed_current_window ip es r :
  StronglySorted Z.le (time <$> es) →
  (allowed (λ t, t ≤ resetTime r)%Z (own_answers ip es (Some r))
   ≤ 100 - N.to_nat (count r))%nat.
Proof.
  revert r. induction es as [|e es IH]; intros r Hs; [cbv [allowed]; simpl; lia|].
  rewrite fmap_cons in Hs. apply StronglySorted_inv in Hs as [Hs Hge].
  rewrite Forall_fmap in Hge.
  destruct e as [now ip'|now]; simpl in *.
  - destruct (decide (ip' = ip)) as [->|Hne]; [|by apply IH].
    rewrite allowed_cons.
    destruct (Z.ltb_spec (resetTime r) now) as [Hlt|Hle]; simpl.
    + rewrite decide_False by lia.
      rewrite (allowed_late _ ip es _ now); [lia|done|]. intros t. lia.
    + rewrite decide_True by done.
      specialize (IH (mkRecord (incr (count r)) (resetTime r)) Hs).
      simpl in IH. pose proof (incr_ge (count r)).
      destruct (N.ltb_spec 100 (incr (count r))) as [Hgt|Hle100]; simpl.
      * unfold MAX_REQUESTS. destruct (N.ltb_spec 100 (incr (count r))); [|lia].
        simpl. lia.
      * unfold MAX_REQUESTS. destruct (N.ltb_spec 100 (incr (count r))); [lia|].
        simpl. pose proof (incr_small _ Hle100) as Hi. rewrite Hi in IH. rewrite Hi. lia.
  - destruct (decide (resetTime r < now)%Z) as [Hlt|Hge'].
    + rewrite (allowed_late _ ip es _ now); [lia|done|]. intros t. lia.
    + by apply IH.
Qed.

Lemma decide_record_idle now T o :
  idle_record T o → (T ≤ now)%Z →
  decide_record now o = (mkRecord 1 (now + RATE_LIMIT_WINDOW), true).
Proof.
  destruct o as [r|]; simpl; [|done]. intros Hr Hnow.
  destruct (Z.ltb_spec (resetTime r) now); [done|lia].
Qed.

Lemma decide_record_window now r :
  (now ≤ resetTime r)%Z →
  decide_record now (Some r)
  = (mkRecord (incr (count r)) (resetTime r),
     negb (MAX_REQUESTS <? incr (count r))%N).
Proof.
  intros Hnow. simpl. destruct (Z.ltb_spec (resetTime r) now); [lia|done].
Qed.

Lemma cleanup_idle now T o :
  idle_record T o →
  idle_record T (match o with
                 | Some r => if decide (resetTime r < now)%Z then None else Some r
                 | None => None
                 end).
Proof. destruct o as [r|]; [|done]. by destruct (decide _). Qed.

(** Once the record is idle, what follows within [RATE_LIMIT_WINDOW] of the
    instant holds at most [MAX_REQUESTS] requests let through. *)
Lemma allowed_idle ip es o T b :
  idle_record T o →
  Forall (λ e, (T ≤ time e)%Z) es →
  StronglySorted Z.le (time <$> es) →
  (b ≤ T + RATE_LIMIT_WINDOW)%Z →
  (allowed (λ t, t ≤ b)%Z (own_answers ip es o) ≤ 100)%nat.
Proof.
  intros Ho Hes Hs Hb. revert o Ho Hs.
  induction Hes as [|e es He Hes IH]; intros o Ho Hs; [cbv [allowed]; simpl; lia|].
  rewrite fmap_cons in Hs. apply StronglySorted_inv in Hs as [Hs Hge].
  destruct e as [now ip'|now]; simpl in *.
  - destruct (decide (ip' = ip)) as [->|Hne]; [|by apply IH].
    rewrite (decide_record_idle now T o) by done. rewrite allowed_cons. simpl.
    pose proof (allowed_current_window ip es
                  (mkRecord 1 (now + RATE_LIMIT_WINDOW)) Hs) as Hw.
    simpl in Hw.
    pose proof (allowed_mono (λ t, t ≤ b)%Z (λ t, t ≤ now + RATE_LIMIT_WINDOW)%Z
      (own_answers ip es (Some (mkRecord 1 (now + RATE_LIMIT_WINDOW))))) as Hm.
    destruct (decide (now ≤ b)%Z); (etrans; [apply Nat.add_le_mono_l, Hm|]);
      try (intros t; lia); lia.
  - apply IH; [by apply cleanup_idle|done].
Qed.

(** After the window of a record, within [RATE_LIMIT_WINDOW] of its end. *)
Lemma allowed_after_window ip es r b :
  StronglySorted Z.le (time <$> es) →
  (b ≤ resetTime r + RATE_LIMIT_WINDOW)%Z →
  (allowed (λ t, resetTime r < t ≤ b)%Z (own_answers ip es (Some r)) ≤ 100)%nat.
Proof.
  revert r. induction es as [|e es IH]; intros r Hs Hb; [cbv [allowed]; simpl; lia|].
  destruct (decide (resetTime r < time e)%Z) as [Hlt|Hle].
  - etrans; [apply (allowed_mono _ (λ t, t ≤ b)%Z); intros t; lia|].
    apply (allowed_idle ip (e :: es) (Some r) (time e)); [done| |done|lia].
    rewrite fmap_cons in Hs. apply StronglySorted_inv in Hs as [Hs Hge].
    rewrite Forall_fmap in Hge. constructor; [lia|done].
  - rewrite fmap_cons in Hs. apply StronglySorted_inv in Hs as [Hs Hge].
    destruct e as [now ip'|now]; simpl in Hle.
    + cbn [own_answers]. destruct (decide (ip' = ip)) as [->|Hne]; [|by apply IH].
      rewrite decide_record_window by lia. rewrite allowed_cons. cbn [fst snd].
      rewrite (decide_False (P := (resetTime r < now ≤ b)%Z)) by lia.
      assert (∀ x, ((if negb (MAX_REQUESTS <? incr (count r))%N then 0 else 0) + x
                    = x)%nat) as -> by (intros x; by destruct (negb _)).
      by apply (IH (mkRecord (incr (count r)) (resetTime r))).
    + cbn [own_answers]. rewrite decide_False by lia. by apply IH.
Qed.

Lemma allowed_any_window ip es o a b :
  StronglySorted Z.le (time <$> es) →
  (b ≤ a + RATE_LIMIT_WINDOW)%Z →
  (allowed (λ t, a ≤ t ≤ b)%Z (own_answers ip es o) ≤ 200)%nat.
Proof.
  revert o. induction es as [|e es IH]; intros o Hs Hb; [cbv [allowed]; simpl; lia|].
  destruct (decide (a ≤ time e)%Z) as [Hge|Hlt].
  - assert (Forall (λ e, (a ≤ time e)%Z) (e :: es)) as Hall.
    { rewrite fmap_cons in Hs. apply StronglySorted_inv in Hs as [_ Hs].
      rewrite Forall_fmap in Hs. constructor; [done|].
      eapply Forall_impl; [exact Hs|]. intros e'; simpl. lia. }
    assert (idle_record a o ∨ ∃ r, o = Some r ∧ (a ≤ resetTime r)%Z)
      as [Hidle|(r & -> & Hbusy)].
    { destruct o as [r|]; [|by left]. simpl.
      destruct (decide (resetTime r < a)%Z); [by left|right].
      exists r. split; [done|lia]. }
    + etrans; [apply (allowed_mono _ (λ t, t ≤ b)%Z); intros t; lia|].
      etrans; [by apply (allowed_idle ip (e :: es) o a)|]. lia.
    + etrans; [apply (allowed_split _ (λ t, t ≤ resetTime r)%Z
                        (λ t, resetTime r < t ≤ b)%Z); intros t; lia|].
      pose proof (allowed_current_window ip (e :: es) r Hs).
      pose proof (allowed_after_window ip (e :: es) r b Hs). lia.
  - rewrite fmap_cons in Hs. apply StronglySorted_inv in Hs as [Hs _].
    destruct e as [now ip'|now]; simpl in Hlt; cbn [own_answers].
    + destruct (decide (ip' = ip)) as [->|Hne]; [|by apply IH].
      rewrite allowed_cons.
      rewrite (decide_False (P := (a ≤ now ≤ b)%Z)) by lia.
      assert (∀ (c : bool) x, ((if c then 0 else 0) + x = x)%nat) as ->
        by (intros c x; by destruct c).
      by apply IH.
    + by apply IH.
Qed.

(** X20. Whatever the addresses do and whenever the cleanup runs, as long as
    the clock does not go back: in any span of [RATE_LIMIT_WINDOW]
    milliseconds, [checkRateLimit] lets through at most twice
    [MAX_REQUESTS] requests of one address. *)
Theorem rate_limit_any_minute ip es m a b :
  Sorted Z.le (time <$> es) →
  (b ≤ a + RATE_LIMIT_WINDOW)%Z →
  (allowed (λ t, a ≤ t ≤ b)%Z (answers ip es m) ≤ 2 * N.to_nat MAX_REQUESTS)%nat.
Proof.
  intros Hs Hb. rewrite answers_own_record.
  apply Sorted_StronglySorted in Hs; [|intros x y z; apply Z.le_trans].
  etrans; [by apply allowed_any_window|]. by vm_compute.
Qed.

Lemma answers_in_window ip es r :
  Forall (λ e, (time e ≤ resetTime r)%Z) es →
  (own_answers ip es (Some r)).*2
  = (λ i, bool_decide (i < 100 - N.to_nat (count r))%nat)
      <$> seq 0 (length (own_answers ip es (Some r))).
Proof.
  intros Hes. revert r Hes. induction es as [|e es IH]; intros r Hes; [done|].
  apply Forall_cons in Hes as [He Hes].
  destruct e as [now ip'|now]; simpl in He; cbn [own_answers].
  - destruct (decide (ip' = ip)) as [->|Hne]; [|by apply IH].
    rewrite decide_record_window by done. cbn [fst snd length fmap list_fmap seq].
    rewrite (IH (mkRecord (incr (count r)) (resetTime r))) by done.
    cbn [count]. f_equal.
    + unfold MAX_REQUESTS, incr.
      destruct (N.ltb_spec (count r) (2 ^ 53)) as [Hc|Hc];
        change (2 ^ 53)%N with 9007199254740992%N in Hc.
      * destruct (N.ltb_spec 100 (count r + 1)); simpl.
        -- by rewrite bool_decide_eq_false_2 by lia.
        -- by rewrite bool_decide_eq_true_2 by lia.
      * destruct (N.ltb_spec 100 (count r)); [|lia]. simpl.
        by rewrite bool_decide_eq_false_2 by lia.
    + rewrite <- fmap_S_seq, <- list_fmap_compose.
      apply list_fmap_ext. intros _ i _. simpl. apply bool_decide_ext.
      unfold incr.
      destruct (N.ltb_spec (count r) (2 ^ 53)) as [Hc|Hc];
        change (2 ^ 53)%N with 9007199254740992%N in Hc; lia.
  - rewrite decide_False by lia. by apply IH.
Qed.

(** X19. An address whose record is idle (none, or one whose window is over)
    and that then sends requests during [RATE_LIMIT_WINDOW] milliseconds,
    while other addresses send theirs and the cleanup runs: exactly its
    first [MAX_REQUESTS] requests are let through, all later ones are
    refused. *)
Theorem rate_limit_first_requests ip es m T :
  idle ip T m →
  Forall (λ e, T ≤ time e ≤ T + RATE_LIMIT_WINDOW)%Z es →
  (answers ip es m).*2
  = (λ i, bool_decide (i < N.to_nat MAX_REQUESTS)%nat)
      <$> seq 0 (length (answers ip es m)).
Proof.
  unfold idle. rewrite answers_own_record. generalize (m !! ip) as o.
  intros o Ho Hes. revert o Ho. induction Hes as [|e es He Hes IH]; intros o Ho; [done|].
  destruct e as [now ip'|now]; simpl in He; cbn [own_answers].
  - destruct (decide (ip' = ip)) as [->|Hne]; [|by apply IH].
    rewrite (decide_record_idle now T o) by (done || lia).
    cbn [fst snd length fmap list_fmap seq]. f_equal.
    rewrite answers_in_window.
    + cbn [count]. rewrite <- fmap_S_seq, <- list_fmap_compose.
      apply list_fmap_ext. intros _ i _. simpl. apply bool_decide_ext.
      change (N.to_nat MAX_REQUESTS) with 100%nat. change (N.to_nat 1) with 1%nat. lia.
    + cbn [resetTime]. eapply Forall_impl; [exact Hes|]. intros e'; simpl. lia.
  - apply IH. by apply cleanup_idle.
Qed.

Lemma own_answers_filter ip es o1 o2 T :
  StronglySorted Z.le (time <$> es) →
  Forall (λ e, (T ≤ time e)%Z) es →
  o1 = o2 ∨ (o1 = None ∧ idle_record T o2) →
  own_answers ip es o1 = own_answers ip (filter (own ip) es) o2.
Proof.
  intros Hs. revert o1 o2 T.
  induction es as [|e es IH]; intros o1 o2 T Hes Ho; [done|].
  rewrite fmap_cons in Hs. apply StronglySorted_inv in Hs as [Hs Hge].
  rewrite Forall_fmap in Hge. apply Forall_cons in Hes as [He Hes].
  destruct e as [now ip'|now]; simpl in He.
  - destruct (decide (ip' = ip)) as [->|Hne].
    + rewrite filter_cons_True by done. cbn [own_answers].
      rewrite !decide_True by done.
      assert (decide_record now o1 = decide_record now o2) as ->.
      { destruct Ho as [->|[-> Ho]]; [done|].
        by rewrite (decide_record_idle now T o2). }
      f_equal. apply (IH Hs _ _ T); [done|by left].
    + rewrite filter_cons_False by done. cbn [own_answers].
      rewrite decide_False by done. by apply (IH Hs _ _ T).
  - rewrite filter_cons_False by (simpl; tauto). cbn [own_answers].
    apply (IH Hs _ _ now); [done|].
    destruct Ho as [->|[-> Ho]].
    + destruct o2 as [r|]; [|by left].
      destruct (decide (resetTime r < now)%Z); [right|left]; done.
    + right. split; [done|]. destruct o2 as [r|]; simpl in *; [lia|done].
Qed.

(** X21. As long as the clock does not go back, the answers an address gets
    depend on its own requests only: neither the requests of other
    addresses nor the runs of the cleanup change any of them. *)
Theorem rate_limit_own_requests_only ip es m :
  Sorted Z.le (time <$> es) →
  answers ip es m = answers ip (filter (own ip) es) m.
Proof.
  intros Hs. rewrite !answers_own_record.
  apply Sorted_StronglySorted in Hs; [|intros x y z; apply Z.le_trans].
  destruct es as [|e es]; [done|].
  apply (own_answers_filter ip (e :: es) _ _ (time e)); [done| |by left].
  rewrite fmap_cons in Hs. apply StronglySorted_inv in Hs as [_ Hge].
  rewrite Forall_fmap in Hge. constructor; [lia|done].
Qed.

End rate_limit_facts.

Lemma rate_limit_any_minute_witness :
  (router.allowed (λ t, 1000 ≤ t ≤ 61000)%Z
     (router.answers (js "10.0.0.1")
        [router.Request 1000 (js "10.0.0.1"); router.Request 1500 (js "10.0.0.2");
         router.Cleanup 60000; router.Request 61000 (js "10.0.0.1")] ∅)
   ≤ 2 * N.to_nat router.MAX_REQUESTS)%nat.
Proof.
  apply rate_limit_any_minute.
  - simpl. repeat constructor; lia.
  - by vm_compute.
Defined.

Lemma rate_limit_first_requests_witness :
  (router.answers (js "10.0.0.1")
     [router.Request 1000 (js "10.0.0.1"); router.Request 1500 (js "10.0.0.2");
      router.Cleanup 60000; router.Request 61000 (js "10.0.0.1")]
     (∅ : gmap jsstring router.record)).*2
  = [true; true].
Proof.
  rewrite (rate_limit_first_requests _ _ _ 1000).
  - rewrite answers_own_record. reflexivity.
  - unfold router.idle. by rewrite lookup_empty.
  - unfold router.RATE_LIMIT_WINDOW. repeat constructor; simpl; lia.
Defined.

Lemma rate_limit_own_requests_only_witness :
  router.answers (js "10.0.0.1")
    [router.Request 1000 (js "10.0.0.1"); router.Request 1500 (js "10.0.0.2");
     router.Cleanup 60000; router.Request 61000 (js "10.0.0.1")]
    (∅ : gmap jsstring router.record)
  = router.answers (js "10.0.0.1")
      [router.Request 1000 (js "10.0.0.1"); router.Request 61000 (js "10.0.0.1")] ∅.
Proof.
  rewrite rate_limit_own_requests_only; [reflexivity|].
  simpl. repeat constructor; lia.
Defined.

(** ** The upload endpoint *)

Lemma extractBoundary_upload_content_type b :
  boundary_token b → extractBoundary (upload_content_type b) = Some b.
Proof.
  intros (Hne & Hsemi & Htrim & Hquote).
  unfold upload_content_type, extractBoundary.
  change (js "multipart/form-data; boundary=" ++ b)
    with (js "multipart/form-data; " ++ js "boundary=" ++ b).
  rewrite <- (app_nil_r b) at 1.
  rewrite match_boundary_found; [|vm_compute; set_solver|done|done|by left].
  cbv zeta. rewrite Htrim.
  destruct b as [|c b]; [done|].
  assert (startsWith (c :: b) [CHAR_QUOTE] = false) as ->; [|done].
  cbn [startsWith].
  destruct (N.eqb CHAR_QUOTE c) eqn:Heq; [|done].
  apply N.eqb_eq in Heq as <-. done.
Qed.

Lemma includes_upload_content_type b :
  controller.includes (upload_content_type b) (js "multipart/form-data") = true.
Proof. done. Qed.

Lemma parseMultipart_upload_request utf8_encode utf8_decode boundary uploads
    target :
  (∀ b, Forall (λ c, (c < 128)%N) b → utf8_decode b = b) →
  Forall (λ c, (c < 128)%N) target →
  Forall well_formed_upload uploads →
  Forall (λ u, delimiter_free (boundaryBuffer utf8_encode boundary)
                 (file_part_of u)) uploads →
  delimiter_free (boundaryBuffer utf8_encode boundary)
    (field_part (js "path") target) →
  parseMultipart utf8_encode utf8_decode
    (upload_body utf8_encode boundary uploads target) boundary
  = Some (mkMultipart {[ js "path" := target ]} uploads).
Proof.
  intros Hdec Hascii Hwf Hfree Hpath.
  unfold upload_body, parseMultipart, parseMultipart_fuel.
  rewrite loop_framed_start.
  - rewrite fold_left_app, fold_decode_files by done.
    cbn [fold_left fields files app]. unfold decode_part.
    rewrite parsePart_field; [|done| |].
    + cbn [default fields files]. by rewrite (Hdec target).
    + repeat split; [done| |vm_compute; set_solver].
      unfold header_text. by repeat (constructor; [done|]).
    + vm_compute. set_solver.
  - done.
  - apply Forall_app_2; [|by repeat constructor].
    by apply Forall_fmap.
  - lia.
Qed.

(** What a successful call of the service leaves in the target
    directory. *)
Lemma uploadFile_stored dir fs now mtime u xs fs' r :
  path.isAbsolute dir = true →
  Forall ordinary_segment xs → flat_name u →
  uploadFile dir fs now mtime u (join_with [CHAR_FORWARD_SLASH] xs)
  = inr (fs', r) →
  ordinary_segment (up_filename r)
  ∧ up_path r = join_with [CHAR_FORWARD_SLASH] (xs ++ [up_filename r])
  ∧ stored dir xs fs' (up_filename r) (UploadedPart.content u)
  ∧ ∀ name c, name ≠ up_filename r →
              stored dir xs fs name c → stored dir xs fs' name c.
Proof.
  intros Habs Hxs [Hslash Hback] Hup.
  apply uploadFile_inv in Hup
    as (targetDir & stats & name & Hvalid & Hres & Hstat & Hdir & Hname
        & Hwrite & -> & -> & _).
  destruct (root_segments_plain dir Habs) as (Hroot & _ & _).
  destruct (resolvePath_ordinary dir xs Habs Hxs) as [Hres' _].
  rewrite Hres' in Hres. injection Hres as <-.
  assert (Hsegs : Forall plain_segment (root_segments dir ++ xs)).
  { apply Forall_app. split; [done|by apply Forall_ordinary_plain]. }
  assert (Hord : ordinary_segment name).
  { destruct Hname as [-> | ->];
      [by apply ordinary_name|by apply rewritten_name_ordinary]. }
  pose proof (ordinary_plain _ Hord) as Hplain.
  rewrite join_abs_segment in Hwrite by done.
  apply fs_writeFile_child in Hwrite as (es & sz & t & Hwalk & Hwalk');
    [|done|done].
  split; [done|]. split.
  { apply join_relative_segment; [by apply Forall_ordinary_plain|done]. }
  split.
  - exists (aput name (File (UploadedPart.content u) mtime) es), sz, t, mtime.
    split; [done|]. apply alookup_aput_eq.
  - intros name' c Hne (es0 & sz0 & t0 & tm & Hw & Hlook).
    rewrite Hwalk in Hw. injection Hw as <- <- <-.
    exists (aput name (File (UploadedPart.content u) mtime) es), sz, t, tm.
    split; [done|]. by rewrite alookup_aput_ne.
Qed.

Lemma stored_download dir xs fs name c :
  path.isAbsolute dir = true →
  Forall ordinary_segment xs → ordinary_segment name →
  stored dir xs fs name c →
  downloadFile dir fs (join_with [CHAR_FORWARD_SLASH] (xs ++ [name]))
  = inr (mkDownload c name (getMimeType name)).
Proof.
  intros Habs Hxs Hname (es & sz & t & tm & Hwalk & Hlook).
  destruct (root_segments_plain dir Habs) as (Hroot & _ & _).
  assert (Hxs' : Forall ordinary_segment (xs ++ [name])).
  { apply Forall_app. split; [done|by constructor]. }
  destruct (resolvePath_ordinary dir (xs ++ [name]) Habs Hxs') as [Hres _].
  rewrite app_assoc in Hres.
  eapply downloadFile_child; [|by apply ordinary_plain|exact Hres|exact Hwalk|exact Hlook].
  apply Forall_app. split; [done|by apply Forall_ordinary_plain].
Qed.

Lemma upload_all_stored dir clock stamp xs uploads :
  path.isAbsolute dir = true →
  Forall ordinary_segment xs → Forall flat_name uploads →
  ∀ i fs fs' results,
    controller.upload_all dir clock stamp i fs uploads
      (join_with [CHAR_FORWARD_SLASH] xs) = (fs', inr results) →
    (∀ name c, name ∉ up_filename <$> results →
               stored dir xs fs name c → stored dir xs fs' name c)
    ∧ (NoDup (up_filename <$> results) →
       Forall2 (λ u r,
                  ordinary_segment (up_filename r)
                  ∧ up_path r
                    = join_with [CHAR_FORWARD_SLASH] (xs ++ [up_filename r])
                  ∧ stored dir xs fs' (up_filename r) (UploadedPart.content u))
         uploads results).
Proof.
  intros Habs Hxs Hflat.
  induction Hflat as [|u uploads Hu Hflat IH]; intros i fs fs' results Hall.
  - simpl in Hall. injection Hall as <- <-. split; [done|]. by constructor.
  - cbn [controller.upload_all] in Hall.
    destruct (uploadFile dir fs (clock i) (stamp i) u _) as [e|[fs1 r]] eqn:Hup;
      [done|].
    destruct (controller.upload_all dir clock stamp (S i) fs1 uploads _)
      as [fs2 [e|rest]] eqn:Hrest; [done|].
    simpl in Hall. injection Hall as <- <-.
    destruct (uploadFile_stored _ _ _ _ _ _ _ _ Habs Hxs Hu Hup)
      as (Hord & Hpath & Hst & Hframe).
    destruct (IH _ _ _ _ Hrest) as [Hkeep Hdone].
    split.
    + intros name c Hname Hs. rewrite fmap_cons, not_elem_of_cons in Hname.
      destruct Hname as [Hne Hname]. apply Hkeep; [done|]. by apply Hframe.
    + rewrite fmap_cons, NoDup_cons. intros [Hfresh Hnd].
      constructor; [|by apply Hdone].
      split; [done|]. split; [done|]. by apply Hkeep.
Qed.

(** X22. What is uploaded over HTTP can be downloaded: when the request a
    browser sends for some files and a target directory (ordinary
    segments, ASCII) is answered with success, there is one result for
    every file, in order, and, provided the reported names are pairwise
    different, [downloadFile] on every reported path returns the bytes of
    the corresponding file, whatever they are. *)
Theorem upload_request_then_download utf8_encode utf8_decode dir clock stamp
    fs boundary uploads xs chunks fs' results :
  (∀ b, Forall (λ c, (c < 128)%N) b → utf8_decode b = b) →
  path.isAbsolute dir = true →
  boundary_token boundary →
  Forall ordinary_segment xs →
  Forall (λ c, (c < 128)%N) (join_with [CHAR_FORWARD_SLASH] xs) →
  Forall well_formed_upload uploads →
  Forall flat_name uploads →
  Forall (λ u, delimiter_free (boundaryBuffer utf8_encode boundary)
                 (file_part_of u)) uploads →
  delimiter_free (boundaryBuffer utf8_encode boundary)
    (field_part (js "path") (join_with [CHAR_FORWARD_SLASH] xs)) →
  concat chunks
  = upload_body utf8_encode boundary uploads
      (join_with [CHAR_FORWARD_SLASH] xs) →
  controller.uploadFile utf8_encode utf8_decode dir clock stamp fs
    (Some (upload_content_type boundary)) chunks
  = Some (fs', controller.sendSuccess results) →
  NoDup (up_filename <$> results) →
  Forall2 (λ u r,
             downloadFile dir fs' (up_path r)
             = inr (mkDownload (UploadedPart.content u) (up_filename r)
                      (getMimeType (up_filename r))))
    uploads results.
Proof.
  intros Hdec Habs Hb Hxs Hascii Hwf Hflat Hfree Hpath Hbody Hreq Hnd.
  unfold controller.uploadFile in Hreq.
  rewrite includes_upload_content_type in Hreq. cbn [negb] in Hreq.
  rewrite extractBoundary_upload_content_type in Hreq by done.
  destruct Hb as (Hne & _). destruct boundary as [|b0 boundary]; [done|].
  cbv zeta in Hreq. rewrite Hbody in Hreq.
  destruct (_ <? _)%N; [done|].
  rewrite parseMultipart_upload_request in Hreq by done.
  cbn [mbind option_bind files fields] in Hreq.
  destruct uploads as [|u uploads]; [done|].
  rewrite lookup_singleton_eq in Hreq. cbn [default] in Hreq.
  destruct (controller.upload_all dir clock stamp 0 fs (u :: uploads) _)
    as [fs1 [e|rs]] eqn:Hall; [done|].
  simpl in Hreq. injection Hreq as <- <-.
  destruct (upload_all_stored dir clock stamp xs (u :: uploads) Habs Hxs Hflat
              _ _ _ _ Hall) as [_ Hdone].
  eapply Forall2_impl; [by apply Hdone|].
  intros u' r (Hord & -> & Hst). by apply stored_download.
Qed.

Lemma upload_request_then_download_witness :
  ∃ fs' results,
    controller.uploadFile id id (js "/srv/app") (λ _, 7%N) (λ _, 9%Z)
      (host_with_root [(js "docs", Dir [] 4096 0)])
      (Some (upload_content_type (js "XYZ")))
      [upload_body id (js "XYZ") [upload_of "notes.txt"] (js "docs")]
    = Some (fs', controller.sendSuccess results)
    ∧ Forall2 (λ u r,
                 downloadFile (js "/srv/app") fs' (up_path r)
                 = inr (mkDownload (UploadedPart.content u) (up_filename r)
                          (getMimeType (up_filename r))))
        [upload_of "notes.txt"] results.
Proof.
  assert (H1 : ∀ b : buffer, Forall (λ c, (c < 128)%N) b → id b = b) by done.
  assert (H2 : boundary_token (js "XYZ")).
  { repeat split; [done| |done]. vm_compute. set_solver. }
  assert (H3 : Forall ordinary_segment [js "docs"]).
  { constructor; [exact ordinary_segment_docs|constructor]. }
  assert (H4 : Forall (λ c, (c < 128)%N)
                 (join_with [CHAR_FORWARD_SLASH] [js "docs"])).
  { vm_compute. repeat constructor. }
  assert (H5 : Forall well_formed_upload [upload_of "notes.txt"]).
  { repeat constructor; try done; try (vm_compute; set_solver). }
  assert (H6 : Forall flat_name [upload_of "notes.txt"]).
  { repeat constructor; vm_compute; set_solver. }
  assert (H7 : Forall (λ u, delimiter_free (boundaryBuffer id (js "XYZ"))
                              (file_part_of u)) [upload_of "notes.txt"]).
  { repeat constructor. apply delimiter_free_indexOf. vm_compute. reflexivity. }
  assert (H8 : delimiter_free (boundaryBuffer id (js "XYZ"))
                 (field_part (js "path")
                    (join_with [CHAR_FORWARD_SLASH] [js "docs"]))).
  { apply delimiter_free_indexOf. vm_compute. reflexivity. }
  assert (H9 : concat [upload_body id (js "XYZ") [upload_of "notes.txt"]
                         (js "docs")]
               = upload_body id (js "XYZ") [upload_of "notes.txt"]
                   (join_with [CHAR_FORWARD_SLASH] [js "docs"])).
  { vm_compute. reflexivity. }
  destruct (controller.uploadFile id id (js "/srv/app") (λ _, 7%N) (λ _, 9%Z)
              (host_with_root [(js "docs", Dir [] 4096 0)])
              (Some (upload_content_type (js "XYZ")))
              [upload_body id (js "XYZ") [upload_of "notes.txt"] (js "docs")])
    as [[fs' [results|msg code]]|] eqn:Hreq;
    [|vm_compute in Hreq; discriminate Hreq|vm_compute in Hreq; discriminate Hreq].
  exists fs', results. split; [exact eq_refl|].
  apply (upload_request_then_download id id (js "/srv/app") (λ _, 7%N) (λ _, 9%Z)
           (host_with_root [(js "docs", Dir [] 4096 0)]) (js "XYZ")
           [upload_of "notes.txt"] [js "docs"] _ fs' results
           H1 eq_refl H2 H3 H4 H5 H6 H7 H8 H9 Hreq).
  vm_compute in Hreq. injection Hreq as _ <-.
  vm_compute. repeat constructor. set_solver.
Defined.

Lemma upload_all_failure dir clock stamp target before u after e :
  ∀ i fs fs1 results,
    controller.upload_all dir clock stamp i fs before target = (fs1, inr results) →
    uploadFile dir fs1 (clock (i + length before))
      (stamp (i + length before)) u target = inl e →
    controller.upload_all dir clock stamp i fs (before ++ u :: after) target
    = (fs1, inl e).
Proof.
  induction before as [|b before IH]; intros i fs fs1 results Hbefore Hu.
  - simpl in Hbefore. injection Hbefore as <- <-.
    rewrite Nat.add_0_r in Hu. simpl. by rewrite Hu.
  - cbn [controller.upload_all app] in *.
    destruct (uploadFile dir fs (clock i) (stamp i) b target) as [e'|[fs2 r]]; [done|].
    destruct (controller.upload_all dir clock stamp (S i) fs2 before target)
      as [fs3 [e'|rest]] eqn:Hrest; [done|].
    simpl in Hbefore. injection Hbefore as <- <-.
    rewrite (IH (S i) fs2 fs3 rest); [done|done|].
    by replace (S i + length before) with (i + length (b :: before))
      by (simpl; lia).
Qed.

(** X23. An upload request is not undone when it fails: when the service
    refuses one of the files, the request is answered with an error of
    status 500, yet the file system is left as the files before that one
    made it, and each of them (reported names pairwise different) can be
    downloaded. *)
Theorem upload_request_keeps_earlier_files utf8_encode utf8_decode dir clock
    stamp fs boundary before u after xs chunks fs1 results e :
  (∀ b, Forall (λ c, (c < 128)%N) b → utf8_decode b = b) →
  path.isAbsolute dir = true →
  boundary_token boundary →
  Forall ordinary_segment xs →
  Forall (λ c, (c < 128)%N) (join_with [CHAR_FORWARD_SLASH] xs) →
  Forall well_formed_upload (before ++ u :: after) →
  Forall flat_name before →
  Forall (λ u, delimiter_free (boundaryBuffer utf8_encode boundary)
                 (file_part_of u)) (before ++ u :: after) →
  delimiter_free (boundaryBuffer utf8_encode boundary)
    (field_part (js "path") (join_with [CHAR_FORWARD_SLASH] xs)) →
  concat chunks
  = upload_body utf8_encode boundary (before ++ u :: after)
      (join_with [CHAR_FORWARD_SLASH] xs) →
  (N.of_nat (length (concat chunks)) ≤ controller.MAX_SIZE)%N →
  controller.upload_all dir clock stamp 0 fs before
    (join_with [CHAR_FORWARD_SLASH] xs) = (fs1, inr results) →
  uploadFile dir fs1 (clock (length before)) (stamp (length before)) u
    (join_with [CHAR_FORWARD_SLASH] xs) = inl e →
  controller.uploadFile utf8_encode utf8_decode dir clock stamp fs
    (Some (upload_content_type boundary)) chunks
  = Some (fs1, controller.sendError (controller.ErrorMessage e) 500)
  ∧ (NoDup (up_filename <$> results) →
     Forall2 (λ u r,
                downloadFile dir fs1 (up_path r)
                = inr (mkDownload (UploadedPart.content u) (up_filename r)
                         (getMimeType (up_filename r))))
       before results).
Proof.
  intros Hdec Habs Hb Hxs Hascii Hwf Hflat Hfree Hpath Hbody Hsize Hbefore Hu.
  split.
  - unfold controller.uploadFile.
    rewrite includes_upload_content_type. cbn [negb].
    rewrite extractBoundary_upload_content_type by done.
    destruct Hb as (Hne & _). destruct boundary as [|b0 boundary]; [done|].
    cbv zeta. destruct (N.ltb_spec controller.MAX_SIZE
                          (N.of_nat (length (concat chunks)))); [lia|].
    rewrite Hbody, parseMultipart_upload_request by done.
    cbn [mbind option_bind files fields].
    rewrite lookup_singleton_eq. cbn [default].
    rewrite (upload_all_failure dir clock stamp _ before u after e 0 fs fs1 results)
      by done.
    by destruct before.
  - intros Hnd.
    destruct (upload_all_stored dir clock stamp xs before Habs Hxs Hflat
                _ _ _ _ Hbefore) as [_ Hdone].
    eapply Forall2_impl; [by apply Hdone|].
    intros u' r (Hord & -> & Hst). by apply stored_download.
Qed.

Lemma upload_request_keeps_earlier_files_witness :
  ∃ fs1,
    controller.uploadFile id id (js "/srv/app") (λ _, 7%N) (λ _, 9%Z)
      (host_with_root [(js "docs", Dir [] 4096 0)])
      (Some (upload_content_type (js "XYZ")))
      [upload_body id (js "XYZ") [upload_of "notes.txt"; upload_of "con.txt"]
         (js "docs")]
    = Some (fs1, controller.sendError (controller.ErrorMessage InvalidName) 500)
    ∧ downloadFile (js "/srv/app") fs1 (js "docs/notes.txt")
      = inr (mkDownload (js "new") (js "notes.txt") (js "text/plain")).
Proof.
  assert (H1 : ∀ b : buffer, Forall (λ c, (c < 128)%N) b → id b = b) by done.
  assert (H2 : boundary_token (js "XYZ")).
  { repeat split; [done| |done]. vm_compute. set_solver. }
  assert (H3 : Forall ordinary_segment [js "docs"]).
  { constructor; [exact ordinary_segment_docs|constructor]. }
  assert (H4 : Forall (λ c, (c < 128)%N)
                 (join_with [CHAR_FORWARD_SLASH] [js "docs"])).
  { vm_compute. repeat constructor. }
  assert (H5 : Forall well_formed_upload
                 ([upload_of "notes.txt"] ++ upload_of "con.txt" :: [])).
  { repeat constructor; try done; try (vm_compute; set_solver). }
  assert (H6 : Forall flat_name [upload_of "notes.txt"]).
  { repeat constructor; vm_compute; set_solver. }
  assert (H7 : Forall (λ u, delimiter_free (boundaryBuffer id (js "XYZ"))
                              (file_part_of u))
                 ([upload_of "notes.txt"] ++ upload_of "con.txt" :: [])).
  { repeat constructor; apply delimiter_free_indexOf; vm_compute; reflexivity. }
  assert (H8 : delimiter_free (boundaryBuffer id (js "XYZ"))
                 (field_part (js "path")
                    (join_with [CHAR_FORWARD_SLASH] [js "docs"]))).
  { apply delimiter_free_indexOf. vm_compute. reflexivity. }
  assert (H9 : concat [upload_body id (js "XYZ")
                         [upload_of "notes.txt"; upload_of "con.txt"]
                         (js "docs")]
               = upload_body id (js "XYZ")
                   ([upload_of "notes.txt"] ++ upload_of "con.txt" :: [])
                   (join_with [CHAR_FORWARD_SLASH] [js "docs"])).
  { vm_compute. reflexivity. }
  assert (H10 : (N.of_nat (length (concat [upload_body id (js "XYZ")
                   [upload_of "notes.txt"; upload_of "con.txt"] (js "docs")]))
                 ≤ controller.MAX_SIZE)%N).
  { vm_compute. discriminate. }
  assert (Hnd : NoDup (up_filename <$> [mkUploaded (js "Archivo subido exitosamente")
                  (js "notes.txt") (js "docs/notes.txt") 3])).
  { vm_compute. repeat constructor. set_solver. }
  destruct (controller.upload_all (js "/srv/app") (λ _, 7%N) (λ _, 9%Z) 0
              (host_with_root [(js "docs", Dir [] 4096 0)])
              [upload_of "notes.txt"]
              (join_with [CHAR_FORWARD_SLASH] [js "docs"]))
    as [fs1 [e|results]] eqn:Hbefore;
    [vm_compute in Hbefore; discriminate Hbefore|].
  assert (H11 : uploadFile (js "/srv/app") fs1 7 9 (upload_of "con.txt")
                  (join_with [CHAR_FORWARD_SLASH] [js "docs"])
                = inl InvalidName).
  { vm_compute. reflexivity. }
  destruct (upload_request_keeps_earlier_files id id (js "/srv/app") (λ _, 7%N) (λ _, 9%Z)
              (host_with_root [(js "docs", Dir [] 4096 0)]) (js "XYZ")
              [upload_of "notes.txt"] (upload_of "con.txt") [] [js "docs"] _
              fs1 results InvalidName
              H1 eq_refl H2 H3 H4 H5 H6 H7 H8 H9 H10 Hbefore H11)
    as [Hreply Hfiles].
  exists fs1. split; [exact Hreply|].
  vm_compute in Hbefore. injection Hbefore as <- <-.
  specialize (Hfiles Hnd). apply Forall2_cons_1 in Hfiles as [Hfile _].
  exact Hfile.
Defined.

(** ** The logger *)

Lemma split_on_log_file entries :
  Forall (λ line, CHAR_LF ∉ line) entries →
  split_on CHAR_LF (log_file entries) = entries ++ [[]].
Proof.
  unfold log_file. induction 1 as [|line entries Hline _ IH]; [done|].
  cbn [map concat]. rewrite <- app_assoc. cbn [app].
  rewrite split_on_app, split_on_notin by done. by rewrite IH.
Qed.

Lemma filter_log_entries entries :
  Forall log_entry entries →
  filter (λ line, trim line ≠ []) (entries ++ [[]]) = entries.
Proof.
  induction 1 as [|line entries [_ Hline] _ IH]; [done|].
  cbn [app]. rewrite filter_cons_True by done. by rewrite IH.
Qed.

(** X24. [readLog(n)] on the file [log] has written returns the last [n]
    lines, joined by line feeds, when [n] is at least 1 (all of them when
    there are fewer); [readLog(0)] returns every line of the log, not
    none. *)
Theorem readLog_last_entries entries n :
  Forall log_entry entries →
  (0 ≤ n)%Z →
  logger.readLog n (inr (log_file entries))
  = inr (join_with [CHAR_LF]
           (if (n =? 0)%Z then entries
            else drop (length entries - Z.to_nat n) entries)).
Proof.
  intros Hentries Hn. unfold logger.readLog.
  rewrite split_on_log_file
    by (eapply Forall_impl; [exact Hentries|]; by intros line [? _]).
  rewrite filter_log_entries by done. unfold logger.slice_from.
  destruct (Z.eqb_spec n 0) as [->|Hne]; [done|].
  destruct (Z.ltb_spec (- n) 0); [|lia]. by rewrite Z.opp_involutive.
Qed.

Lemma readLog_last_entries_witness :
  logger.readLog 2 (inr (log_file [js "one"; js "two"; js "three"]))
  = inr (js "two" ++ [CHAR_LF] ++ js "three")
  ∧ logger.readLog 0 (inr (log_file [js "one"; js "two"; js "three"]))
    = inr (js "one" ++ [CHAR_LF] ++ js "two" ++ [CHAR_LF] ++ js "three").
Proof.
  assert (H : Forall log_entry [js "one"; js "two"; js "three"]).
  { repeat constructor; vm_compute; (set_solver || discriminate). }
  split.
  - by rewrite (readLog_last_entries _ 2 H).
  - by rewrite (readLog_last_entries _ 0 H).
Defined.

(** *** The text of a date *)

Section logger_facts.
Import logger.

(** The characters of a formatted date. *)
Lemma pretty_N_go_length x s :
  String.length s ≤ String.length (pretty_N_go x s).
Proof.
  revert s. induction (N.lt_wf_0 x) as [x _ IH]; intros s.
  destruct (decide (x = 0%N)) as [->|Hx]; [by rewrite pretty_N_go_0|].
  rewrite pretty_N_go_step by lia.
  etrans; [|apply IH; apply N.div_lt; lia]. simpl. lia.
Qed.

Lemma pretty_N_nonempty (x : N) : js (pretty x) ≠ [].
Proof.
  unfold js. intros Hnil. apply fmap_nil_inv in Hnil.
  assert (String.length (pretty x) = 0) as Hlen.
  { by destruct (pretty x). }
  unfold pretty, pretty_N in Hlen.
  destruct (decide (x = 0%N)) as [|Hx]; [done|].
  rewrite pretty_N_go_step in Hlen by lia.
  pose proof (pretty_N_go_length (x `div` 10)
    (String (pretty_N_char (x `mod` 10)) "")) as Hle.
  simpl in Hle. lia.
Qed.

Lemma pretty_N_is_digit (x : N) :
  Forall (λ c, is_digit c = true) (js (pretty x)).
Proof.
  apply Forall_forall. intros c Hc%pretty_N_digits. unfold is_digit.
  apply andb_true_intro. split; apply N.leb_le; lia.
Qed.

Lemma pretty_N_number (x : N) : digits (js (pretty x)).
Proof. split; [apply pretty_N_nonempty|apply pretty_N_is_digit]. Qed.

(** The year is a number, or a number behind a minus sign. *)
Lemma pretty_Z_shape (z : Z) :
  digits (js (pretty z))
  ∨ ∃ ds, js (pretty z) = CHAR_DASH :: ds ∧ digits ds.
Proof.
  destruct z as [|p|p].
  - left. split; [done|]. by repeat constructor.
  - left. apply (pretty_N_number (Npos p)).
  - right. exists (js (pretty (Npos p))). split; [done|].
    apply pretty_N_number.
Qed.

Lemma is_digit_spec c : is_digit c = true ↔ (48 ≤ c ≤ 57)%N.
Proof.
  unfold is_digit. rewrite andb_true_iff, !N.leb_le. done.
Qed.

Lemma is_digit_plain c :
  is_digit c = true →
  c ≠ CHAR_OPEN ∧ c ≠ CHAR_CLOSE ∧ c ≠ CHAR_LF ∧ c ≠ CHAR_DOT
  ∧ c ≠ CHAR_DASH ∧ is_type_char c = false.
Proof.
  intros Hc%is_digit_spec.
  unfold CHAR_OPEN, CHAR_CLOSE, CHAR_LF, CHAR_DOT, CHAR_DASH, is_type_char,
    CHAR_UNDERSCORE.
  repeat split; try lia.
  destruct (N.leb_spec 65 c); [lia|]. simpl. apply N.eqb_neq. lia.
Qed.

Lemma digits_plain ds :
  Forall (λ c, is_digit c = true) ds →
  Forall (λ c, c ≠ CHAR_OPEN ∧ c ≠ CHAR_LF) ds.
Proof.
  intros H. eapply Forall_impl; [exact H|].
  intros c Hc. apply is_digit_plain in Hc. tauto.
Qed.

Lemma padStart_plain n (x : N) :
  Forall (λ c, c ≠ CHAR_OPEN ∧ c ≠ CHAR_LF) (padStart n (js (pretty x))).
Proof.
  unfold padStart. apply Forall_app. split.
  - apply Forall_replicate. by split.
  - apply digits_plain, pretty_N_is_digit.
Qed.

(** A date is written without bracket or line feed. *)
Lemma formatDate_plain date :
  Forall (λ c, c ≠ CHAR_OPEN ∧ c ≠ CHAR_LF) (formatDate date).
Proof.
  unfold formatDate. cbv zeta.
  repeat (apply Forall_app; split);
    try (by apply Forall_replicate);
    try (apply digits_plain, (pretty_N_is_digit (_ : N)));
    try (by repeat constructor).
  destruct (pretty_Z_shape (getFullYear date)) as [[_ H]|(ds & -> & _ & H)].
  - by apply digits_plain.
  - constructor; [done|by apply digits_plain].
Qed.

Lemma take_while_app p run rest :
  Forall (λ c, p c = true) run →
  match rest with c :: _ => p c = false | [] => True end →
  take_while p (run ++ rest) = run.
Proof.
  intros Hrun Hrest. induction Hrun as [|c run Hc _ IH]; simpl.
  - destruct rest as [|c rest]; [done|]. simpl. by rewrite Hrest.
  - by rewrite Hc, IH.
Qed.

Lemma digits_then_found stop ds rest :
  digits ds → is_digit stop = false →
  digits_then stop (ds ++ stop :: rest) = Some (ds, rest).
Proof.
  intros [Hne Hds] Hstop. unfold digits_then. cbv zeta.
  rewrite take_while_app by done.
  destruct ds as [|d ds]; [done|]. rewrite drop_app_length.
  by rewrite N.eqb_refl.
Qed.

Lemma digits_then_other stop ds c rest :
  Forall (λ c, is_digit c = true) ds → is_digit c = false → c ≠ stop →
  digits_then stop (ds ++ c :: rest) = None.
Proof.
  intros Hds Hc Hne. unfold digits_then. cbv zeta.
  rewrite take_while_app by done.
  destruct ds as [|d ds]; [done|]. rewrite drop_app_length.
  by apply N.eqb_neq in Hne as ->.
Qed.

(** No address starts at the bracket of the date. *)
Lemma ip_token_date date rest :
  ip_token (CHAR_OPEN :: formatDate date ++ rest) = None.
Proof.
  unfold ip_token. rewrite N.eqb_refl.
  assert (digits_then CHAR_DOT (formatDate date ++ rest) = None) as ->; [|done].
  unfold formatDate. cbv zeta. rewrite <- !app_assoc.
  destruct (pretty_Z_shape (getFullYear date)) as [[_ H]|(ds & -> & _)].
  - by apply digits_then_other.
  - done.
Qed.

(** The date starts with no character of an event type. *)
Lemma type_token_date date rest :
  type_token (CHAR_OPEN :: formatDate date ++ rest) = None.
Proof.
  unfold type_token. rewrite N.eqb_refl.
  assert (take_while is_type_char (formatDate date ++ rest) = []) as ->; [|done].
  unfold formatDate. cbv zeta. rewrite <- !app_assoc.
  destruct (pretty_Z_shape (getFullYear date)) as [[Hne H]|(ds & -> & _)].
  - destruct (js (pretty (getFullYear date))) as [|c y]; [done|].
    apply Forall_cons in H as [Hc%is_digit_plain _]. simpl.
    by destruct Hc as (_ & _ & _ & _ & _ & ->).
  - done.
Qed.

(** *** Scanning a line *)

Lemma type_token_other c s : c ≠ CHAR_OPEN → type_token (c :: s) = None.
Proof. intros Hc. simpl. by apply N.eqb_neq in Hc as ->. Qed.

Lemma ip_token_other c s : c ≠ CHAR_OPEN → ip_token (c :: s) = None.
Proof. intros Hc. simpl. by apply N.eqb_neq in Hc as ->. Qed.

Lemma match_types_skip p s k :
  CHAR_OPEN ∉ p → match_types (p ++ s) k = match_types s (k - length p).
Proof.
  revert k. induction p as [|c p IH]; intros k Hp.
  - simpl. by rewrite Nat.sub_0_r.
  - apply not_elem_of_cons in Hp as [Hc Hp].
    change ((c :: p) ++ s) with (c :: (p ++ s)). cbn [match_types].
    destruct k as [|k].
    + rewrite type_token_other by done. by rewrite IH.
    + by rewrite IH.
Qed.

Lemma match_types_plain s k : CHAR_OPEN ∉ s → match_types s k = [].
Proof.
  intros Hs. rewrite <- (app_nil_r s), match_types_skip by done.
  by destruct (k - length s).
Qed.

Lemma match_ip_skip p s : CHAR_OPEN ∉ p → match_ip (p ++ s) = match_ip s.
Proof.
  induction p as [|c p IH]; intros Hp; [done|].
  apply not_elem_of_cons in Hp as [Hc Hp].
  change ((c :: p) ++ s) with (c :: (p ++ s)). cbn [match_ip].
  rewrite ip_token_other by done. by apply IH.
Qed.

Lemma match_ip_plain s : CHAR_OPEN ∉ s → match_ip s = None.
Proof.
  intros Hs. rewrite <- (app_nil_r s), match_ip_skip by done. done.
Qed.

Lemma take_while_bound T rest :
  length (take_while is_type_char (T ++ CHAR_CLOSE :: rest)) ≤ length T.
Proof.
  induction T as [|c T IH]; simpl; [done|].
  destruct (is_type_char c); simpl; lia.
Qed.

(** A match at the bracket of the type ends within the brackets. *)
Lemma type_token_length T rest m :
  type_token (CHAR_OPEN :: T ++ CHAR_CLOSE :: rest) = Some m →
  length m ≤ length T + 2.
Proof.
  unfold type_token. rewrite N.eqb_refl. cbv zeta.
  pose proof (take_while_bound T rest) as Hlen.
  destruct (take_while is_type_char (T ++ CHAR_CLOSE :: rest)) as [|r run];
    [done|].
  destruct (drop _ _) as [|c' rest']; [done|].
  destruct (c' =? CHAR_CLOSE)%N; [|done]. intros [= <-].
  simpl. rewrite ?length_app. simpl in *. lia.
Qed.

(** After the maximal run of digits in the type comes no dot. *)
Lemma digits_then_type T rest :
  CHAR_DOT ∉ T → digits_then CHAR_DOT (T ++ CHAR_CLOSE :: rest) = None.
Proof.
  intros HT. unfold digits_then. cbv zeta.
  assert (∃ c tail,
            drop (length (take_while is_digit (T ++ CHAR_CLOSE :: rest)))
              (T ++ CHAR_CLOSE :: rest) = c :: tail ∧ c ≠ CHAR_DOT)
    as (c & tail & Hdrop & Hc).
  { induction T as [|x T IH]; [by eexists _, _|].
    apply not_elem_of_cons in HT as [Hx HT]. simpl.
    destruct (is_digit x); simpl; [by apply IH|]. by eexists _, _. }
  destruct (take_while is_digit (T ++ CHAR_CLOSE :: rest)) as [|r run];
    [done|].
  rewrite Hdrop. by apply N.eqb_neq in Hc as ->.
Qed.

Lemma ip_token_type T rest :
  CHAR_DOT ∉ T → ip_token (CHAR_OPEN :: T ++ CHAR_CLOSE :: rest) = None.
Proof.
  intros HT. unfold ip_token. rewrite N.eqb_refl.
  by rewrite digits_then_type.
Qed.

Lemma ip_token_address ip rest :
  ipv4 ip → ip_token (CHAR_OPEN :: ip ++ CHAR_CLOSE :: rest) = Some ip.
Proof.
  intros (a & b & c & d & Ha & Hb & Hc & Hd & ->).
  unfold ip_token. rewrite N.eqb_refl. rewrite <- !app_assoc.
  cbn [app]. rewrite digits_then_found by done. cbn [mbind option_bind].
  rewrite digits_then_found by done. cbn [mbind option_bind].
  rewrite digits_then_found by done. cbn [mbind option_bind].
  rewrite digits_then_found by done. done.
Qed.

Lemma type_token_address ip rest :
  ipv4 ip → type_token (CHAR_OPEN :: ip ++ rest) = None.
Proof.
  intros (a & b & c & d & [Hne Ha] & _ & _ & _ & ->).
  unfold type_token. rewrite N.eqb_refl. cbv zeta.
  destruct a as [|x a]; [done|].
  apply Forall_cons in Ha as [Hx%is_digit_plain _].
  destruct Hx as (_ & _ & _ & _ & _ & Hx). simpl. by rewrite Hx.
Qed.

Lemma ipv4_plain ip :
  ipv4 ip → Forall (λ c, c ≠ CHAR_OPEN ∧ c ≠ CHAR_LF) ip.
Proof.
  intros (a & b & c & d & [_ Ha] & [_ Hb] & [_ Hc] & [_ Hd] & ->).
  repeat (apply Forall_app; split);
    try (by apply digits_plain); by repeat constructor.
Qed.

Lemma open_not_in_gap : CHAR_OPEN ∉ [CHAR_CLOSE; CHAR_SPACE].
Proof. rewrite !not_elem_of_cons. repeat split; [done|done|apply not_elem_of_nil]. Qed.

Lemma Forall_not_elem (P : N → Prop) x s : Forall P s → ¬ P x → x ∉ s.
Proof. intros Hs Hx Hin. by apply (proj1 (Forall_forall _ _) Hs) in Hin. Qed.

(** The line of an event, bracket by bracket. *)
Lemma event_line_shape e :
  event_line e
  = CHAR_OPEN :: (formatDate (ev_time e) ++ [CHAR_CLOSE; CHAR_SPACE])
    ++ CHAR_OPEN :: (ev_type e ++ [CHAR_CLOSE; CHAR_SPACE])
    ++ CHAR_OPEN :: ev_ip e ++ CHAR_CLOSE :: CHAR_SPACE :: ev_message e.
Proof.
  unfold event_line, logMessage. cbn [app]. by rewrite <- !app_assoc.
Qed.

Lemma match_types_event e :
  plain_event e → length (match_types (event_line e) 0) ≤ 1.
Proof.
  intros (Hopen & Hdot & Hlf & Hip & Hmsg & Hmlf).
  rewrite event_line_shape.
  pose proof (formatDate_plain (ev_time e)) as Hdate.
  assert (Hd : CHAR_OPEN ∉ formatDate (ev_time e) ++ [CHAR_CLOSE; CHAR_SPACE]).
  { rewrite not_elem_of_app. split.
    - apply (Forall_not_elem _ _ _ Hdate). tauto.
    - apply open_not_in_gap. }
  assert (Ht : CHAR_OPEN ∉ ev_type e ++ [CHAR_CLOSE; CHAR_SPACE]).
  { rewrite not_elem_of_app. split; [done|]. apply open_not_in_gap. }
  assert (Hi : CHAR_OPEN ∉ ev_ip e ++ CHAR_CLOSE :: CHAR_SPACE :: ev_message e).
  { rewrite not_elem_of_app. split.
    - apply (Forall_not_elem _ _ _ (ipv4_plain _ Hip)). tauto.
    - rewrite !not_elem_of_cons. by repeat split. }
  set (s3 := CHAR_OPEN :: ev_ip e ++ _).
  assert (H3 : match_types s3 0 = []).
  { unfold s3. cbn [match_types]. rewrite type_token_address by done.
    by apply match_types_plain. }
  set (s2 := CHAR_OPEN :: (ev_type e ++ _) ++ s3).
  assert (H2 : length (match_types s2 0) ≤ 1).
  { unfold s2. cbn [match_types].
    destruct (type_token _) as [m|] eqn:Hm.
    - rewrite <- app_assoc in Hm. cbn [app] in Hm.
      apply type_token_length in Hm.
      rewrite match_types_skip by done.
      replace (length m - 1 - length (ev_type e ++ [CHAR_CLOSE; CHAR_SPACE]))
        with 0 by (rewrite length_app; simpl; lia).
      by rewrite H3.
    - rewrite match_types_skip by done. rewrite Nat.sub_0_l, H3. simpl. lia. }
  cbn [match_types].
  rewrite <- app_assoc, type_token_date, app_assoc.
  by rewrite match_types_skip, Nat.sub_0_l.
Qed.

Lemma match_ip_event e : plain_event e → match_ip (event_line e) = Some (ev_ip e).
Proof.
  intros (Hopen & Hdot & Hlf & Hip & Hmsg & Hmlf).
  rewrite event_line_shape.
  pose proof (formatDate_plain (ev_time e)) as Hdate.
  assert (Hd : CHAR_OPEN ∉ formatDate (ev_time e) ++ [CHAR_CLOSE; CHAR_SPACE]).
  { rewrite not_elem_of_app. split.
    - apply (Forall_not_elem _ _ _ Hdate). tauto.
    - apply open_not_in_gap. }
  assert (Ht : CHAR_OPEN ∉ ev_type e ++ [CHAR_CLOSE; CHAR_SPACE]).
  { rewrite not_elem_of_app. split; [done|]. apply open_not_in_gap. }
  cbn [match_ip].
  rewrite <- app_assoc, ip_token_date, app_assoc, match_ip_skip by done.
  cbn [match_ip].
  rewrite <- app_assoc. cbn [app]. rewrite ip_token_type by done.
  change (ev_type e ++ CHAR_CLOSE :: CHAR_SPACE :: ?t)
    with (ev_type e ++ [CHAR_CLOSE; CHAR_SPACE] ++ t).
  rewrite app_assoc, match_ip_skip by done.
  cbn [match_ip]. by rewrite ip_token_address.
Qed.

(** *** Counting *)

Lemma count_line_event stats e :
  plain_event e →
  count_line stats (event_line e)
  = mkLogStats (totalEvents stats) (byType stats)
      (count_up (ev_ip e) (byIP stats)).
Proof.
  intros He. unfold count_line. cbv zeta.
  rewrite match_ip_event by done.
  pose proof (match_types_event e He) as Hlen.
  destruct (match_types (event_line e) 0) as [|m [|m' ms]]; try done.
  simpl in Hlen. lia.
Qed.

Lemma count_line_empty stats : count_line stats [] = stats.
Proof. by destruct stats. Qed.

Lemma foldl_count_line stats events :
  Forall plain_event events →
  foldl count_line stats (event_line <$> events)
  = mkLogStats (totalEvents stats) (byType stats)
      (foldl (λ o e, count_up (ev_ip e) o) (byIP stats) events).
Proof.
  intros Hev. revert stats.
  induction Hev as [|e events He _ IH]; intros stats; [by destruct stats|].
  cbn [fmap list_fmap foldl]. rewrite count_line_event by done.
  change (list_fmap _ _ event_line events) with (event_line <$> events).
  by rewrite IH.
Qed.

Lemma foldl_count_up (o : gmap jsstring nat) events ip :
  default 0 (foldl (λ o e, count_up (ev_ip e) o) o events !! ip)
  = default 0 (o !! ip) + length (filter (λ e, ev_ip e = ip) events).
Proof.
  revert o. induction events as [|e events IH]; intros o; [simpl; lia|].
  cbn [foldl]. rewrite IH. unfold count_up.
  destruct (decide (ev_ip e = ip)) as [<-|Hne].
  - rewrite lookup_insert_eq, filter_cons_True by done. simpl. lia.
  - rewrite lookup_insert_ne, filter_cons_False by done. done.
Qed.

Lemma split_on_join lines :
  Forall (λ line, CHAR_LF ∉ line) lines → lines ≠ [] →
  split_on CHAR_LF (join_with [CHAR_LF] lines) = lines.
Proof.
  induction 1 as [|line lines Hline Hlines IH]; intros Hne; [done|].
  destruct (decide (lines = [])) as [->|Hne'].
  - by apply split_on_notin.
  - rewrite join_with_cons by done. cbn [app].
    rewrite split_on_app, split_on_notin, IH by done. done.
Qed.

Lemma trim_start_keeps c s :
  c ∈ s → is_js_space c = false → c ∈ trim_start s.
Proof.
  intros Hc Hsp. induction s as [|x s IH]; [done|]. simpl.
  destruct (is_js_space x) eqn:Hx; [|done].
  apply elem_of_cons in Hc as [->|Hc]; [congruence|by apply IH].
Qed.

Lemma trim_not_blank c s : c ∈ s → is_js_space c = false → trim s ≠ [].
Proof.
  intros Hc Hsp. unfold trim.
  assert (c ∈ reverse (trim_start (reverse (trim_start s)))) as Hin.
  { rewrite elem_of_reverse. apply trim_start_keeps; [|done].
    rewrite elem_of_reverse. by apply trim_start_keeps. }
  intros Hnil. rewrite Hnil in Hin. by apply elem_of_nil in Hin.
Qed.

Ltac closed_not_elem :=
  rewrite ?not_elem_of_cons; repeat split;
  first [ apply not_elem_of_nil | done ].

Lemma event_line_entry e : plain_event e → log_entry (event_line e).
Proof.
  intros (Hopen & Hdot & Hlf & Hip & Hmsg & Hmlf). split.
  - unfold event_line, logMessage.
    pose proof (formatDate_plain (ev_time e)) as Hdate.
    pose proof (ipv4_plain _ Hip) as Hip'.
    rewrite !not_elem_of_app. repeat split; try done.
    + closed_not_elem.
    + apply (Forall_not_elem _ _ _ Hdate). tauto.
    + closed_not_elem.
    + closed_not_elem.
    + apply (Forall_not_elem _ _ _ Hip'). tauto.
    + closed_not_elem.
  - apply (trim_not_blank CHAR_OPEN); [|done].
    rewrite event_line_shape. by left.
Qed.

(** X25. The statistics of a log written by [log] for events of clients
    with IPv4 addresses (types without bracket or dot, messages without
    bracket) cover the last 10000 lines: [byIP] counts the lines of every
    address, [byType] stays empty (no event type is ever counted), and
    [totalEvents] is the number of those lines, but 1 when the log is
    empty. *)
Theorem getLogStats_counts events :
  Forall plain_event events →
  ∃ stats,
    getLogStats (inr (log_file (event_line <$> events))) = inr stats
    ∧ totalEvents stats
      = max 1 (length (drop (length events - N.to_nat 10000) events))
    ∧ byType stats = ∅
    ∧ ∀ ip, default 0 (byIP stats !! ip)
            = length (filter (λ e, ev_ip e = ip)
                        (drop (length events - N.to_nat 10000) events)).
Proof.
  intros Hev.
  assert (Hentries : Forall log_entry (event_line <$> events)).
  { apply Forall_fmap. eapply Forall_impl; [exact Hev|].
    intros e. apply event_line_entry. }
  unfold getLogStats, readLog.
  rewrite split_on_log_file
    by (eapply Forall_impl; [exact Hentries|]; by intros line [? _]).
  rewrite filter_log_entries by done. unfold slice_from.
  destruct (Z.ltb_spec (Z.opp 10000) 0); [|lia].
  replace (Z.to_nat (Z.opp (Z.opp 10000))) with (N.to_nat 10000) by lia.
  rewrite length_fmap, <- fmap_drop.
  set (recent := drop (length events - N.to_nat 10000) events).
  assert (Hrecent : Forall plain_event recent) by (by apply Forall_drop).
  destruct recent as [|e recent'] eqn:Hr.
  - eexists. split; [done|]. by repeat split.
  - rewrite <- Hr in *. rewrite split_on_join.
    + rewrite foldl_count_line by done. eexists. split; [done|].
      cbn [totalEvents byType byIP]. rewrite length_fmap.
      split; [rewrite Hr; simpl; lia|]. split; [done|].
      intros ip. by rewrite foldl_count_up, lookup_empty.
    + apply Forall_fmap. eapply Forall_impl; [exact Hrecent|].
      intros e' He'. by destruct (event_line_entry e' He').
    + by rewrite Hr.
Qed.

End logger_facts.

Lemma getLogStats_counts_witness :
  ∃ stats,
    logger.getLogStats
      (inr (log_file (event_line <$>
         [mkLogEvent (logger.mkDate 2024 0 5 9 3 7 42) (js "LIST")
            (js "Listando: /") (js "127.0.0.1");
          mkLogEvent (logger.mkDate 2024 0 5 9 3 8 0) (js "DELETE")
            (js "docs/a.txt") (js "10.0.0.2");
          mkLogEvent (logger.mkDate 2024 0 5 9 4 0 1) (js "LIST")
            (js "Listando: docs") (js "127.0.0.1")])))
    = inr stats
    ∧ logger.totalEvents stats = 3
    ∧ logger.byType stats = ∅
    ∧ default 0 (logger.byIP stats !! js "127.0.0.1") = 2.
Proof.
  assert (Hd : ∀ s, s ≠ [] → forallb logger.is_digit s = true → digits s).
  { intros s Hne Hs. split; [done|].
    apply Forall_forall. intros c Hc.
    rewrite forallb_forall in Hs. apply Hs. by apply list_elem_of_In. }
  assert (H1 : ipv4 (js "127.0.0.1")).
  { exists (js "127"), (js "0"), (js "0"), (js "1").
    repeat split; try (by apply Hd); done. }
  assert (H2 : ipv4 (js "10.0.0.2")).
  { exists (js "10"), (js "0"), (js "0"), (js "2").
    repeat split; try (by apply Hd); done. }
  assert (H : Forall plain_event
    [mkLogEvent (logger.mkDate 2024 0 5 9 3 7 42) (js "LIST")
       (js "Listando: /") (js "127.0.0.1");
     mkLogEvent (logger.mkDate 2024 0 5 9 3 8 0) (js "DELETE")
       (js "docs/a.txt") (js "10.0.0.2");
     mkLogEvent (logger.mkDate 2024 0 5 9 4 0 1) (js "LIST")
       (js "Listando: docs") (js "127.0.0.1")]).
  { repeat constructor; try done; vm_compute; set_solver. }
  destruct (getLogStats_counts _ H) as (stats & Hs & Ht & Hb & Hip).
  exists stats. split; [exact Hs|]. split; [|split; [exact Hb|]].
  - rewrite Ht. vm_compute. reflexivity.
  - rewrite Hip. vm_compute. reflexivity.
Defined.

(** ** Static files *)

Lemma norm_step_dotdot top rest :
  plain_segment top →
  path.norm_step false (top :: rest) (js "..") = rest.
Proof.
  intros (_ & _ & _ & Hdd). unfold path.norm_step.
  change (str_eqb (js "..") [] || path.is_dot (js "..")) with false.
  change (path.is_dotdot (js "..")) with true. cbv iota.
  unfold path.is_dotdot, str_eqb. by rewrite bool_decide_eq_false_2.
Qed.

Lemma plain_segment_public : plain_segment (js "public").
Proof.
  repeat split; try done. apply (bool_decide_unpack _). by vm_compute.
Qed.

(** The directory [public] stands next to the one of the server. *)
Lemma PUBLIC_DIR_abs ps d :
  Forall plain_segment (ps ++ [d]) →
  server.PUBLIC_DIR (abs_path (ps ++ [d]) false)
  = abs_path (ps ++ [js "public"]) false.
Proof.
  intros Hpd. pose proof Hpd as [Hps Hd]%Forall_app. apply Forall_inv in Hd.
  unfold server.PUBLIC_DIR, path.join. rewrite !filter_cons_True by done.
  rewrite filter_nil.
  change (join_with [CHAR_FORWARD_SLASH] [abs_path (ps ++ [d]) false; js "../public"])
    with (abs_path (ps ++ [d]) false ++ CHAR_FORWARD_SLASH :: js "../public").
  destruct (normalize_abs
              (abs_path (ps ++ [d]) false ++ CHAR_FORWARD_SLASH :: js "../public"))
    as (segs & _ & Heq & ->); [done|].
  rewrite fs_segments_app, fs_segments_abs, fold_left_app in Heq by done.
  rewrite (norm_fold_plain false (ps ++ [d])), app_nil_r, reverse_app in Heq
    by done.
  change (fs_segments (js "../public")) with [js ".."; js "public"] in Heq.
  cbn [fold_left] in Heq.
  change (reverse [d] ++ reverse ps) with (d :: reverse ps) in Heq.
  rewrite norm_step_dotdot, norm_step_plain, reverse_cons, reverse_involutive
    in Heq by (done || apply plain_segment_public).
  subst segs.
  change (abs_path (ps ++ [d]) false ++ CHAR_FORWARD_SLASH :: js "../public")
    with (abs_path (ps ++ [d]) false ++ js "/../" ++ js "public").
  rewrite app_assoc, trailingSeparator_app; [done|done|apply plain_segment_public].
Qed.

Lemma join_with_last xs :
  Forall plain_segment xs → xs ≠ [] →
  ∃ pre x, join_with [CHAR_FORWARD_SLASH] xs = pre ++ x
           ∧ x ≠ [] ∧ (CHAR_FORWARD_SLASH ∉ x).
Proof.
  intros Hxs Hne. destruct xs as [|x xs _] using rev_ind; [done|].
  apply Forall_app in Hxs as [_ Hx]. apply Forall_inv in Hx as (Hx & Hs & _).
  destruct (decide (xs = [])) as [->|Hne'].
  - by exists [], x.
  - exists (join_with [CHAR_FORWARD_SLASH] xs ++ [CHAR_FORWARD_SLASH]), x.
    rewrite join_with_snoc by done. by rewrite <- app_assoc.
Qed.

Lemma join_abs_fold a q :
  path.isAbsolute a = true → q ≠ [] →
  ∃ segs,
    segs = reverse (fold_left (path.norm_step false) (fs_segments q)
                      (fold_left (path.norm_step false) (fs_segments a) []))
    ∧ path.join [a; q]
      = abs_path segs
          (path.trailingSeparator (a ++ CHAR_FORWARD_SLASH :: q)
           && bool_decide (segs ≠ [])).
Proof.
  intros Habs Hq. assert (Ha : a ≠ []) by (by intros ->).
  unfold path.join. rewrite !filter_cons_True by done. rewrite filter_nil.
  change (join_with [CHAR_FORWARD_SLASH] [a; q])
    with (a ++ CHAR_FORWARD_SLASH :: q).
  destruct (normalize_abs (a ++ CHAR_FORWARD_SLASH :: q))
    as (segs & _ & Heq & ->); [by destruct a|].
  rewrite fs_segments_app, fold_left_app in Heq. by exists segs.
Qed.

(** A path name of plain segments is looked up below the directory. *)
Lemma join_inside P xs :
  Forall plain_segment P → Forall plain_segment xs → xs ≠ [] →
  path.join [abs_path P false;
             CHAR_FORWARD_SLASH :: join_with [CHAR_FORWARD_SLASH] xs]
  = abs_path (P ++ xs) false.
Proof.
  intros HP Hxs Hne.
  destruct (join_abs_fold (abs_path P false)
              (CHAR_FORWARD_SLASH :: join_with [CHAR_FORWARD_SLASH] xs))
    as (segs & Heq & ->); [done|done|].
  change (CHAR_FORWARD_SLASH :: join_with [CHAR_FORWARD_SLASH] xs)
    with ([] ++ CHAR_FORWARD_SLASH :: join_with [CHAR_FORWARD_SLASH] xs) in Heq.
  rewrite fs_segments_app, fs_segments_nil, fs_segments_join, fs_segments_abs
    in Heq by done.
  cbn [app] in Heq.
  rewrite (norm_fold_plain false P), app_nil_r in Heq by done.
  rewrite norm_fold_plain, reverse_app, !reverse_involutive in Heq by done.
  subst segs.
  destruct (join_with_last xs Hxs Hne) as (pre & x & -> & Hx & Hslash).
  replace (abs_path P false ++ CHAR_FORWARD_SLASH :: CHAR_FORWARD_SLASH :: pre ++ x)
    with ((abs_path P false ++ CHAR_FORWARD_SLASH :: CHAR_FORWARD_SLASH :: pre) ++ x)
    by (by rewrite <- app_assoc).
  by rewrite trailingSeparator_app.
Qed.

(** A path name that starts with [..] is looked up below the parent. *)
Lemma join_parent P p xs :
  Forall plain_segment (P ++ [p]) → Forall plain_segment xs → xs ≠ [] →
  path.join [abs_path (P ++ [p]) false;
             js "/../" ++ join_with [CHAR_FORWARD_SLASH] xs]
  = abs_path (P ++ xs) false.
Proof.
  intros HPp Hxs Hne.
  pose proof HPp as [HP Hp]%Forall_app. apply Forall_inv in Hp.
  destruct (join_abs_fold (abs_path (P ++ [p]) false)
              (js "/../" ++ join_with [CHAR_FORWARD_SLASH] xs))
    as (segs & Heq & ->); [done|done|].
  change (js "/../" ++ join_with [CHAR_FORWARD_SLASH] xs)
    with ([] ++ CHAR_FORWARD_SLASH
          :: (js ".." ++ CHAR_FORWARD_SLASH :: join_with [CHAR_FORWARD_SLASH] xs))
    in Heq.
  rewrite !fs_segments_app, fs_segments_nil, fs_segments_join, fs_segments_abs
    in Heq by done.
  change (fs_segments (js "..")) with [js ".."] in Heq.
  cbn [app fold_left] in Heq.
  rewrite (norm_fold_plain false (P ++ [p])), app_nil_r, reverse_app in Heq
    by done.
  change (reverse [p] ++ reverse P) with (p :: reverse P) in Heq.
  rewrite norm_step_dotdot in Heq by done.
  rewrite norm_fold_plain, reverse_app, !reverse_involutive in Heq by done.
  subst segs.
  destruct (join_with_last xs Hxs Hne) as (pre & x & -> & Hx & Hslash).
  replace (abs_path (P ++ [p]) false ++ CHAR_FORWARD_SLASH :: js "/../" ++ pre ++ x)
    with ((abs_path (P ++ [p]) false ++ CHAR_FORWARD_SLASH :: js "/../" ++ pre) ++ x)
    by (rewrite <- !app_assoc; cbn [app]; by rewrite <- !app_assoc).
  by rewrite trailingSeparator_app.
Qed.

Lemma abs_path_parts ps :
  ∃ pre, ∀ s ys,
    abs_path (ps ++ s :: ys) false
    = pre ++ s ++ match ys with
                  | [] => []
                  | _ => CHAR_FORWARD_SLASH :: join_with [CHAR_FORWARD_SLASH] ys
                  end.
Proof.
  destruct (decide (ps = [])) as [->|Hne].
  - exists [CHAR_FORWARD_SLASH]. intros s ys. unfold abs_path.
    rewrite app_nil_r. cbn [app]. f_equal.
    destruct ys as [|y ys]; [by rewrite app_nil_r|].
    by rewrite join_with_cons.
  - exists (CHAR_FORWARD_SLASH
            :: join_with [CHAR_FORWARD_SLASH] ps ++ [CHAR_FORWARD_SLASH]).
    intros s ys. unfold abs_path. rewrite app_nil_r.
    rewrite join_with_app by done. cbn [app]. f_equal.
    rewrite <- app_assoc. f_equal. cbn [app]. f_equal.
    destruct ys as [|y ys]; [by rewrite app_nil_r|].
    by rewrite join_with_cons.
Qed.

Lemma startsWith_common pre a b :
  startsWith (pre ++ a) (pre ++ b) = startsWith a b.
Proof. induction pre as [|c pre IH]; [done|]. simpl. by rewrite N.eqb_refl. Qed.

Lemma startsWith_prefix s p :
  startsWith s p = true ↔ ∃ t, s = p ++ t.
Proof.
  rewrite startsWith_spec. split.
  - intros H. exists (drop (length p) s). by rewrite <- H at 1; rewrite take_drop.
  - intros [t ->]. by rewrite take_app_length.
Qed.

(** A segment followed by nothing or by a separator starts like another
    one only if the segment itself does. *)
Lemma startsWith_segment name rest p :
  CHAR_FORWARD_SLASH ∉ p →
  rest = [] ∨ head rest = Some CHAR_FORWARD_SLASH →
  startsWith (name ++ rest) p = startsWith name p.
Proof.
  intros Hp Hrest. revert p Hp. induction name as [|c name IH]; intros p Hp.
  - destruct p as [|x p]; [by destruct rest|].
    apply not_elem_of_cons in Hp as [Hx _]. simpl.
    destruct Hrest as [->|Hhead]; [done|].
    destruct rest as [|r rest]; [done|]. injection Hhead as ->.
    cbn [startsWith].
    assert ((x =? CHAR_FORWARD_SLASH)%N = false) as ->; [|done].
    apply N.eqb_neq. congruence.
  - destruct p as [|x p]; [done|].
    apply not_elem_of_cons in Hp as [_ Hp]. simpl. by rewrite IH.
Qed.

Lemma public_no_slash : CHAR_FORWARD_SLASH ∉ js "public".
Proof. apply plain_segment_public. Qed.

Lemma sibling_outside ps name xs :
  Forall plain_segment (name :: xs) → name ≠ js "public" →
  within (abs_path (ps ++ [js "public"]) false)
    (abs_path (ps ++ name :: xs) false) = false.
Proof.
  intros [Hname Hxs]%Forall_cons Hne.
  destruct Hname as (_ & Hslash & _).
  destruct (abs_path_parts ps) as (pre & Hpre).
  rewrite (Hpre name xs), (Hpre (js "public") []). rewrite app_nil_r.
  set (rest := match xs with [] => [] | _ => _ end).
  assert (Hrest : rest = [] ∨ head rest = Some CHAR_FORWARD_SLASH).
  { unfold rest. destruct xs; [by left|by right]. }
  unfold within. apply orb_false_intro.
  - unfold str_eqb. apply bool_decide_eq_false_2. intros Heq.
    apply app_inv_head in Heq.
    destruct Hrest as [Hr|Hr].
    + rewrite Hr, app_nil_r in Heq. done.
    + destruct rest as [|r rest']; [done|]. injection Hr as ->.
      pose proof public_no_slash as Hpub. apply Hpub. rewrite <- Heq.
      rewrite elem_of_app. right. by left.
  - apply not_true_is_false.
    rewrite <- app_assoc, startsWith_common.
    intros [t Ht]%startsWith_prefix.
    destruct Hrest as [Hr|Hr].
    + rewrite Hr, app_nil_r in Ht. apply Hslash. rewrite Ht.
      rewrite <- app_assoc, elem_of_app. right. by left.
    + destruct rest as [|r rest']; [done|]. injection Hr as ->.
      rewrite <- app_assoc in Ht. cbn [app] in Ht.
      apply (f_equal (split_on CHAR_FORWARD_SLASH)) in Ht.
      rewrite !split_on_app, !split_on_notin in Ht
        by (done || apply public_no_slash).
      by injection Ht as ->.
Qed.

(** X26. The guard of [serveStaticFile] is a test on the text of the path.
    With the server in a directory [d], the files are served from the
    directory [public] next to it; a path name of plain segments is looked
    up below [public]; a path name that climbs with [..] to a sibling of
    [public] is refused with 403 unless the sibling's name starts with
    [public], and then the file of that sibling, which lies outside
    [public], is served. *)
Theorem serveStaticFile_containment ps d fs :
  Forall plain_segment (ps ++ [d]) →
  server.PUBLIC_DIR (abs_path (ps ++ [d]) false)
  = abs_path (ps ++ [js "public"]) false
  ∧ server.serveStaticFile (abs_path (ps ++ [d]) false) fs (js "/")
    = server.sendFile fs
        (abs_path (ps ++ [js "public"; js "index.html"]) false)
  ∧ (∀ xs, Forall plain_segment xs → xs ≠ [] →
       server.serveStaticFile (abs_path (ps ++ [d]) false) fs
         (CHAR_FORWARD_SLASH :: join_with [CHAR_FORWARD_SLASH] xs)
       = server.sendFile fs (abs_path (ps ++ js "public" :: xs) false))
  ∧ (∀ name xs, Forall plain_segment (name :: xs) →
       server.serveStaticFile (abs_path (ps ++ [d]) false) fs
         (js "/../" ++ join_with [CHAR_FORWARD_SLASH] (name :: xs))
       = (if startsWith name (js "public")
          then server.sendFile fs (abs_path (ps ++ name :: xs) false)
          else server.forbidden)
       ∧ (name ≠ js "public" →
          within (abs_path (ps ++ [js "public"]) false)
            (abs_path (ps ++ name :: xs) false) = false)).
Proof.
  intros Hpd. pose proof Hpd as [Hps Hd]%Forall_app. apply Forall_inv in Hd.
  pose proof (PUBLIC_DIR_abs ps d Hpd) as Hpub.
  assert (HP : Forall plain_segment (ps ++ [js "public"])).
  { apply Forall_app. split; [done|].
    constructor; [apply plain_segment_public|constructor]. }
  assert (Hin : ∀ xs, Forall plain_segment xs → xs ≠ [] →
            server.serveStaticFile (abs_path (ps ++ [d]) false) fs
              (CHAR_FORWARD_SLASH :: join_with [CHAR_FORWARD_SLASH] xs)
            = server.sendFile fs (abs_path (ps ++ js "public" :: xs) false)).
  { intros xs Hxs Hne. unfold server.serveStaticFile.
    assert (str_eqb (CHAR_FORWARD_SLASH :: join_with [CHAR_FORWARD_SLASH] xs)
              (js "/") = false) as ->.
    { unfold str_eqb. apply bool_decide_eq_false_2. intros [= Heq].
      apply join_with_nil in Heq; [done|].
      eapply Forall_impl; [exact Hxs|]. by intros seg (? & _). }
    rewrite Hpub. rewrite join_inside by done.
    rewrite <- app_assoc. cbn [app].
    rewrite normalize_abs_path
      by (apply Forall_app; split; [done|constructor;
            [apply plain_segment_public|done]]).
    change (ps ++ js "public" :: xs) with (ps ++ [js "public"] ++ xs).
    rewrite app_assoc, abs_path_app by (done || by destruct ps).
    by rewrite startsWith_app. }
  split; [done|]. split; [|split; [done|]].
  - change (js "/") with [CHAR_FORWARD_SLASH].
    rewrite <- (Hin [js "index.html"]).
    + done.
    + constructor; [|constructor]. repeat split; try done.
      apply (bool_decide_unpack _). by vm_compute.
    + done.
  - intros name xs Hxs. split; [|by apply sibling_outside].
    pose proof Hxs as [Hname Hxs']%Forall_cons.
    unfold server.serveStaticFile.
    assert (str_eqb (js "/../" ++ join_with [CHAR_FORWARD_SLASH] (name :: xs))
              (js "/") = false) as -> by done.
    rewrite Hpub. rewrite join_parent by done.
    rewrite normalize_abs_path by (apply Forall_app; by split).
    destruct (abs_path_parts ps) as (pre & Hpre).
    rewrite (Hpre name xs), (Hpre (js "public") []), app_nil_r.
    rewrite startsWith_common, startsWith_segment.
    + by destruct (startsWith name (js "public")).
    + apply public_no_slash.
    + destruct xs; [by left|by right].
Qed.

Lemma serveStaticFile_containment_witness :
  server.serveStaticFile (js "/srv/app/server") host_with_public
    (js "/../public-old/secret.txt")
  = server.mkResponse 200 (js "application/octet-stream") (js "s")
  ∧ server.serveStaticFile (js "/srv/app/server") host_with_public
      (js "/../private/x")
    = server.forbidden.
Proof.
  assert (Hseg : ∀ s, bool_decide (js s ≠ [] ∧ (CHAR_FORWARD_SLASH ∉ js s)
                         ∧ js s ≠ js "." ∧ js s ≠ js "..") = true →
                      plain_segment (js s)).
  { intros s Hs. by apply bool_decide_eq_true in Hs. }
  assert (H : Forall plain_segment ([js "srv"; js "app"] ++ [js "server"])).
  { repeat constructor; by apply Hseg. }
  assert (H1 : Forall plain_segment [js "public-old"; js "secret.txt"]).
  { repeat constructor; by apply Hseg. }
  assert (H2 : Forall plain_segment [js "private"; js "x"]).
  { repeat constructor; by apply Hseg. }
  assert (E : js "/srv/app/server"
              = abs_path ([js "srv"; js "app"] ++ [js "server"]) false)
    by (vm_compute; reflexivity).
  assert (E1 : js "/../public-old/secret.txt"
               = js "/../" ++ join_with [CHAR_FORWARD_SLASH]
                                [js "public-old"; js "secret.txt"])
    by (vm_compute; reflexivity).
  assert (E2 : js "/../private/x"
               = js "/../" ++ join_with [CHAR_FORWARD_SLASH]
                                [js "private"; js "x"])
    by (vm_compute; reflexivity).
  destruct (serveStaticFile_containment [js "srv"; js "app"] (js "server")
              host_with_public H) as (_ & _ & _ & Hup).
  rewrite E, E1, E2. split.
  - rewrite (proj1 (Hup _ _ H1)). vm_compute. reflexivity.
  - rewrite (proj1 (Hup _ _ H2)). vm_compute. reflexivity.
Defined.

(** ** Directories as a whole *)

Lemma downloadFile_by_walk dir fs rel segs k :
  Forall plain_segment segs → plain_segment k →
  resolvePath dir rel = inr (abs_path (segs ++ [k]) false) →
  downloadFile dir fs rel
  = match walk fs (segs ++ [k]) with
    | inr (File c _) => inr (mkDownload c k (getMimeType k))
    | _ => inl NotFound
    end.
Proof.
  intros Hsegs Hk Hres. unfold downloadFile. rewrite Hres.
  unfold fs_stat, fs_readFile, fs_lookup.
  rewrite fs_segments_abs by (apply Forall_app; split; [done|by constructor]).
  rewrite trailingSeparator_abs_snoc by done.
  destruct (walk fs (segs ++ [k])) as [e|[c t|es sz t|]]; try done.
  cbn [isFile st_kind negb io]. by rewrite basename_abs.
Qed.

Lemma resolvePath_below dir xs ys k :
  path.isAbsolute dir = true →
  Forall ordinary_segment xs → Forall ordinary_segment ys →
  ordinary_segment k →
  resolvePath dir (join_with [CHAR_FORWARD_SLASH] (xs ++ ys ++ [k]))
  = inr (abs_path ((root_segments dir ++ xs ++ ys) ++ [k]) false)
  ∧ Forall plain_segment (root_segments dir ++ xs ++ ys)
  ∧ plain_segment k.
Proof.
  intros Habs Hxs Hys Hk.
  destruct (root_segments_plain dir Habs) as (Hroot & _ & _).
  assert (Hall : Forall ordinary_segment (xs ++ ys ++ [k])).
  { rewrite !Forall_app. repeat split; try done. by constructor. }
  destruct (resolvePath_ordinary dir _ Habs Hall) as [-> _].
  split; [by rewrite <- !app_assoc|]. split; [|by apply ordinary_plain].
  rewrite !Forall_app. repeat split; try done; by apply Forall_ordinary_plain.
Qed.

(** X27. Renaming a directory keeps what is in it: after a successful
    rename of a directory given by ordinary segments, every path below
    the new name is answered by [downloadFile] as the same path below
    the old name was before, and below the old name nothing is found any
    more. *)
Theorem rename_directory_keeps_files dir fs xs name newName ys fs' r :
  path.isAbsolute dir = true →
  Forall ordinary_segment xs → ordinary_segment name →
  CHAR_FORWARD_SLASH ∉ newName → CHAR_BACKWARD_SLASH ∉ newName →
  Forall ordinary_segment ys → ys ≠ [] →
  renameFile dir fs (join_with [CHAR_FORWARD_SLASH] (xs ++ [name])) newName
  = inr (fs', r) →
  downloadFile dir fs' (join_with [CHAR_FORWARD_SLASH] (xs ++ newName :: ys))
  = downloadFile dir fs (join_with [CHAR_FORWARD_SLASH] (xs ++ name :: ys))
  ∧ downloadFile dir fs' (join_with [CHAR_FORWARD_SLASH] (xs ++ name :: ys))
    = inl NotFound.
Proof.
  intros Habs Hxs Hname Hslash Hback Hys Hne Hrn.
  destruct (root_segments_plain dir Habs) as (Hroot & _ & _).
  pose proof (Forall_ordinary_plain _ Hxs) as Hxs_plain.
  set (segs := root_segments dir ++ xs).
  assert (Hsegs : Forall plain_segment segs) by (by apply Forall_app).
  assert (Hres : resolvePath dir (join_with [CHAR_FORWARD_SLASH] (xs ++ [name]))
                 = inr (abs_path (segs ++ [name]) false)).
  { destruct (resolvePath_ordinary dir (xs ++ [name]) Habs) as [-> _].
    - apply Forall_app. split; [done|by constructor].
    - unfold segs. by rewrite <- app_assoc. }
  destruct (renameFile_child dir fs _ segs name newName fs' r Hsegs
              (ordinary_plain _ Hname) Hslash Hres Hrn)
    as (es & sz & t & src & Hwalk & Hsrc & Hnew & Hdiff & Hwalk' & _).
  assert (Hnew_ord : ordinary_segment newName) by (by split).
  destruct ys as [|k ys' _] using rev_ind; [done|].
  apply Forall_app in Hys as [Hys' Hk]. apply Forall_inv in Hk.
  assert (Hbelow : ∀ n, ordinary_segment n →
            ∀ fs0, downloadFile dir fs0
                     (join_with [CHAR_FORWARD_SLASH] (xs ++ n :: ys' ++ [k]))
            = match walk fs0 (segs ++ n :: ys' ++ [k]) with
              | inr (File c _) => inr (mkDownload c k (getMimeType k))
              | _ => inl NotFound
              end).
  { intros n Hn fs0.
    destruct (resolvePath_below dir xs (n :: ys') k Habs Hxs) as (Hr & Hp & Hk');
      [by constructor|done|].
    rewrite (downloadFile_by_walk dir fs0 _ (root_segments dir ++ xs ++ n :: ys') k)
      by done.
    unfold segs. by rewrite <- !app_assoc. }
  rewrite !Hbelow by done.
  rewrite !(walk_app _ segs), Hwalk, Hwalk'. cbn [walk].
  rewrite alookup_aremove_ne, alookup_aput_eq, Hsrc by done.
  split; [done|]. by rewrite alookup_aremove_eq.
Qed.

Lemma rename_directory_keeps_files_witness :
  ∃ fs' r,
    renameFile (js "/srv/app")
      (host_with_root [(js "docs", Dir [(js "a.txt", plain_file "a")] 4096 0)])
      (join_with [CHAR_FORWARD_SLASH] ([] ++ [js "docs"])) (js "papers")
    = inr (fs', r)
    ∧ downloadFile (js "/srv/app") fs'
        (join_with [CHAR_FORWARD_SLASH] ([] ++ js "papers" :: [js "a.txt"]))
      = inr (mkDownload (js "a") (js "a.txt") (js "text/plain")).
Proof.
  assert (H0 : Forall ordinary_segment []) by constructor.
  assert (H1 : ordinary_segment (js "docs")) by ordinary_closed.
  assert (H2 : CHAR_FORWARD_SLASH ∉ js "papers") by (vm_compute; set_solver).
  assert (H3 : CHAR_BACKWARD_SLASH ∉ js "papers") by (vm_compute; set_solver).
  assert (H4 : Forall ordinary_segment [js "a.txt"]).
  { constructor; [ordinary_closed|constructor]. }
  assert (H5 : [js "a.txt"] ≠ []) by done.
  destruct (renameFile (js "/srv/app")
              (host_with_root
                 [(js "docs", Dir [(js "a.txt", plain_file "a")] 4096 0)])
              (join_with [CHAR_FORWARD_SLASH] ([] ++ [js "docs"])) (js "papers"))
    as [e|[fs' r]] eqn:Hrn; [vm_compute in Hrn; discriminate Hrn|].
  exists fs', r. split; [exact eq_refl|].
  destruct (rename_directory_keeps_files (js "/srv/app") _ [] (js "docs")
              (js "papers") [js "a.txt"] fs' r eq_refl H0 H1 H2 H3 H4 H5 Hrn)
    as [Hsame _].
  rewrite Hsame. vm_compute. reflexivity.
Defined.

(** X28. Deleting a directory deletes what is in it: after a successful
    [deleteFile] on a path of ordinary segments, [downloadFile] and
    [listFiles] answer not found on that path and on every path below
    it. *)
Theorem delete_directory_removes_content dir cmp fs xs ys fs' d :
  path.isAbsolute dir = true →
  Forall ordinary_segment xs → Forall ordinary_segment ys →
  deleteFile dir fs (join_with [CHAR_FORWARD_SLASH] xs) = inr (fs', d) →
  downloadFile dir fs' (join_with [CHAR_FORWARD_SLASH] (xs ++ ys))
  = inl NotFound
  ∧ listFiles dir cmp fs' (join_with [CHAR_FORWARD_SLASH] (xs ++ ys))
    = inl NotFound.
Proof.
  intros Habs Hxs Hys (abs & Hres & _ & e & Hgone)%deleteFile_inv.
  destruct (root_segments_plain dir Habs) as (Hroot & _ & _).
  destruct (resolvePath_ordinary dir xs Habs Hxs) as [Hres' _].
  rewrite Hres' in Hres. injection Hres as <-.
  rewrite fs_segments_abs in Hgone
    by (apply Forall_app; split; [done|by apply Forall_ordinary_plain]).
  assert (Hall : Forall ordinary_segment (xs ++ ys)) by (by apply Forall_app).
  destruct (resolvePath_ordinary dir (xs ++ ys) Habs Hall) as [Hres2 _].
  assert (Hex : fs_existsSync fs' (abs_path (root_segments dir ++ xs ++ ys) false)
                = false).
  { apply (fs_existsSync_gone _ _ e). rewrite fs_segments_abs.
    - by rewrite app_assoc, walk_app, Hgone.
    - apply Forall_app. split; [done|]. by apply Forall_ordinary_plain. }
  unfold listFiles, downloadFile. rewrite Hres2, Hex. cbn [negb].
  split; [|done].
  unfold fs_existsSync in Hex.
  by destruct (fs_stat fs' (abs_path (root_segments dir ++ xs ++ ys) false)).
Qed.

Lemma delete_directory_removes_content_witness :
  ∃ fs' d,
    deleteFile (js "/srv/app")
      (host_with_root [(js "docs", Dir [(js "a.txt", plain_file "a")] 4096 0)])
      (join_with [CHAR_FORWARD_SLASH] [js "docs"])
    = inr (fs', d)
    ∧ downloadFile (js "/srv/app") fs'
        (join_with [CHAR_FORWARD_SLASH] ([js "docs"] ++ [js "a.txt"]))
      = inl NotFound.
Proof.
  assert (H1 : Forall ordinary_segment [js "docs"]).
  { constructor; [ordinary_closed|constructor]. }
  assert (H2 : Forall ordinary_segment [js "a.txt"]).
  { constructor; [ordinary_closed|constructor]. }
  destruct (deleteFile (js "/srv/app")
              (host_with_root
                 [(js "docs", Dir [(js "a.txt", plain_file "a")] 4096 0)])
              (join_with [CHAR_FORWARD_SLASH] [js "docs"]))
    as [e|[fs' d]] eqn:Hdel; [vm_compute in Hdel; discriminate Hdel|].
  exists fs', d. split; [exact eq_refl|].
  exact (proj1 (delete_directory_removes_content (js "/srv/app")
                  localeCompare_en _ [js "docs"] [js "a.txt"] fs' d
                  eq_refl H1 H2 Hdel)).
Defined.
